(** * SLALOM: annotation comparison and measure computation

    A shallow embedding of the core of [slalom_auxiliar.py]: overlap
    resolution inside one annotation, Boolean and enrichment classification
    of the symbols of a sequence, site matching, the Matthews correlation
    coefficient of the performance table and the database-wide averaging.

    Conventions.
    - Python [int] is [Z]; a site [[begin, end]] or [[begin, end, name]] is
      the record [Site].
    - A Python exception is a value of [exn]; code that can raise lives in
      the error monad [res].
    - Python [float] is idealised: exact rationals ([Q]) where the code only
      divides and compares (overlap shares), real numbers ([R]) in the
      performance table, where [math.sqrt] occurs.  The not-a-number value
      is the constructor [NaN] of [pyfloat].
    - Text written to the output files is kept as structured lines (the
      values that are formatted), not as formatted strings. *)

From Stdlib Require Import ZArith List Bool Lia String QArith Qround.
From Stdlib Require Import Reals Lra.
Import ListNotations.

Local Open Scope Z_scope.

(** ** Exceptions and the error monad *)

Inductive exn : Type :=
| IndexError
| AttributeError (attr : string)
| NameError (var : string)
| KeyError (key : string)
| ValueError
| TypeError
| ZeroDivisionError
| NotImplementedError (meth : string)
| SystemExit (message : string).

Inductive res (A : Type) : Type :=
| Ok (a : A)
| Raise (e : exn).

Arguments Ok {A} a.
Arguments Raise {A} e.

Definition bind {A B : Type} (m : res A) (k : A -> res B) : res B :=
  match m with
  | Ok a => k a
  | Raise e => Raise e
  end.

Notation "x <- m ;; k" := (bind m (fun x => k))
  (at level 61, m at next level, right associativity).
Notation "' p <- m ;; k" := (bind m (fun p => k))
  (at level 61, p pattern, m at next level, right associativity).

(** [for x in xs: st = body x st], where the body may raise. *)
Fixpoint for_each {A S : Type} (xs : list A) (body : A -> S -> res S) (st : S)
  : res S :=
  match xs with
  | [] => Ok st
  | x :: rest => st' <- body x st ;; for_each rest body st'
  end.

(** ** Sites *)

Record Site : Type := mkSite {
  site_begin : Z;                 (* site[0] *)
  site_end : Z;                   (* site[1] *)
  site_name : option string       (* site[2], only with named sites *)
}.

Definition site (b e : Z) : Site := mkSite b e None.

(** Positions are 1-based and a site covers [begin..end], both included. *)
Definition covers (s : Site) (p : Z) : bool :=
  (site_begin s <=? p) && (p <=? site_end s).

Definition covered (sites : list Site) (p : Z) : bool :=
  existsb (fun s => covers s p) sites.

(** Data-model invariant of a site of a sequence of length [len]. *)
Definition valid_site (len : Z) (s : Site) : Prop :=
  1 <= site_begin s /\ site_begin s <= site_end s /\ site_end s <= len.

Fixpoint sorted_by_begin (sites : list Site) : bool :=
  match sites with
  | [] => true
  | s :: rest =>
      match rest with
      | [] => true
      | s' :: _ => (site_begin s <=? site_begin s') && sorted_by_begin rest
      end
  end.

(** No site ends before the site listed before it ends: no site is nested
    strictly inside an earlier one. *)
Fixpoint ends_nondecreasing (sites : list Site) : bool :=
  match sites with
  | [] => true
  | s :: rest =>
      match rest with
      | [] => true
      | s' :: _ => (site_end s <=? site_end s') && ends_nondecreasing rest
      end
  end.

(** ** CSVParser._resolve_overlaps_within_annotations *)

Module Overlap.

Inductive policy : Type := All | First | Last | Merge.

(** policy == 'first':
<<
    last_end = 0
    for site in sites:
        if site[0] > last_end:
            sites_new.append(site)
        last_end = site[1]
>> *)
Fixpoint first_loop (sites : list Site) (last_end : Z) (sites_new : list Site)
  : list Site :=
  match sites with
  | [] => sites_new
  | s :: rest =>
      let sites_new' :=
        if site_begin s >? last_end then sites_new ++ [s] else sites_new in
      first_loop rest (site_end s) sites_new'
  end.

Definition resolve_first (sites : list Site) : list Site :=
  first_loop sites 0 [].

(** policy == 'last'; [next_begin = float('inf')] is [None].
<<
    next_begin = float('inf')
    for site in reversed(sites):
        if site[1] < next_begin:
            sites_new.insert(0, site)
        next_begin = site[0]
>> *)
Fixpoint last_loop (rsites : list Site) (next_begin : option Z)
  (sites_new : list Site) : list Site :=
  match rsites with
  | [] => sites_new
  | s :: rest =>
      let keep :=
        match next_begin with
        | None => true
        | Some nb => site_end s <? nb
        end in
      last_loop rest (Some (site_begin s))
        (if keep then s :: sites_new else sites_new)
  end.

Definition resolve_last (sites : list Site) : list Site :=
  last_loop (rev sites) None [].

(** policy == 'merge':
<<
    last_end = 0
    new_begin = 0
    for site in sites:
        if site[0] > last_end:
            if new_begin > 0:
                sites_new.append([new_begin, last_end])
            new_begin = site[0]
        last_end = site[1]
    if new_begin > 0:
        sites_new.append([new_begin, last_end])
>> *)
Fixpoint merge_loop (sites : list Site) (last_end new_begin : Z)
  (sites_new : list Site) : Z * Z * list Site :=
  match sites with
  | [] => (last_end, new_begin, sites_new)
  | s :: rest =>
      if site_begin s >? last_end then
        let sites_new' :=
          if new_begin >? 0 then sites_new ++ [site new_begin last_end]
          else sites_new in
        merge_loop rest (site_end s) (site_begin s) sites_new'
      else
        merge_loop rest (site_end s) new_begin sites_new
  end.

(** The statement after the loop, on the variables the loop leaves. *)
Definition close_run (st : Z * Z * list Site) : list Site :=
  let '(last_end, new_begin, sites_new) := st in
  if new_begin >? 0 then sites_new ++ [site new_begin last_end] else sites_new.

Definition resolve_merge (sites : list Site) : list Site :=
  close_run (merge_loop sites 0 0 []).

(** The body of the loop over the site lists: [sites[:] = sites_new]
    (for 'all' the list is skipped). *)
Definition resolve_overlaps (p : policy) (sites : list Site) : list Site :=
  match p with
  | All => sites
  | First => resolve_first sites
  | Last => resolve_last sites
  | Merge => resolve_merge sites
  end.

(** *** The policies as the specification words them *)

(** 'first' as specified: a site is kept iff its begin exceeds the end of
    the previously kept site (0 before any site is kept). *)
Fixpoint first_spec_loop (sites : list Site) (kept_end : Z) : list Site :=
  match sites with
  | [] => []
  | s :: rest =>
      if site_begin s >? kept_end
      then s :: first_spec_loop rest (site_end s)
      else first_spec_loop rest kept_end
  end.

Definition first_spec (sites : list Site) : list Site :=
  first_spec_loop sites 0.

(** What the code keeps: the sites whose begin exceeds the end of the site
    listed immediately before them (0 before the first site). *)
Definition starts_after_predecessor (sites : list Site) : list Site :=
  map snd
    (filter (fun p : Z * Site => site_begin (snd p) >? fst p)
       (combine (0 :: map site_end sites) sites)).

(** Sorted and pairwise disjoint: every site begins after the one before it
    ends. *)
Fixpoint non_overlapping (sites : list Site) : bool :=
  match sites with
  | [] => true
  | s :: rest =>
      match rest with
      | [] => true
      | s' :: _ => (site_end s <? site_begin s') && non_overlapping rest
      end
  end.

End Overlap.

(** ** numpy arrays and Python ranges *)

Definition py_range (a b : Z) : list Z :=
  map (fun k => a + Z.of_nat k) (seq 0 (Z.to_nat (b - a))).

(** [np.zeros(shape = n, dtype = ...)]: a negative shape is a ValueError. *)
Definition np_zeros (n : Z) : res (list Z) :=
  if n <? 0 then Raise ValueError else Ok (repeat 0 (Z.to_nat n)).

(** Index normalisation of [a[idx]]: a negative index counts from the end,
    anything outside the array is an IndexError. *)
Definition np_index (a : list Z) (idx : Z) : res nat :=
  let n := Z.of_nat (List.length a) in
  let idx' := if idx <? 0 then idx + n else idx in
  if (0 <=? idx') && (idx' <? n) then Ok (Z.to_nat idx') else Raise IndexError.

Fixpoint list_update (a : list Z) (i : nat) (v : Z) : list Z :=
  match a, i with
  | [], _ => []
  | _ :: rest, O => v :: rest
  | x :: rest, S i' => x :: list_update rest i' v
  end.

Definition np_get (a : list Z) (idx : Z) : res Z :=
  i <- np_index a idx ;; Ok (nth i a 0).

Definition np_set (a : list Z) (idx v : Z) : res (list Z) :=
  i <- np_index a idx ;; Ok (list_update a i v).

(** Bound normalisation of a slice [a[lo:hi]]: negative bounds count from
    the end, then both are clipped to the array; a slice never raises. *)
Definition slice_bound (n b : Z) : Z :=
  let b' := if b <? 0 then b + n else b in
  Z.max 0 (Z.min n b').

Definition np_slice (a : list Z) (lo hi : Z) : list Z :=
  let n := Z.of_nat (List.length a) in
  let l := slice_bound n lo in
  let h := slice_bound n hi in
  firstn (Z.to_nat (h - l)) (skipn (Z.to_nat l) a).

(** [np.sum(a == v)] *)
Definition np_count (v : Z) (a : list Z) : Z :=
  Z.of_nat (List.length (filter (fun x => x =? v) a)).

(** ** Options, sequences and the annotation index *)

Inductive anno : Type := A1 | A2.

(** [j = 3 - i] *)
Definition other (i : anno) : anno :=
  match i with A1 => A2 | A2 => A1 end.

Definition anno_eqb (i k : anno) : bool :=
  match i, k with
  | A1, A1 | A2, A2 => true
  | _, _ => false
  end.

Definition get2 {A : Type} (i : anno) (p : A * A) : A :=
  match i with A1 => fst p | A2 => snd p end.

Definition set2 {A : Type} (i : anno) (v : A) (p : A * A) : A * A :=
  match i with A1 => (v, snd p) | A2 => (fst p, v) end.

Inductive PredictorNature : Type := Neutral | Leading | Lagging.

Inductive OverlapApply : Type :=
| Shortest | Longest | Current | Patched
| OtherApply (value : string).

Inductive SiteDifference : Type :=
| DiffAll | DiffUnmatched | DiffDiscrepant.

(** The command-line options the engine reads ([self.opt]). *)
Record Options : Type := mkOptions {
  gross : bool;
  overlap_apply : OverlapApply;
  overlap_symbols : Z;
  overlap_part : Q;
  predictor_nature : PredictorNature;
  site_names : bool;
  site_difference : SiteDifference;
  group_map : bool;                (* truth value of opt.group_map *)
  enrichment_count : Z
}.

(** Modelled from the spec: the class [CurrentSequence] of
    [slalom_structures] is not in the sources.  It is built as
    [CurrentSequence(GID, SID, seq_length, sites)] and read as [.GID], [.SID],
    [.length] and [.sites[i]]; [sites[1]] and [sites[2]] are the two
    components of [sites]. *)
Record CurrentSequence : Type := mkCurrentSequence {
  GID : string;
  SID : string;
  length : Z;
  sites : list Site * list Site
}.

Definition valid_sequence (cs : CurrentSequence) : Prop :=
  0 <= length cs /\
  Forall (valid_site (length cs)) (fst (sites cs)) /\
  Forall (valid_site (length cs)) (snd (sites cs)).

(** A row of a derived annotation file, [_write_site]: the group column is
    present only when the GID is not empty; [begin_idx + 1] and [idx]. *)
Record SiteRow : Type := mkSiteRow {
  row_GID : option string;
  row_SID : string;
  row_begin : Z;
  row_end : Z
}.

(** ** Output files *)

(** The description of an enrichment count: 'the ' + anno_name[i],
    'both annotations' or 'neither annotations'. *)
Inductive EnrichedIn : Type :=
| InAnnotation (i : anno)
| InBoth
| InNeither.

(** The lines of the detailed output file, as the values they format. *)
Inductive DetailedLine : Type :=
| DMeasure (type_ : string) (symbols_n : Z) (gross_word : bool)
| DGross (i j : anno) (symbols_n : Z)
| DSiteMatch (i j : anno) (s s_ : Site) (overlapped perc_1 perc_2 : Z)
| DSiteNoMatch (i : anno) (s : Site)
| DPatchedMatch (i j : anno) (s : Site) (matched perc : Z)
| DNoSites (i : anno)
| DSitesTotal (i : anno) (sites_n symbols : Z) (gross_word : bool)
| DSitesMatched (i j : anno) (sites_n : Z)
| DSitesUnmatched (i j : anno) (sites_n : Z)
| DEnriched (symbols_n : Z) (description : EnrichedIn).

(** A row of the site statistics file; [partner = None] prints '-'. *)
Record StatRow : Type := mkStatRow {
  stat_GID : option string;
  stat_SID : string;
  stat_anno : anno;
  stat_site : Site;
  stat_name : option string;
  stat_overlapped : Z;
  stat_perc : list Z;
  stat_partner : option Site;
  stat_partner_name : option string
}.

Inductive FileType : Type :=
| Union | Intersection | Complement1 | Complement2 | Re1 | Re2
| Detailed | SiteStats.

(** Modelled from the spec: [FileHandlers] of [slalom_structures] is not in
    the sources; it holds one handler (or [None]) for each output file of
    section 6: the six derived-interval files, the detailed file and the
    per-site statistics table.  A handler is the list of what was written. *)
Record FileHandlers : Type := mkFileHandlers {
  fh_union : option (list SiteRow);
  fh_intersection : option (list SiteRow);
  fh_complement1 : option (list SiteRow);
  fh_complement2 : option (list SiteRow);
  fh_re1 : option (list SiteRow);
  fh_re2 : option (list SiteRow);
  fh_detailed : option (list DetailedLine);
  fh_site : option (list StatRow)
}.

Definition output_file_types : list FileType :=
  [Union; Intersection; Complement1; Complement2; Re1; Re2; Detailed; SiteStats].

(** [getattr(file_handlers, type_)] for a derived-interval file. *)
Definition get_rows (fh : FileHandlers) (t : FileType) : option (list SiteRow) :=
  match t with
  | Union => fh_union fh
  | Intersection => fh_intersection fh
  | Complement1 => fh_complement1 fh
  | Complement2 => fh_complement2 fh
  | Re1 => fh_re1 fh
  | Re2 => fh_re2 fh
  | Detailed | SiteStats => None
  end.

Definition set_rows (fh : FileHandlers) (t : FileType) (rows : list SiteRow)
  : FileHandlers :=
  match t with
  | Union => mkFileHandlers (Some rows) (fh_intersection fh) (fh_complement1 fh)
               (fh_complement2 fh) (fh_re1 fh) (fh_re2 fh) (fh_detailed fh) (fh_site fh)
  | Intersection => mkFileHandlers (fh_union fh) (Some rows) (fh_complement1 fh)
               (fh_complement2 fh) (fh_re1 fh) (fh_re2 fh) (fh_detailed fh) (fh_site fh)
  | Complement1 => mkFileHandlers (fh_union fh) (fh_intersection fh) (Some rows)
               (fh_complement2 fh) (fh_re1 fh) (fh_re2 fh) (fh_detailed fh) (fh_site fh)
  | Complement2 => mkFileHandlers (fh_union fh) (fh_intersection fh) (fh_complement1 fh)
               (Some rows) (fh_re1 fh) (fh_re2 fh) (fh_detailed fh) (fh_site fh)
  | Re1 => mkFileHandlers (fh_union fh) (fh_intersection fh) (fh_complement1 fh)
               (fh_complement2 fh) (Some rows) (fh_re2 fh) (fh_detailed fh) (fh_site fh)
  | Re2 => mkFileHandlers (fh_union fh) (fh_intersection fh) (fh_complement1 fh)
               (fh_complement2 fh) (fh_re1 fh) (Some rows) (fh_detailed fh) (fh_site fh)
  | Detailed | SiteStats => fh
  end.

Definition handler_is_none (fh : FileHandlers) (t : FileType) : bool :=
  match t with
  | Detailed => match fh_detailed fh with None => true | Some _ => false end
  | SiteStats => match fh_site fh with None => true | Some _ => false end
  | _ => match get_rows fh t with None => true | Some _ => false end
  end.

(** [handler.write(line)] when the handler is known not to be [None]. *)
Definition write {L : Type} (h : option (list L)) (line : L) : option (list L) :=
  match h with
  | Some lines => Some (lines ++ [line])
  | None => None
  end.

(** [handler.write(line)] on a handler that may be [None]. *)
Definition write_unchecked {L : Type} (h : option (list L)) (line : L)
  : res (option (list L)) :=
  match h with
  | Some lines => Ok (Some (lines ++ [line]))
  | None => Raise (AttributeError "write")
  end.

(** ** BasicSequenceCalculator.write_to_files *)

Section WriteToFiles.

Variable current_seq : CurrentSequence.
(** [getattr(self, '_in_' + type_)], the predicates of the subclass. *)
Variable in_type : FileType -> Z -> res bool.

(** [_write_site(file_handler, begin_idx, idx)] *)
Definition write_site (rows : list SiteRow) (begin_idx : option Z) (idx : Z)
  : res (list SiteRow) :=
  let group :=
    if String.eqb (GID current_seq) EmptyString then None
    else Some (GID current_seq) in
  match begin_idx with
  | None => Raise TypeError
  | Some b => Ok (rows ++ [mkSiteRow group (SID current_seq) (b + 1) idx])
  end.

(** One step of [for idx in range(self.current_seq.length)]; the state is
    [(in_site, begin_idx, rows)]. *)
Definition scan_step (t : FileType) (idx : Z)
  (st : bool * option Z * list SiteRow) : res (bool * option Z * list SiteRow) :=
  let '(in_site, begin_idx, rows) := st in
  b <- in_type t idx ;;
  if b then
    if negb in_site then Ok (true, Some idx, rows) else Ok st
  else if in_site then
    rows' <- write_site rows begin_idx idx ;;
    Ok (false, begin_idx, rows')
  else Ok st.

Definition scan (t : FileType) (rows : list SiteRow) : res (list SiteRow) :=
  ' (in_site, begin_idx, rows') <-
    for_each (py_range 0 (length current_seq)) (scan_step t) (false, None, rows) ;;
  if (in_site : bool) then write_site rows' begin_idx (length current_seq)
  else Ok rows'.

Definition write_to_files (file_handlers : FileHandlers) : res FileHandlers :=
  for_each output_file_types
    (fun t fh =>
       if handler_is_none fh t then Ok fh
       else match t with
            | Detailed | SiteStats => Ok fh
            | _ =>
                match get_rows fh t with
                | None => Ok fh
                | Some rows => rows' <- scan t rows ;; Ok (set_rows fh t rows')
                end
            end)
    file_handlers.

End WriteToFiles.

(** ** Numbers *)

(** [a / b] on integers: true division, a zero divisor raises. *)
Definition py_truediv (a b : Z) : res Q :=
  if b =? 0 then Raise ZeroDivisionError else Ok (inject_Z a / inject_Z b)%Q.

(** [round(x)]: to the nearest integer, ties to the even one. *)
Definition py_round (q : Q) : Z :=
  let f := Qfloor q in
  match Qcompare (q - inject_Z f) (1 # 2) with
  | Lt => f
  | Gt => f + 1
  | Eq => if Z.even f then f else f + 1
  end.

(** [round(100 * overlapped / length)] *)
Definition percent (overlapped len : Z) : res Z :=
  q <- py_truediv (100 * overlapped) len ;; Ok (py_round q).

(** ** BasicBooleanSequenceCalculator *)

Module Boolean.

(** Modelled from the spec: the class [BasicBooleanMeasures] of
    [slalom_structures] is not in the sources.  It is the per-sequence record
    of Boolean counts of section 3; [pp_], [site_m], [site_nm] and
    [site_len] are indexed by the annotation (1 or 2). *)
Record BasicBooleanMeasures : Type := mkMeasures {
  pp : Z;
  pp_ : Z * Z;
  pa : Z;
  ap : Z;
  aa : Z;
  site_m : Z * Z;
  site_nm : Z * Z;
  site_len : Z * Z
}.

(** Modelled from the spec: the constructor [BasicBooleanMeasures()] of
    [slalom_structures] is not in the sources; the counts of a fresh record
    are zero (the code accumulates into them with [+=]). *)
Definition new_measures : BasicBooleanMeasures :=
  mkMeasures 0 (0, 0) 0 0 0 (0, 0) (0, 0) (0, 0).

Definition set_pp (r : BasicBooleanMeasures) (v : Z) :=
  mkMeasures v (pp_ r) (pa r) (ap r) (aa r) (site_m r) (site_nm r) (site_len r).
Definition set_pp_ (r : BasicBooleanMeasures) (v : Z * Z) :=
  mkMeasures (pp r) v (pa r) (ap r) (aa r) (site_m r) (site_nm r) (site_len r).
Definition set_pa (r : BasicBooleanMeasures) (v : Z) :=
  mkMeasures (pp r) (pp_ r) v (ap r) (aa r) (site_m r) (site_nm r) (site_len r).
Definition set_ap (r : BasicBooleanMeasures) (v : Z) :=
  mkMeasures (pp r) (pp_ r) (pa r) v (aa r) (site_m r) (site_nm r) (site_len r).
Definition set_aa (r : BasicBooleanMeasures) (v : Z) :=
  mkMeasures (pp r) (pp_ r) (pa r) (ap r) v (site_m r) (site_nm r) (site_len r).
Definition set_site_m (r : BasicBooleanMeasures) (v : Z * Z) :=
  mkMeasures (pp r) (pp_ r) (pa r) (ap r) (aa r) v (site_nm r) (site_len r).
Definition set_site_nm (r : BasicBooleanMeasures) (v : Z * Z) :=
  mkMeasures (pp r) (pp_ r) (pa r) (ap r) (aa r) (site_m r) v (site_len r).
Definition set_site_len (r : BasicBooleanMeasures) (v : Z * Z) :=
  mkMeasures (pp r) (pp_ r) (pa r) (ap r) (aa r) (site_m r) (site_nm r) v.

(** The instance: [self.opt], [self.current_seq], [self.seq] and
    [self.results] ([self.global_state] only names things in messages). *)
Record Calculator : Type := mkCalculator {
  opt : Options;
  current_seq : CurrentSequence;
  seq : list Z;
  results : BasicBooleanMeasures
}.

Definition with_results (self : Calculator) (r : BasicBooleanMeasures) :=
  mkCalculator (opt self) (current_seq self) (seq self) r.

(** The index range [range(site[0] - 1, site[1])] of a site. *)
Definition site_range (s : Site) : list Z :=
  py_range (site_begin s - 1) (site_end s).

(** [_classify_symbols]: 0 absent, 1 only in the first annotation, 2 only
    in the second, 3 in both. *)
Definition classify_symbols (cs : CurrentSequence) (seq0 : list Z)
  : res (list Z) :=
  seq1 <- for_each (fst (sites cs))
            (fun s a => for_each (site_range s) (fun idx a' => np_set a' idx 1) a)
            seq0 ;;
  for_each (snd (sites cs))
    (fun s a =>
       for_each (site_range s)
         (fun idx a' =>
            v <- np_get a' idx ;;
            if v =? 0 then np_set a' idx 2
            else if v =? 1 then np_set a' idx 3
            else Ok a')
         a)
    seq1.

(** [__init__] *)
Definition init (o : Options) (cs : CurrentSequence) : res Calculator :=
  zeros <- np_zeros (length cs) ;;
  classified <- classify_symbols cs zeros ;;
  Ok (mkCalculator o cs classified new_measures).

Definition in_union (self : Calculator) (idx : Z) : res bool :=
  v <- np_get (seq self) idx ;; Ok (v >=? 1).
Definition in_intersection (self : Calculator) (idx : Z) : res bool :=
  v <- np_get (seq self) idx ;; Ok (v =? 3).
Definition in_complement1 (self : Calculator) (idx : Z) : res bool :=
  v <- np_get (seq self) idx ;; Ok (v =? 2).
Definition in_complement2 (self : Calculator) (idx : Z) : res bool :=
  v <- np_get (seq self) idx ;; Ok (v =? 1).

(** [getattr(self, '_in_' + type_)]; the relative enrichment predicates are
    the stubs of the base class. *)
Definition in_type (self : Calculator) (t : FileType) (idx : Z) : res bool :=
  match t with
  | Union => in_union self idx
  | Intersection => in_intersection self idx
  | Complement1 => in_complement1 self idx
  | Complement2 => in_complement2 self idx
  | Re1 => Raise (NotImplementedError "_in_re1")
  | Re2 => Raise (NotImplementedError "_in_re2")
  | Detailed => Raise (AttributeError "_in_detailed")
  | SiteStats => Raise (AttributeError "_in_site")
  end.

(** [_get_overlapped_symbols(site, site_, annotation_idx)] *)
Definition get_overlapped_symbols (o : Options) (s s_ : Site) (i : anno) : Z :=
  let extent :=
    Z.max (Z.min (Z.min (Z.min (site_end s - site_begin s_)
                               (site_end s_ - site_begin s))
                        (site_end s - site_begin s))
                 (site_end s_ - site_begin s_) + 1) 0 in
  match predictor_nature o with
  | Neutral => extent
  | nature =>
      let lagging := match nature with Lagging => true | _ => false end in
      let first := match i with A1 => true | A2 => false end in
      if Bool.eqb lagging first then
        if site_begin s_ <? site_begin s then 0 else extent
      else if site_begin s_ >? site_begin s then 0 else extent
  end.

(** [_get_site_length(site, site_)]; no branch is taken for another value
    of [overlap_apply] and the method returns [None]. *)
Definition get_site_length (o : Options) (s s_ : Site) : option Z :=
  match overlap_apply o with
  | Shortest =>
      Some (Z.min (site_end s - site_begin s) (site_end s_ - site_begin s_) + 1)
  | Longest =>
      Some (Z.max (site_end s - site_begin s) (site_end s_ - site_begin s_) + 1)
  | Current | Patched => Some (site_end s - site_begin s + 1)
  | OtherApply _ => None
  end.

(** [_check_overlap_sufficiency(overlapped_symbols, site_length)]; the
    division is evaluated only when the first comparison holds. *)
Definition check_overlap_sufficiency (o : Options) (overlapped_symbols : Z)
  (site_length : option Z) : res bool :=
  if overlapped_symbols >=? overlap_symbols o then
    match site_length with
    | None => Raise TypeError
    | Some len =>
        share <- py_truediv overlapped_symbols len ;;
        Ok (Qle_bool (overlap_part o) share)
    end
  else Ok false.

(** [np.sum(self.seq[site[0] - 1: site[1]] == 3)] *)
Definition matched_under (self : Calculator) (s : Site) : Z :=
  np_count 3 (np_slice (seq self) (site_begin s - 1) (site_end s)).

(** One site of the gross branch of [calculate_residue_wise]. *)
Definition gross_step (self : Calculator) (i : anno) (s : Site)
  (r : BasicBooleanMeasures) : BasicBooleanMeasures :=
  let matched_symbols_n := matched_under self s in
  let site_length := site_end s - site_begin s + 1 in
  let unmatched_symbols_n := site_length - matched_symbols_n in
  let r1 := set_pp_ r (set2 i (get2 i (pp_ r) + matched_symbols_n) (pp_ r)) in
  match i with
  | A1 => set_pa r1 (pa r1 + unmatched_symbols_n)
  | A2 => set_ap r1 (ap r1 + unmatched_symbols_n)
  end.

(** [_write_measure_info_to_detailed_file(type_, description, handler)];
    the word 'gross' is added except for 'aa'. *)
Definition write_measure_info (self : Calculator) (type_ : string)
  (symbols_n : Z) (h : option (list DetailedLine)) : option (list DetailedLine) :=
  write h (DMeasure type_ symbols_n
             (gross (opt self) && negb (String.eqb type_ "aa"))).

(** [calculate_residue_wise(detailed_file_h)] *)
Definition calculate_residue_wise (self : Calculator)
  (detailed_file_h : option (list DetailedLine))
  : Calculator * option (list DetailedLine) :=
  let cs := current_seq self in
  let '(r, h) :=
    if gross (opt self) then
      let r0 := set_ap (set_pa (results self) 0) 0 in
      fold_left
        (fun (st : BasicBooleanMeasures * option (list DetailedLine)) i =>
           let r' := fold_left (fun r s => gross_step self i s r)
                       (get2 i (sites cs)) (fst st) in
           (r', write (snd st) (DGross i (other i) (get2 i (pp_ r')))))
        [A1; A2] (r0, detailed_file_h)
    else
      let r1 := set_pp (results self) (np_count 3 (seq self)) in
      let r2 := set_pp_ r1 (pp r1, pp r1) in
      let h1 := write_measure_info self "pp" (pp r2) detailed_file_h in
      let r3 := set_pa r2 (np_count 1 (seq self)) in
      (set_ap r3 (np_count 2 (seq self)), h1) in
  let r' := set_aa r (np_count 0 (seq self)) in
  let h' :=
    write_measure_info self "aa" (aa r')
      (write_measure_info self "ap" (ap r')
         (write_measure_info self "pa" (pa r') h)) in
  (with_results self r', h').

(** [site[2]]: the name of a site, an IndexError on a site without one. *)
Definition name_of (s : Site) : res string :=
  match site_name s with
  | Some name => Ok name
  | None => Raise IndexError
  end.

Definition name_if_names (o : Options) (s : Site) : res (option string) :=
  if site_names o then name <- name_of s ;; Ok (Some name) else Ok None.

(** The search for a partner of [site] among [sites[j]]:
<<
    for site_ in self.current_seq.sites[j]:
        if site_[0] > site[1]:
            break
        overlapped_symbols = self._get_overlapped_symbols(site, site_, i)
        site_length_effective = self._get_site_length(site, site_)
        if self._check_overlap_sufficiency(overlapped_symbols, site_length_effective):
            self.results.site_m[i] += 1
            found_match = True
            break
>>
    The result is the partner [site_] and [overlapped_symbols] when a match
    is found. *)
Fixpoint find_match (o : Options) (s : Site) (i : anno) (candidates : list Site)
  : res (option (Site * Z)) :=
  match candidates with
  | [] => Ok None
  | s_ :: rest =>
      if site_begin s_ >? site_end s then Ok None
      else
        let overlapped_symbols := get_overlapped_symbols o s s_ i in
        let site_length_effective := get_site_length o s s_ in
        sufficient <-
          check_overlap_sufficiency o overlapped_symbols site_length_effective ;;
        if (sufficient : bool) then Ok (Some (s_, overlapped_symbols))
        else find_match o s i rest
  end.

Definition is_some {A : Type} (x : option A) : bool :=
  match x with Some _ => true | None => false end.

Definition group_column (self : Calculator) : option string :=
  if group_map (opt self) then Some (GID (current_seq self)) else None.

(** The state of the loops of [calculate_site_wise]: the results and the
    two output files. *)
Definition SiteState : Type :=
  (BasicBooleanMeasures * option (list DetailedLine) * option (list StatRow))%type.

Definition count_site (found_match : bool) (i : anno) (r : BasicBooleanMeasures)
  : BasicBooleanMeasures :=
  if found_match
  then set_site_m r (set2 i (get2 i (site_m r) + 1) (site_m r))
  else set_site_nm r (set2 i (get2 i (site_nm r) + 1) (site_nm r)).

(** One site of annotation [i] under 'shortest', 'longest' or 'current';
    [last_end] is threaded with the state. *)
Definition pairwise_step (self : Calculator) (i : anno) (s : Site)
  (st : Z * SiteState) : res (Z * SiteState) :=
  let '(last_end, (r, dh, sh)) := st in
  let o := opt self in
  let j := other i in
  let site_effective_begin :=
    if gross o then site_begin s else Z.max (site_begin s) (last_end + 1) in
  let r1 := set_site_len r
              (set2 i (get2 i (site_len r) + (site_end s - site_effective_begin + 1))
                 (site_len r)) in
  let last_end' := site_end s in
  found <- find_match o s i (get2 j (sites (current_seq self))) ;;
  let r2 := count_site (is_some found) i r1 in
  if is_some dh || is_some sh then
    ' (overlapped_symbols, length_perc_1, length_perc_2) <-
      match found with
      | Some (s_, overlapped) =>
          p1 <- percent overlapped (site_end s - site_begin s + 1) ;;
          p2 <- percent overlapped (site_end s_ - site_begin s_ + 1) ;;
          Ok (overlapped, p1, p2)
      | None => Ok (0, 0, 0)
      end ;;
    dh' <-
      (if is_some dh then
         _ <- name_if_names o s ;;
         match found with
         | Some (s_, _) =>
             _ <- name_if_names o s_ ;;
             Ok (write dh (DSiteMatch i j s s_ overlapped_symbols
                             length_perc_1 length_perc_2))
         | None => Ok (write dh (DSiteNoMatch i s))
         end
       else Ok dh) ;;
    sh' <-
      (if is_some sh then
         let skip :=
           match site_difference o with
           | DiffUnmatched => is_some found
           | DiffDiscrepant => (length_perc_1 =? 100) && (length_perc_2 =? 100)
           | DiffAll => false
           end in
         if skip then Ok sh
         else
           name <- name_if_names o s ;;
           partner_name <-
             (if site_names o then
                match found with
                | Some (s_, _) => n <- name_of s_ ;; Ok (Some n)
                | None => Ok (Some EmptyString)
                end
              else Ok None) ;;
           Ok (write sh (mkStatRow (group_column self) (SID (current_seq self)) i s
                           name overlapped_symbols [length_perc_1; length_perc_2]
                           (option_map fst found) partner_name))
       else Ok sh) ;;
    Ok (last_end', (r2, dh', sh'))
  else Ok (last_end', (r2, dh, sh)).

(** A local variable that no statement on the path has assigned. *)
Definition local (var : string) {A : Type} (v : option A) : res A :=
  match v with
  | Some a => Ok a
  | None => Raise (NameError var)
  end.

(** One site of annotation [i] under 'patched'.  The branch assigns neither
    [j] nor [overlapped_symbols]. *)
Definition patched_step (self : Calculator) (i : anno) (s : Site)
  (st : SiteState) : res SiteState :=
  let '(r, dh, sh) := st in
  let o := opt self in
  let j : option anno := None in
  let overlapped_symbols : option Z := None in
  let matched_symbols := matched_under self s in
  let site_length := site_end s - site_begin s + 1 in
  found_match <- check_overlap_sufficiency o matched_symbols (Some site_length) ;;
  let r1 := count_site found_match i r in
  ' (length_perc, dh') <-
    (if is_some dh || is_some sh then
       length_perc <-
         (if (found_match : bool) then percent matched_symbols site_length
          else Ok 0) ;;
       dh' <-
         (if is_some dh then
            if (found_match : bool) then
              j' <- local "j" j ;;
              Ok (write dh (DPatchedMatch i j' s matched_symbols length_perc))
            else Ok (write dh (DSiteNoMatch i s))
          else Ok dh) ;;
       Ok (Some length_perc, dh')
     else Ok (None, dh)) ;;
  sh' <-
    (if is_some sh then
       if found_match && match site_difference o with
                         | DiffUnmatched => true
                         | _ => false
                         end
       then Ok sh
       else
         name <- name_if_names o s ;;
         overlapped <- local "overlapped_symbols" overlapped_symbols ;;
         perc <- local "length_perc" length_perc ;;
         Ok (write sh (mkStatRow (group_column self) (SID (current_seq self)) i s
                         name overlapped [perc] None None))
     else Ok sh) ;;
  Ok (r1, dh', sh').

(** The closing summary of [calculate_site_wise] for annotation [i]; [j] is
    whatever the branch taken before has left in it. *)
Definition summary_step (self : Calculator) (j : option anno) (i : anno)
  (st : SiteState) : res SiteState :=
  let '(r, dh, sh) := st in
  let sites_n := get2 i (site_m r) + get2 i (site_nm r) in
  if sites_n =? 0 then Ok (r, write dh (DNoSites i), sh)
  else
    let dh1 := write dh (DSitesTotal i sites_n (get2 i (site_len r))
                           (gross (opt self))) in
    if is_some dh1 then
      j' <- local "j" j ;;
      Ok (r,
          write (write dh1 (DSitesMatched i j' (get2 i (site_m r))))
            (DSitesUnmatched i j' (get2 i (site_nm r))),
          sh)
    else Ok (r, dh1, sh).

(** [calculate_site_wise(detailed_file_h, site_file_h)] *)
Definition calculate_site_wise (self : Calculator)
  (detailed_file_h : option (list DetailedLine))
  (site_file_h : option (list StatRow))
  : res (Calculator * option (list DetailedLine) * option (list StatRow)) :=
  let cs := current_seq self in
  let st0 : SiteState := (results self, detailed_file_h, site_file_h) in
  ' (st1, j) <-
    match overlap_apply (opt self) with
    | Shortest | Longest | Current =>
        st <- for_each [A1; A2]
                (fun i st =>
                   ' (_, st') <- for_each (get2 i (sites cs))
                                   (pairwise_step self i) (0, st) ;;
                   Ok st')
                st0 ;;
        Ok (st, Some (other A2))
    | Patched =>
        st <- for_each [A1; A2]
                (fun i st => for_each (get2 i (sites cs)) (patched_step self i) st)
                st0 ;;
        Ok (st, None)
    | OtherApply _ => Raise (SystemExit "Unknown overlap apply method")
    end ;;
  ' (r, dh, sh) <- for_each [A1; A2] (summary_step self j) st1 ;;
  Ok (with_results self r, dh, sh).

(** [BasicCalculator._process_sequence] in Boolean mode
    ([enrichment_count == 0]); the headline of the detailed file is left
    out. *)
Definition process_sequence (o : Options) (cs : CurrentSequence)
  (file_handlers : FileHandlers) : res (BasicBooleanMeasures * FileHandlers) :=
  calc <- init o cs ;;
  let '(calc1, dh1) := calculate_residue_wise calc (fh_detailed file_handlers) in
  ' (calc2, dh2, sh2) <- calculate_site_wise calc1 dh1 (fh_site file_handlers) ;;
  let fh := mkFileHandlers (fh_union file_handlers) (fh_intersection file_handlers)
              (fh_complement1 file_handlers) (fh_complement2 file_handlers)
              (fh_re1 file_handlers) (fh_re2 file_handlers) dh2 sh2 in
  fh' <- write_to_files cs (in_type calc2) fh ;;
  Ok (results calc2, fh').

(** *** Predicates of the properties *)

Definition category (v : Z) : Prop := v = 0 \/ v = 1 \/ v = 2 \/ v = 3.

(** An array of [len] category codes. *)
Definition classified (len : Z) (a : list Z) : Prop :=
  Z.of_nat (List.length a) = len /\ Forall category a.

(** The sites of annotation [i] counted so far, matched or not. *)
Definition counted (i : anno) (r : BasicBooleanMeasures) : Z :=
  get2 i (site_m r) + get2 i (site_nm r).

Definition state_results (st : SiteState) : BasicBooleanMeasures :=
  fst (fst st).

(** [overlap_apply] is one of the four policies of the program. *)
Definition known_apply (o : Options) : Prop :=
  match overlap_apply o with
  | OtherApply _ => False
  | _ => True
  end.

(** No output file is open. *)
Definition quiet (st : SiteState) : Prop :=
  snd (fst st) = None /\ snd st = None.

End Boolean.

(** ** BasicEnrichmentSequenceCalculator *)

Module Enrichment.

(** Modelled from the spec: the class [BasicEnrichmentMeasures] of
    [slalom_structures] is not in the sources.  It is the per-sequence record
    of enrichment counts of section 3; [e] and [re] are indexed by the
    annotation. *)
Record BasicEnrichmentMeasures : Type := mkMeasures {
  e : Z * Z;
  re : Z * Z;
  ee : Z;
  ne : Z;
  nre : Z
}.

(** Modelled from the spec: the constructor [BasicEnrichmentMeasures()] of
    [slalom_structures] is not in the sources; a fresh record holds zeros. *)
Definition new_measures : BasicEnrichmentMeasures :=
  mkMeasures (0, 0) (0, 0) 0 0 0.

(** What an attribute of the instance can hold. *)
Inductive value : Type :=
| VNone
| VGlobalState
| VOptions (o : Options)
| VSequence (cs : CurrentSequence)
| VInt (n : Z)
| VArrays (bytes : Z) (a1 a2 : list Z)   (* [None, array, array], dtype 'i<bytes>' *)
| VMeasures (r : BasicEnrichmentMeasures).

(** The instance is its attribute dictionary, in order of first assignment.
    The class itself defines methods only, so [self.name] on a data
    attribute is a lookup here. *)
Definition instance : Type := list (string * value).

Fixpoint getattr (self : instance) (name : string) : res value :=
  match self with
  | [] => Raise (AttributeError name)
  | (k, v) :: rest => if String.eqb k name then Ok v else getattr rest name
  end.

Fixpoint setattr (self : instance) (name : string) (v : value) : instance :=
  match self with
  | [] => [(name, v)]
  | (k, v0) :: rest =>
      if String.eqb k name then (k, v) :: rest
      else (k, v0) :: setattr rest name v
  end.

Definition get_options (self : instance) : res Options :=
  v <- getattr self "opt" ;;
  match v with VOptions o => Ok o | _ => Raise TypeError end.

Definition get_sequence (self : instance) : res CurrentSequence :=
  v <- getattr self "current_seq" ;;
  match v with VSequence cs => Ok cs | _ => Raise TypeError end.

Definition get_int (self : instance) (name : string) : res Z :=
  v <- getattr self name ;;
  match v with VInt n => Ok n | _ => Raise TypeError end.

Definition get_arrays (self : instance) : res (Z * (list Z * list Z)) :=
  v <- getattr self "seq" ;;
  match v with VArrays w a1 a2 => Ok (w, (a1, a2)) | _ => Raise TypeError end.

Definition get_results (self : instance) : res BasicEnrichmentMeasures :=
  v <- getattr self "results" ;;
  match v with VMeasures r => Ok r | _ => Raise (AttributeError "e") end.

(** Two's complement wrap-around of a numpy integer of [bytes] bytes. *)
Definition wrap (bytes : Z) (z : Z) : Z :=
  let m := 2 ^ (8 * bytes) in
  (z + m / 2) mod m - m / 2.

(** [BasicSequenceCalculator.__init__] *)
Definition base_init (o : Options) (cs : CurrentSequence) : instance :=
  setattr (setattr (setattr (setattr [] "global_state" VGlobalState)
                      "opt" (VOptions o))
             "current_seq" (VSequence cs))
    "results" VNone.

(** [_estimate_required_precison]; [math.ceil(math.log(count_limit, 2))] is
    taken exactly. *)
Definition estimate_required_precison (self : instance) : res Z :=
  cs <- get_sequence self ;;
  let count_limit :=
    Z.max (Z.of_nat (List.length (fst (sites cs))))
          (Z.of_nat (List.length (snd (sites cs)))) + 1 in
  let bytes_required := (Z.log2_up count_limit + 1 + 7) / 8 in
  if bytes_required >? 8 then Raise (SystemExit "Too  many sites annotated")
  else Ok (nth (Z.to_nat bytes_required) [1; 1; 2; 4; 4; 8; 8; 8; 8] 0).

(** [self.seq[i][idx] += 1] *)
Definition increment (bytes : Z) (a : list Z) (idx : Z) : res (list Z) :=
  v <- np_get a idx ;; np_set a idx (wrap bytes (v + 1)).

(** [_count_occurrences] *)
Definition count_occurrences (self : instance) : res instance :=
  cs <- get_sequence self ;;
  ' (bytes, arrays) <- get_arrays self ;;
  arrays' <-
    for_each [A1; A2]
      (fun i (arrs : list Z * list Z) =>
         a <- for_each (get2 i (sites cs))
                (fun s a =>
                   for_each (py_range (site_begin s - 1) (site_end s))
                     (fun idx a' => increment bytes a' idx) a)
                (get2 i arrs) ;;
         Ok (set2 i a arrs))
      arrays ;;
  Ok (setattr self "seq" (VArrays bytes (fst arrays') (snd arrays'))).

(** [__init__] *)
Definition init (o : Options) (cs : CurrentSequence) : res instance :=
  let self0 := base_init o cs in
  o' <- get_options self0 ;;
  let self1 := setattr self0 "n" (VInt (enrichment_count o')) in
  bytes_required <- estimate_required_precison self1 ;;
  cs' <- get_sequence self1 ;;
  zeros <- np_zeros (length cs') ;;
  let self2 := setattr self1 "seq" (VArrays bytes_required zeros zeros) in
  let self3 := setattr self2 "results" (VMeasures new_measures) in
  count_occurrences self3.

(** [np.sum(a >= n)] and [np.sum(a < n)] as counts over one array. *)
Definition count_if {A : Type} (f : A -> bool) (a : list A) : Z :=
  Z.of_nat (List.length (filter f a)).

(** Elementwise operation on two arrays of the same shape. *)
Definition map2 {A B C : Type} (f : A -> B -> C) (a : list A) (b : list B)
  : list C :=
  map (fun p => f (fst p) (snd p)) (combine a b).

(** [_write_measure_info_to_detailed_file(symbols_n, description,
    file_handler)]: the handler is used as it comes. *)
Definition write_measure_info (symbols_n : Z) (description : EnrichedIn)
  (file_handler : option (list DetailedLine)) : res (option (list DetailedLine)) :=
  write_unchecked file_handler (DEnriched symbols_n description).

Definition set_e (r : BasicEnrichmentMeasures) (v : Z * Z) :=
  mkMeasures v (re r) (ee r) (ne r) (nre r).
Definition set_re (r : BasicEnrichmentMeasures) (v : Z * Z) :=
  mkMeasures (e r) v (ee r) (ne r) (nre r).
Definition set_ee (r : BasicEnrichmentMeasures) (v : Z) :=
  mkMeasures (e r) (re r) v (ne r) (nre r).
Definition set_ne (r : BasicEnrichmentMeasures) (v : Z) :=
  mkMeasures (e r) (re r) (ee r) v (nre r).
Definition set_nre (r : BasicEnrichmentMeasures) (v : Z) :=
  mkMeasures (e r) (re r) (ee r) (ne r) v.

(** One round of [for i in (1, 2)] of [calculate_residue_wise]. *)
Definition residue_step (i : anno)
  (st : instance * option (list DetailedLine))
  : res (instance * option (list DetailedLine)) :=
  let '(self, file_handler) := st in
  let j := match i with A1 => A2 | A2 => A1 end in
  ' (bytes, arrays) <- get_arrays self ;;
  n <- get_int self "n" ;;
  r <- get_results self ;;
  let r1 := set_e r (set2 i (count_if (fun x => x >=? n) (get2 i arrays)) (e r)) in
  let self1 := setattr self "results" (VMeasures r1) in
  h <- write_measure_info (get2 i (e r1)) (InAnnotation i) file_handler ;;
  ' (bytes', arrays') <- get_arrays self1 ;;
  n' <- get_int self1 "n" ;;
  r2 <- get_results self1 ;;
  let difference :=
    map2 (fun x y => wrap bytes' (x - y)) (get2 i arrays') (get2 j arrays') in
  let r3 := set_re r2 (set2 i (count_if (fun x => x >=? n') difference) (re r2)) in
  Ok (setattr self1 "results" (VMeasures r3), h).

(** [calculate_residue_wise(file_handler)] *)
Definition calculate_residue_wise (self : instance)
  (file_handler : option (list DetailedLine))
  : res (instance * option (list DetailedLine)) :=
  ' (self1, h1) <- for_each [A1; A2] residue_step (self, file_handler) ;;
  ' (_, arrays) <- get_arrays self1 ;;
  n <- get_int self1 "n" ;;
  r <- get_results self1 ;;
  let r1 :=
    set_ee r (count_if (fun b : bool => b)
                (map2 (fun x y => (x >=? n) && (y >=? n)) (fst arrays) (snd arrays))) in
  h2 <- write_measure_info (ee r1) InBoth h1 ;;
  let r2 :=
    set_ne r1 (count_if (fun b : bool => b)
                 (map2 (fun x y => (x <? n) && (y <? n)) (fst arrays) (snd arrays))) in
  h3 <- write_measure_info (ne r2) InNeither h2 ;;
  let self2 := setattr self1 "results" (VMeasures r2) in
  seq_length <- get_int self2 "seq_length" ;;
  let r3 := set_nre r2 (seq_length - get2 A1 (re r2) - get2 A2 (re r2)) in
  Ok (setattr self2 "results" (VMeasures r3), h3).

End Enrichment.

(** ** Floats of the performance table *)

(** A float is a real number or the not-a-number value. *)
Inductive pyfloat : Type :=
| NaN
| Fl (x : R).

(** [math.isnan] *)
Definition isnan (v : pyfloat) : bool :=
  match v with NaN => true | Fl _ => false end.

(** [math.sqrt]: a negative argument is a ValueError. *)
Definition py_sqrt (x : R) : res R :=
  if Rlt_dec x 0 then Raise ValueError else Ok (sqrt x).

(** [a / b] on floats: a zero divisor is a ZeroDivisionError. *)
Definition py_fdiv (a b : R) : res R :=
  if Req_dec_T b 0 then Raise ZeroDivisionError else Ok (a / b)%R.

(** ** PerformanceCalculator *)

Module Performance.

(** Modelled from the spec: the group-level [BasicBooleanMeasures] that
    [process_group] of [BasicCalculator] hands over (the per-sequence counts,
    averaged; the class is not in the sources); of its fields, those that
    the symbol-wise measures read. *)
Record BasicMeasures : Type := mkBasicMeasures {
  pp : R;
  pp_ : R * R;
  pa : R;
  ap : R;
  aa : R
}.

Definition nonnegative (b : BasicMeasures) : Prop :=
  (0 <= pp b /\ 0 <= pa b /\ 0 <= ap b /\ 0 <= aa b)%R.

(** [temp] of [_calc_mcc] *)
Definition mcc_temp (b : BasicMeasures) : R :=
  ((pp b + pa b) * (pp b + ap b) * (aa b + ap b) * (aa b + pa b))%R.

(** [_calc_mcc]: the value handed to [set_value('mcc', mcc)].
<<
    numerator = pp * aa + ap * pa
    temp = (pp + pa) * (pp + ap) * (aa + ap) * (aa + pa)
    mcc = numerator / math.sqrt(temp) if temp > 0.0 else float('nan')
>> *)
Definition calc_mcc (b : BasicMeasures) : res pyfloat :=
  let numerator := (pp b * aa b + ap b * pa b)%R in
  let temp := mcc_temp b in
  if Rlt_dec 0 temp then
    root <- py_sqrt temp ;;
    mcc <- py_fdiv numerator root ;;
    Ok (Fl mcc)
  else Ok NaN.

(** The Matthews correlation coefficient as the specification gives it. *)
Definition mcc_spec (b : BasicMeasures) : R :=
  ((pp b * aa b - ap b * pa b) / sqrt (mcc_temp b))%R.

End Performance.

(** ** DataProcessor: the database-wide average *)

Module Database.

(** Modelled from the spec: [PerformanceMeasures] of [slalom_structures] is
    not in the sources.  It is an ordered mapping from the named measures to
    their values; each measure carries the count of the groups in which it
    was defined. *)
Record Measure : Type := mkMeasure {
  var_name : string;
  value : pyfloat;
  count : Z
}.

Definition PerformanceMeasures : Type := list Measure.

Fixpoint lookup (results : PerformanceMeasures) (attr_name : string)
  : res Measure :=
  match results with
  | [] => Raise (KeyError attr_name)
  | m :: rest =>
      if String.eqb (var_name m) attr_name then Ok m else lookup rest attr_name
  end.

Definition get_value (results : PerformanceMeasures) (attr_name : string)
  : res pyfloat :=
  m <- lookup results attr_name ;; Ok (value m).

Definition get_count (results : PerformanceMeasures) (attr_name : string)
  : res Z :=
  m <- lookup results attr_name ;; Ok (count m).

(** Modelled from the spec: a fresh database record; nothing is summed and no
    group is counted yet. *)
Definition new_measure (name : string) : Measure :=
  mkMeasure name (Fl 0) 0.

(** Modelled from the spec: [database_results += group_results] for one
    measure, "simple sum per named measure, plus a per-measure count of
    groups where it was defined"; an undefined group value stays out of
    both. *)
Definition accumulate (total : Measure) (group_value : pyfloat) : Measure :=
  match group_value, value total with
  | Fl x, Fl t => mkMeasure (var_name total) (Fl (t + x)) (count total + 1)
  | _, _ => total
  end.

Definition iadd (database_results group_results : PerformanceMeasures)
  : PerformanceMeasures :=
  map (fun total =>
         match get_value group_results (var_name total) with
         | Ok v => accumulate total v
         | Raise _ => total
         end)
    database_results.

(** The value of one measure in [_produce_final_string]:
<<
    if not na_zeros:
        if not math.isnan(value):
            value = value / results.get_count(attr_name) if groups_n else value
    else:
        if math.isnan(value):
            value = 0.0
        else:
            value = value / groups_n if groups_n else value
>> *)
Definition final_value (results : PerformanceMeasures) (attr_name : string)
  (na_zeros : bool) (groups_n : Z) : res pyfloat :=
  value <- get_value results attr_name ;;
  if negb na_zeros then
    match value with
    | NaN => Ok value
    | Fl x =>
        if negb (groups_n =? 0) then
          c <- get_count results attr_name ;;
          q <- py_fdiv x (IZR c) ;; Ok (Fl q)
        else Ok value
    end
  else
    match value with
    | NaN => Ok (Fl 0)
    | Fl x =>
        if negb (groups_n =? 0) then
          q <- py_fdiv x (IZR groups_n) ;; Ok (Fl q)
        else Ok value
    end.

(** [_produce_final_string(results, attr_names, na_zeros, groups_n)]: the
    values of the row 'Average', before they are formatted. *)
Fixpoint produce_final_string (results : PerformanceMeasures)
  (attr_names : list string) (na_zeros : bool) (groups_n : Z)
  : res (list pyfloat) :=
  match attr_names with
  | [] => Ok []
  | attr_name :: rest =>
      v <- final_value results attr_name na_zeros groups_n ;;
      vs <- produce_final_string results rest na_zeros groups_n ;;
      Ok (v :: vs)
  end.

(** Modelled from the spec: [PerformanceMeasures(...)] for the database, one
    fresh measure for each name of the table. *)
Definition new_results (names : list string) : PerformanceMeasures :=
  map new_measure names.

(** The database totals in the grouped branch of [process]:
<<
    for GID in self.input_data.group_map.keys():
        group_results = self.performance_calculator.process_group(GID)
        ...
        self.database_results += group_results
>>
    [groups] are the results of the groups, in order. *)
Definition database_results (attr_names : list string)
  (groups : list PerformanceMeasures) : PerformanceMeasures :=
  fold_left iadd groups (new_results attr_names).

(** The values of the row 'Average' in the grouped branch of [process];
    [groups_n = len(self.input_data.group_map)]. *)
Definition process_grouped (attr_names : list string) (na_zeros : bool)
  (groups : list PerformanceMeasures) : res (list pyfloat) :=
  produce_final_string (database_results attr_names groups) attr_names na_zeros
    (Z.of_nat (List.length groups)).

(** *** The aggregation as the specification words it *)

(** The value of a measure in each group. *)
Definition group_values (name : string) (groups : list PerformanceMeasures)
  : list pyfloat :=
  map (fun g => match get_value g name with Ok v => v | Raise _ => NaN end)
    groups.

(** The values of the groups where the measure is defined. *)
Definition defined_values (values : list pyfloat) : list R :=
  flat_map (fun v => match v with Fl x => [x] | NaN => [] end) values.

Definition sum (xs : list R) : R := fold_right Rplus 0%R xs.

End Database.

(** ** CSVParser: sorting and storing the sites *)

Module Parser.

(** [opt.end_overflow_policy] *)
Inductive EndOverflowPolicy : Type :=
| OverflowError | OverflowTrim | OverflowIgnore
| OverflowOther (value : string).

(** What the bounds check of [_save_annotation_record] does with a record:
    the site is appended to the list of its sequence, the method returns
    without storing it, or a RuntimeError with a message is raised. *)
Inductive Outcome : Type :=
| Stored (s : Site)
| Returned
| Rejected (message : string).

(** The bounds check of [_save_annotation_record], after the positions are
    read as integers:
<<
    begin_ += getattr(self.opt, opt_prefix + '_begin_shift')
    end_ += getattr(self.opt, opt_prefix + '_end_shift')
    if begin_ < 1:
        if self.opt.end_overflow_policy == 'error':
            raise RuntimeError('Site begin position must be positive')
        elif self.opt.end_overflow_policy == 'trim':
            if end_ < 1:
                return
            begin_ = 1
        elif self.opt.end_overflow_policy == 'ignore':
            return
    if begin_ > end_:
        raise RuntimeError('Site begin position cannot exceed the end position')
    if end_ > self.input_data.seq_len[SID_]:
        if self.opt.end_overflow_policy == 'error':
            raise RuntimeError('Site end position cannot exceed the sequence length')
        elif self.opt.end_overflow_policy == 'trim':
            end_ = self.input_data.seq_len[SID_]
            if begin_ > end_:
                return
        elif self.opt.end_overflow_policy == 'ignore':
            return
    self.input_data.sites[no][GID_][SID_].append([begin_, end_])
    if self.opt.site_names:
        self.input_data.sites[no][GID_][SID_][-1].append(site_name)
>> *)
Definition check_bounds (policy : EndOverflowPolicy)
  (begin_shift end_shift seq_len : Z) (name : option string) (begin end_ : Z)
  : Outcome :=
  let begin1 := begin + begin_shift in
  let end1 := end_ + end_shift in
  let low : Outcome + Z :=
    if begin1 <? 1 then
      match policy with
      | OverflowError => inl (Rejected "Site begin position must be positive")
      | OverflowTrim => if end1 <? 1 then inl Returned else inr 1
      | OverflowIgnore => inl Returned
      | OverflowOther _ => inr begin1
      end
    else inr begin1 in
  match low with
  | inl outcome => outcome
  | inr begin2 =>
      if begin2 >? end1 then
        Rejected "Site begin position cannot exceed the end position"
      else if end1 >? seq_len then
        match policy with
        | OverflowError =>
            Rejected "Site end position cannot exceed the sequence length"
        | OverflowTrim =>
            if begin2 >? seq_len then Returned
            else Stored (mkSite begin2 seq_len name)
        | OverflowIgnore => Returned
        | OverflowOther _ => Stored (mkSite begin2 end1 name)
        end
      else Stored (mkSite begin2 end1 name)
  end.

(** [sites.sort(key = lambda x: x[0])]: a stable sort by begin position,
    written as the insertion sort that gives the same list. *)
Fixpoint insert_by_begin (s : Site) (sorted : list Site) : list Site :=
  match sorted with
  | [] => [s]
  | x :: rest =>
      if site_begin s <=? site_begin x then s :: sorted
      else x :: insert_by_begin s rest
  end.

Definition sort_by_begin (sites : list Site) : list Site :=
  fold_right insert_by_begin [] sites.

(** The end of [parse_annotations] on one site list:
    [_sort_annotations()] and then
    [_resolve_overlaps_within_annotations()]. *)
Definition sort_and_resolve (p : Overlap.policy) (sites : list Site)
  : list Site :=
  Overlap.resolve_overlaps p (sort_by_begin sites).

End Parser.

(** ** Notions for the resolved site lists *)

Module Runs.

(** [l1] is [l2] with some elements left out, in the same order. *)
Inductive subsequence {A : Type} : list A -> list A -> Prop :=
| sub_nil : subsequence [] []
| sub_skip (x : A) (l1 l2 : list A) :
    subsequence l1 l2 -> subsequence l1 (x :: l2)
| sub_keep (x : A) (l1 l2 : list A) :
    subsequence l1 l2 -> subsequence (x :: l1) (x :: l2).

(** The sites that begin after [prev_end] and, further on, after the end of
    the site listed before them. *)
Fixpoint after_predecessor (prev_end : Z) (sites : list Site) : list Site :=
  match sites with
  | [] => []
  | s :: rest =>
      if site_begin s >? prev_end
      then s :: after_predecessor (site_end s) rest
      else after_predecessor (site_end s) rest
  end.

(** The sites that end before the site listed after them begins; the last
    site has nothing after it. *)
Fixpoint before_successor (sites : list Site) : list Site :=
  match sites with
  | [] => []
  | s :: rest =>
      match rest with
      | [] => [s]
      | s' :: _ =>
          if site_end s <? site_begin s'
          then s :: before_successor rest
          else before_successor rest
      end
  end.

(** A site as 'merge' writes it: the two positions, no name. *)
Definition unnamed (s : Site) : Site := site (site_begin s) (site_end s).

Definition positive_begins (sites : list Site) : Prop :=
  Forall (fun s => 1 <= site_begin s) sites.

End Runs.

(** ** Notions for the classified positions *)

Module Positions.

(** The category code of a position, by its membership in the sites of the
    first and of the second annotation. *)
Definition code (in_first in_second : bool) : Z :=
  (if in_first then 1 else 0) + (if in_second then 2 else 0).

(** The positions of a sequence of length [len]: 1, ..., [len]. *)
Definition positions (len : Z) : list Z := py_range 1 (len + 1).

(** The number of positions of the sequence for which [test] holds. *)
Definition count_positions (len : Z) (test : Z -> bool) : Z :=
  Z.of_nat (List.length (filter test (positions len))).

(** The sum of the lengths [end - begin + 1] of the sites. *)
Definition total_length (sites : list Site) : Z :=
  fold_right (fun s n => site_end s - site_begin s + 1 + n) 0 sites.

(** The positions that a row of a derived annotation file covers. *)
Definition row_covers (r : SiteRow) (p : Z) : bool :=
  (row_begin r <=? p) && (p <=? row_end r).

Definition rows_cover (rows : list SiteRow) (p : Z) : bool :=
  existsb (fun r => row_covers r p) rows.

(** Consecutive rows leave at least one position between them. *)
Fixpoint separated (rows : list SiteRow) : bool :=
  match rows with
  | [] => true
  | r :: rest =>
      match rest with
      | [] => true
      | r' :: _ => (row_end r + 1 <? row_begin r') && separated rest
      end
  end.

(** What the scan has written when it stands before index [k]: [bound] is
    the begin of the open run, or [k] when no run is open. *)
Definition scanned (cs : CurrentSequence) (f : Z -> bool)
  (rows0 : list SiteRow) (k : Z) (st : bool * option Z * list SiteRow) : Prop :=
  let '(in_site, begin_idx, rows) := st in
  exists runs bound,
    rows = rows0 ++ runs /\
    separated runs = true /\
    Forall (fun r => 1 <= row_begin r <= row_end r /\ row_end r < bound /\
                     row_SID r = SID cs) runs /\
    (forall p, rows_cover runs p = (1 <=? p) && (p <=? bound) && f (p - 1)) /\
    0 <= bound <= k /\
    if in_site
    then begin_idx = Some bound /\ bound < k /\
         forall i, bound <= i < k -> f i = true
    else bound = k.

(** The number of positions of the site [s] that sites of both annotations
    of the sequence cover. *)
Definition shared (cs : CurrentSequence) (s : Site) : Z :=
  Z.of_nat
    (List.length
       (filter (fun p => covered (fst (sites cs)) p && covered (snd (sites cs)) p)
          (py_range (site_begin s) (site_end s + 1)))).

Definition sum_over (weight : Site -> Z) (sites : list Site) : Z :=
  fold_right (fun s n => weight s + n) 0 sites.

(** The number of sites of the list that cover the position [p]. *)
Definition covering (sites : list Site) (p : Z) : Z :=
  Z.of_nat (List.length (filter (fun s => covers s p) sites)).

(** What the predicate of a derived file of Boolean mode says of a
    position, by its membership in the two annotations. *)
Definition boolean_test (t : FileType) (in_first in_second : bool) : bool :=
  match t with
  | Union => in_first || in_second
  | Intersection => in_first && in_second
  | Complement1 => negb in_first && in_second
  | Complement2 => in_first && negb in_second
  | _ => false
  end.

Definition boolean_file (t : FileType) : Prop :=
  t = Union \/ t = Intersection \/ t = Complement1 \/ t = Complement2.

End Positions.

(** ** PerformanceCalculator: the symbol-wise ratios *)

Module Ratios.

Import Performance.

(** The expression that the ratio measures share:
    [numerator / denominator if denominator > 0.0 else float('nan')]. *)
Definition ratio (numerator denominator : R) : res pyfloat :=
  if Rlt_dec 0 denominator then
    q <- py_fdiv numerator denominator ;; Ok (Fl q)
  else Ok NaN.

(** [_calc_rc2]: [pp_[1] / (pp_[1] + pa)] *)
Definition calc_rc2 (b : BasicMeasures) : res pyfloat :=
  let denominator := (fst (pp_ b) + pa b)%R in
  ratio (fst (pp_ b)) denominator.

(** [_calc_pr2]: [pp_[2] / (pp_[2] + ap)] *)
Definition calc_pr2 (b : BasicMeasures) : res pyfloat :=
  let denominator := (snd (pp_ b) + ap b)%R in
  ratio (snd (pp_ b)) denominator.

(** [_calc_sp2]: [aa / (aa + ap)] *)
Definition calc_sp2 (b : BasicMeasures) : res pyfloat :=
  let denominator := (aa b + ap b)%R in
  ratio (aa b) denominator.

(** [_calc_npv2]: [aa / (aa + pa)] *)
Definition calc_npv2 (b : BasicMeasures) : res pyfloat :=
  let denominator := (aa b + pa b)%R in
  ratio (aa b) denominator.

(** [_calc_pc]: [pp_[2] / (pp_[2] + ap + pa)] *)
Definition calc_pc (b : BasicMeasures) : res pyfloat :=
  let denominator := (snd (pp_ b) + ap b + pa b)%R in
  ratio (snd (pp_ b)) denominator.


(** The counts that the ratios read are not negative. *)
Definition nonnegative_counts (b : BasicMeasures) : Prop :=
  (0 <= fst (pp_ b) /\ 0 <= snd (pp_ b) /\ 0 <= pa b /\ 0 <= ap b /\ 0 <= aa b)%R.

(** A float that is undefined or lies between 0 and 1. *)
Definition unit_or_nan (v : pyfloat) : Prop :=
  match v with
  | NaN => True
  | Fl x => (0 <= x <= 1)%R
  end.

End Ratios.

(** ** Inputs of the worked examples *)

Module Examples.

(** Three sites chained by overlap, none nested in another. *)
Definition chain : list Site := [site 1 5; site 4 8; site 7 10].

(** A site with a shorter one nested inside, and a third site that begins
    after the nested one ends. *)
Definition nested : list Site := [site 1 10; site 2 3; site 5 6].

(** Example 2 of the specification: 'shortest', one symbol, half the site. *)
Definition options : Options :=
  mkOptions false Shortest 1 (1 # 2) Neutral false DiffAll false 0.

Definition gross_options : Options :=
  mkOptions true Shortest 1 (1 # 2) Neutral false DiffAll false 0.

Definition patched_options : Options :=
  mkOptions false Patched 1 (1 # 2) Neutral false DiffAll false 0.

Definition enrichment_options : Options :=
  mkOptions false Shortest 1 (1 # 2) Neutral false DiffAll false 2.

(** Example 1 of the specification: length 10, [1,5] against [3,8]. *)
Definition sequence : CurrentSequence :=
  mkCurrentSequence "" "S1" 10 ([site 1 5], [site 3 8]).

Definition no_files : FileHandlers :=
  mkFileHandlers None None None None None None None None.

(** The four derived-interval files of Boolean mode, opened and empty. *)
Definition interval_files : FileHandlers :=
  mkFileHandlers (Some []) (Some []) (Some []) (Some []) None None None None.

Definition row (b e : Z) : SiteRow := mkSiteRow None "S1" b e.

(** Examples 3 and 4 of the specification: the measure X is undefined in
    group A and 0.8 in group B. *)
Definition group_A : Database.PerformanceMeasures :=
  [Database.mkMeasure "X" NaN 0].

Definition group_B : Database.PerformanceMeasures :=
  [Database.mkMeasure "X" (Fl (8 / 10)) 0].

(** The group-level record of one sequence of length 4 with the sites
    [1,2] and [2,3]: every category holds one symbol of four. *)
Definition quarters : Performance.BasicMeasures :=
  let q := (1 / 4)%R in
  Performance.mkBasicMeasures q (q, q) q q q.

End Examples.

(** * Properties *)

(** ** Overlap resolution *)

Module OverlapFacts.

Import Overlap.

Lemma first_loop_acc (sites : list Site) :
  forall last_end sites_new,
    first_loop sites last_end sites_new =
    sites_new ++
      map snd
        (filter (fun p : Z * Site => site_begin (snd p) >? fst p)
           (combine (last_end :: map site_end sites) sites)).
Proof.
  induction sites as [| s rest IH]; intros last_end sites_new.
  - simpl. now rewrite app_nil_r.
  - cbn [first_loop map combine filter fst snd].
    rewrite IH.
    destruct (site_begin s >? last_end).
    + cbn [map snd]. now rewrite <- app_assoc.
    + reflexivity.
Qed.

(** C3, as the code has it.  On a site list sorted by begin in which no
    site ends before its predecessor ends, the 'first' policy keeps exactly
    the sites whose begin exceeds the end of the site listed immediately
    before them, kept or not (the first site is compared with 0): of every
    run of sites chained by [begin <= previous end] only the head stays. *)
Theorem first_keeps_run_heads (sites : list Site) :
  sorted_by_begin sites = true ->
  ends_nondecreasing sites = true ->
  resolve_first sites = starts_after_predecessor sites.
Proof.
  intros _ _. unfold resolve_first, starts_after_predecessor.
  now rewrite first_loop_acc.
Qed.

Lemma first_keeps_run_heads_witness :
  sorted_by_begin Examples.chain = true /\
  ends_nondecreasing Examples.chain = true /\
  resolve_first Examples.chain = [site 1 5].
Proof.
  split; [reflexivity | split; [reflexivity |]].
  rewrite (first_keeps_run_heads Examples.chain); reflexivity.
Defined.

(** C3, as the specification words it, fails on a chain: [7,10] begins after
    the end of the previously kept site [1,5], yet the code drops it, since
    it compares with the end of [4,8]. *)
Lemma first_not_after_kept :
  sorted_by_begin Examples.chain = true /\
  first_spec Examples.chain = [site 1 5; site 7 10] /\
  resolve_first Examples.chain = [site 1 5] /\
  resolve_first Examples.chain <> first_spec Examples.chain.
Proof.
  repeat split; try reflexivity.
  vm_compute. discriminate.
Qed.

Lemma covered_app (a b : list Site) (p : Z) :
  covered (a ++ b) p = covered a p || covered b p.
Proof. unfold covered. apply existsb_app. Qed.

Lemma covered_single (b e p : Z) :
  covered [site b e] p = (b <=? p) && (p <=? e).
Proof. unfold covered, covers. cbn. apply orb_false_r. Qed.

Lemma sorted_head (s s' : Site) (rest : list Site) :
  sorted_by_begin (s :: s' :: rest) = true ->
  site_begin s <= site_begin s' /\ sorted_by_begin (s' :: rest) = true.
Proof.
  cbn [sorted_by_begin]. rewrite andb_true_iff, Z.leb_le. tauto.
Qed.

Lemma ends_head (s s' : Site) (rest : list Site) :
  ends_nondecreasing (s :: s' :: rest) = true ->
  site_end s <= site_end s' /\ ends_nondecreasing (s' :: rest) = true.
Proof.
  cbn [ends_nondecreasing]. rewrite andb_true_iff, Z.leb_le. tauto.
Qed.

(** The loop of 'merge' with a run open at [new_begin], after the site
    [prev]: what the output will cover. *)
Lemma merge_loop_covers (p : Z) (rest : list Site) :
  forall prev new_begin sites_new,
    0 < new_begin -> new_begin <= site_begin prev ->
    sorted_by_begin (prev :: rest) = true ->
    ends_nondecreasing (prev :: rest) = true ->
    covered (close_run (merge_loop rest (site_end prev) new_begin sites_new)) p
    = covered sites_new p
      || ((new_begin <=? p) && (p <=? site_end prev))
      || covered rest p.
Proof.
  induction rest as [| s rest IH]; intros prev nb acc Hnb Hprev Hsort Hends.
  - cbn [merge_loop close_run]. destruct (nb >? 0) eqn:Hgt; [| lia].
    rewrite covered_app, covered_single. cbn [covered existsb].
    now rewrite orb_false_r.
  - apply sorted_head in Hsort as [Hb Hsort].
    apply ends_head in Hends as [He Hends].
    cbn [merge_loop]. destruct (site_begin s >? site_end prev) eqn:Hnew.
    + destruct (nb >? 0) eqn:Hgt; [| lia].
      rewrite IH by (assumption || lia).
      rewrite covered_app, covered_single.
      cbn [covered existsb]. unfold covers.
      now rewrite !orb_assoc.
    + rewrite IH by (assumption || lia).
      cbn [covered existsb]. unfold covers.
      rewrite <- !orb_assoc. f_equal. rewrite orb_assoc. f_equal.
      destruct (nb <=? p) eqn:H1, (p <=? site_end prev) eqn:H2,
               (site_begin s <=? p) eqn:H3, (p <=? site_end s) eqn:H4;
        cbn; try reflexivity; lia.
Qed.

(** Without nested sites 'merge' keeps the coverage: on a list of sites with
    positive begins, sorted by begin and with non-decreasing ends, the
    output covers exactly the positions that the input covers. *)
Lemma merge_covers_without_nesting (sites : list Site) (p : Z) :
  Forall (fun s => 1 <= site_begin s) sites ->
  sorted_by_begin sites = true ->
  ends_nondecreasing sites = true ->
  covered (resolve_merge sites) p = covered sites p.
Proof.
  intros Hpos Hsort Hends. unfold resolve_merge.
  destruct sites as [| s rest]; [reflexivity |].
  inversion Hpos as [| ? ? Hs _]; subst.
  cbn [merge_loop]. destruct (site_begin s >? 0) eqn:Hgt; [| lia].
  cbn [Z.gtb Z.compare].
  rewrite merge_loop_covers by (assumption || lia).
  reflexivity.
Qed.

(** C2 at a nested site.  The run [1,10], [2,3] is closed with the end of
    its last site, 3, not with its largest end, 10: the output [1,3], [5,6]
    is sorted and free of overlaps, but position 7, covered by the input,
    is covered no more. *)
Theorem merge_loses_nested_coverage :
  sorted_by_begin Examples.nested = true /\
  resolve_merge Examples.nested = [site 1 3; site 5 6] /\
  non_overlapping (resolve_merge Examples.nested) = true /\
  covered Examples.nested 7 = true /\
  covered (resolve_merge Examples.nested) 7 = false.
Proof.
  repeat split; reflexivity.
Qed.

End OverlapFacts.

(** ** The Matthews correlation coefficient *)

Module PerformanceFacts.

Import Performance.

Local Open Scope R_scope.

Lemma mcc_temp_nonneg (b : BasicMeasures) :
  nonnegative b -> 0 <= mcc_temp b.
Proof.
  intros (Hpp & Hpa & Hap & Haa). unfold mcc_temp.
  repeat apply Rmult_le_pos; lra.
Qed.

Lemma calc_mcc_defined (b : BasicMeasures) :
  0 < mcc_temp b ->
  calc_mcc b = Ok (Fl ((pp b * aa b + ap b * pa b) / sqrt (mcc_temp b))).
Proof.
  intros Hpos. unfold calc_mcc, py_sqrt, py_fdiv.
  destruct (Rlt_dec 0 (mcc_temp b)) as [_ | Hn]; [| contradiction].
  destruct (Rlt_dec (mcc_temp b) 0) as [Hneg | _]; [lra |].
  cbn [bind].
  destruct (Req_dec_T (sqrt (mcc_temp b)) 0) as [Hz | _].
  - pose proof (sqrt_lt_R0 _ Hpos). lra.
  - reflexivity.
Qed.

Lemma calc_mcc_undefined (b : BasicMeasures) :
  ~ 0 < mcc_temp b -> calc_mcc b = Ok NaN.
Proof.
  intros Hn. unfold calc_mcc.
  destruct (Rlt_dec 0 (mcc_temp b)); [contradiction | reflexivity].
Qed.

(** C8.  On nonnegative counts [_calc_mcc] returns a value, never raises,
    and the value is the not-a-number marker exactly when
    [(pp+pa)(pp+ap)(aa+ap)(aa+pa) = 0]. *)
Theorem calc_mcc_nan_iff_zero_product (b : BasicMeasures) :
  nonnegative b ->
  exists mcc, calc_mcc b = Ok mcc /\ (mcc = NaN <-> mcc_temp b = 0).
Proof.
  intros Hb. pose proof (mcc_temp_nonneg b Hb) as Hge.
  destruct (Rlt_dec 0 (mcc_temp b)) as [Hpos | Hn].
  - eexists. split; [apply calc_mcc_defined; assumption |].
    split; [discriminate | intros Hz; lra].
  - exists NaN. split; [apply calc_mcc_undefined; assumption |].
    split; [intros _; lra | reflexivity].
Qed.

Lemma quarters_temp : mcc_temp Examples.quarters = (1 / 4) * (1 / 4).
Proof. unfold mcc_temp; cbn. field. Qed.

Lemma calc_mcc_nan_iff_zero_product_witness :
  nonnegative Examples.quarters /\
  exists mcc, calc_mcc Examples.quarters = Ok mcc /\
              (mcc = NaN <-> mcc_temp Examples.quarters = 0).
Proof.
  assert (H : nonnegative Examples.quarters) by (unfold nonnegative; cbn; lra).
  split; [exact H | exact (calc_mcc_nan_iff_zero_product Examples.quarters H)].
Defined.

(** C1 at the record [quarters].  The denominator product is positive and
    the specified coefficient [(pp*aa - ap*pa) / sqrt(...)] is 0, but the
    code adds the two products and returns 1/2. *)
Theorem calc_mcc_adds_the_products :
  0 < mcc_temp Examples.quarters /\
  mcc_spec Examples.quarters = 0 /\
  calc_mcc Examples.quarters = Ok (Fl (1 / 2)).
Proof.
  assert (Hs : sqrt (mcc_temp Examples.quarters) = 1 / 4).
  { rewrite quarters_temp. apply sqrt_square. lra. }
  assert (Hpos : 0 < mcc_temp Examples.quarters).
  { rewrite quarters_temp. lra. }
  split; [exact Hpos | split].
  - unfold mcc_spec. rewrite Hs. cbn. field.
  - rewrite (calc_mcc_defined _ Hpos), Hs. cbn. do 2 f_equal. field.
Qed.

End PerformanceFacts.

(** ** Boolean classification and site matching *)

Module BooleanFacts.

Import Boolean.

(** C6.  Example 1: length 10, [1,5] in the first annotation, [3,8] in the
    second.  The symbols are classified 1-2 only first, 3-5 both, 6-8 only
    second, 9-10 neither; the counts are pp=3, pa=2, ap=3, aa=2; the runs
    written are union [1,8], intersection [3,5], complement of the first
    [6,8] and complement of the second [1,2]. *)
Theorem example_classification :
  exists calc,
    init Examples.options Examples.sequence = Ok calc /\
    seq calc = [1; 1; 3; 3; 3; 2; 2; 2; 0; 0] /\
    (let r := results (fst (calculate_residue_wise calc None)) in
     pp r = 3 /\ pa r = 2 /\ ap r = 3 /\ aa r = 2) /\
    write_to_files Examples.sequence (in_type calc) Examples.interval_files =
      Ok (mkFileHandlers
            (Some [Examples.row 1 8]) (Some [Examples.row 3 5])
            (Some [Examples.row 6 8]) (Some [Examples.row 1 2])
            None None None None) /\
    process_sequence Examples.options Examples.sequence Examples.interval_files =
      Ok (mkMeasures 3 (3, 3) 2 3 2 (1, 1) (0, 0) (5, 6),
          mkFileHandlers
            (Some [Examples.row 1 8]) (Some [Examples.row 3 5])
            (Some [Examples.row 6 8]) (Some [Examples.row 1 2])
            None None None None).
Proof.
  eexists. split; [vm_compute; reflexivity |].
  repeat split; vm_compute; reflexivity.
Qed.

Lemma overlap_extent (s s_ : Site) :
  Z.max (Z.min (Z.min (Z.min (site_end s - site_begin s_)
                             (site_end s_ - site_begin s))
                      (site_end s - site_begin s))
               (site_end s_ - site_begin s_) + 1) 0 =
  Z.max 0 (Z.min (site_end s) (site_end s_)
           - Z.max (site_begin s) (site_begin s_) + 1).
Proof. lia. Qed.

(** C7.  With the neutral predictor nature the overlap of two sites is
    [max(0, min(site.end, cand.end) - max(site.begin, cand.begin) + 1)];
    under 'shortest' with [overlap_symbols = 1] and [overlap_part = 0.5] the
    site [3,5] overlaps the candidate [4,10] by 2 symbols, the effective
    length is 3 and the overlap is sufficient: the candidate is the match. *)
Theorem neutral_overlap_extent (o : Options) :
  predictor_nature o = Neutral ->
  (forall s s_ i,
      get_overlapped_symbols o s s_ i =
      Z.max 0 (Z.min (site_end s) (site_end s_)
               - Z.max (site_begin s) (site_begin s_) + 1)) /\
  (overlap_apply o = Shortest -> overlap_symbols o = 1 ->
   overlap_part o = (1 # 2)%Q ->
   forall i,
     get_overlapped_symbols o (site 3 5) (site 4 10) i = 2 /\
     get_site_length o (site 3 5) (site 4 10) = Some 3 /\
     check_overlap_sufficiency o 2 (Some 3) = Ok true /\
     find_match o (site 3 5) i [site 4 10] = Ok (Some (site 4 10, 2))).
Proof.
  intros Hn.
  assert (Hex : forall s s_ i,
             get_overlapped_symbols o s s_ i =
             Z.max 0 (Z.min (site_end s) (site_end s_)
                      - Z.max (site_begin s) (site_begin s_) + 1)).
  { intros s s_ i. unfold get_overlapped_symbols. rewrite Hn.
    apply overlap_extent. }
  split; [exact Hex |].
  intros Ha Hs Hp i.
  assert (Hov : get_overlapped_symbols o (site 3 5) (site 4 10) i = 2)
    by (rewrite Hex; reflexivity).
  assert (Hlen : get_site_length o (site 3 5) (site 4 10) = Some 3)
    by (unfold get_site_length; rewrite Ha; reflexivity).
  assert (Hsuf : check_overlap_sufficiency o 2 (Some 3) = Ok true)
    by (unfold check_overlap_sufficiency; rewrite Hs, Hp; reflexivity).
  repeat split; try assumption.
  cbn [find_match]. rewrite Hov, Hlen, Hsuf. reflexivity.
Qed.

Lemma neutral_overlap_extent_witness :
  get_overlapped_symbols Examples.options (site 3 5) (site 4 10) A1 = 2 /\
  find_match Examples.options (site 3 5) A1 [site 4 10]
    = Ok (Some (site 4 10, 2)).
Proof.
  destruct (neutral_overlap_extent Examples.options eq_refl) as [_ Hex].
  destruct (Hex eq_refl eq_refl eq_refl A1) as (Hov & _ & _ & Hfind).
  split; [exact Hov | exact Hfind].
Defined.

(** *** Loops that cannot fail *)

Lemma for_each_ok {A S : Type} (P : S -> Prop) (Q : A -> Prop)
  (body : A -> S -> res S) (xs : list A) :
  (forall x st, Q x -> P st -> exists st', body x st = Ok st' /\ P st') ->
  Forall Q xs ->
  forall st, P st -> exists st', for_each xs body st = Ok st' /\ P st'.
Proof.
  intros Hbody HQ. induction HQ as [| x rest Hx _ IH]; intros st Hst.
  - exists st. split; [reflexivity | assumption].
  - destruct (Hbody x st Hx Hst) as (st1 & Hrun & Hst1).
    cbn [for_each]. rewrite Hrun. cbn [bind]. apply IH. assumption.
Qed.

Lemma for_each_inv {A S : Type} (P : S -> Prop)
  (body : A -> S -> res S) (xs : list A) :
  (forall x st st', P st -> body x st = Ok st' -> P st') ->
  forall st st', P st -> for_each xs body st = Ok st' -> P st'.
Proof.
  intros Hbody. induction xs as [| x rest IH]; intros st st' Hst Hrun.
  - cbn in Hrun. now inversion Hrun; subst.
  - cbn [for_each] in Hrun.
    destruct (body x st) as [st1 |] eqn:Hx; [| discriminate].
    cbn [bind] in Hrun. eapply IH; [| exact Hrun]. eapply Hbody; eassumption.
Qed.

Lemma in_py_range (a b idx : Z) :
  In idx (py_range a b) -> a <= idx < b.
Proof.
  unfold py_range. rewrite in_map_iff. intros (k & <- & Hk).
  apply in_seq in Hk. lia.
Qed.

(** *** The classification array *)

Lemma list_update_length (a : list Z) :
  forall i v, List.length (list_update a i v) = List.length a.
Proof.
  induction a as [| x rest IH]; intros [| i] v; cbn; auto.
Qed.

Lemma list_update_Forall (P : Z -> Prop) (a : list Z) :
  forall i v, P v -> Forall P a -> Forall P (list_update a i v).
Proof.
  induction a as [| x rest IH]; intros [| i] v Hv Ha; cbn; auto;
    inversion Ha; subst; constructor; auto.
Qed.

Lemma np_index_in_range (a : list Z) (idx : Z) :
  0 <= idx < Z.of_nat (List.length a) -> np_index a idx = Ok (Z.to_nat idx).
Proof.
  intros H. unfold np_index.
  destruct (idx <? 0) eqn:Hneg; [lia |].
  destruct (0 <=? idx) eqn:H0; [| lia].
  destruct (idx <? Z.of_nat (List.length a)) eqn:H1; [reflexivity | lia].
Qed.

Lemma np_set_classified (len : Z) (a : list Z) (idx v : Z) :
  category v -> classified len a -> 0 <= idx < len ->
  exists a', np_set a idx v = Ok a' /\ classified len a'.
Proof.
  intros Hv [Hlen Hcat] Hidx. unfold np_set.
  rewrite np_index_in_range by lia. cbn [bind].
  eexists. split; [reflexivity |]. split.
  - now rewrite list_update_length.
  - now apply list_update_Forall.
Qed.

Lemma np_get_in_range (a : list Z) (idx : Z) :
  0 <= idx < Z.of_nat (List.length a) ->
  np_get a idx = Ok (nth (Z.to_nat idx) a 0).
Proof.
  intros H. unfold np_get. now rewrite np_index_in_range.
Qed.

Lemma site_range_valid (len : Z) (s : Site) :
  valid_site len s -> Forall (fun idx => 0 <= idx < len) (site_range s).
Proof.
  intros (H1 & H2 & H3). apply Forall_forall. intros idx Hin.
  apply in_py_range in Hin. lia.
Qed.

Lemma classify_symbols_ok (cs : CurrentSequence) (a : list Z) :
  valid_sequence cs -> classified (length cs) a ->
  exists a', classify_symbols cs a = Ok a' /\ classified (length cs) a'.
Proof.
  intros (_ & Hs1 & Hs2) Ha. unfold classify_symbols.
  destruct (for_each_ok (classified (length cs)) (valid_site (length cs))
              (fun s a => for_each (site_range s)
                            (fun idx a' => np_set a' idx 1) a)
              (fst (sites cs))) with (st := a) as (a1 & Hrun1 & Ha1);
    [| assumption | assumption |].
  { intros s st Hs Hst.
    apply for_each_ok with (Q := fun idx => 0 <= idx < length cs);
      [| now apply site_range_valid | assumption].
    intros idx st0 Hidx Hst0. apply np_set_classified; auto.
    right; left; reflexivity. }
  rewrite Hrun1. cbn [bind].
  apply for_each_ok with (Q := valid_site (length cs)); [| assumption | assumption].
  intros s st Hs Hst.
  apply for_each_ok with (Q := fun idx => 0 <= idx < length cs);
    [| now apply site_range_valid | assumption].
  intros idx st0 Hidx Hst0.
  rewrite np_get_in_range by (destruct Hst0; lia). cbn [bind].
  destruct (_ =? 0).
  - apply np_set_classified; auto. right; right; left; reflexivity.
  - destruct (_ =? 1).
    + apply np_set_classified; auto. right; right; right; reflexivity.
    + exists st0. split; [reflexivity | assumption].
Qed.

Lemma zeros_classified (len : Z) :
  0 <= len -> np_zeros len = Ok (repeat 0 (Z.to_nat len)) /\
              classified len (repeat 0 (Z.to_nat len)).
Proof.
  intros H. unfold np_zeros. destruct (len <? 0) eqn:Hneg; [lia |].
  split; [reflexivity |]. split.
  - rewrite repeat_length. lia.
  - apply Forall_forall. intros x Hx. apply repeat_spec in Hx. now left.
Qed.

Lemma init_ok (o : Options) (cs : CurrentSequence) :
  valid_sequence cs ->
  exists a, init o cs = Ok (mkCalculator o cs a new_measures) /\
            classified (length cs) a.
Proof.
  intros Hv. unfold init.
  destruct (zeros_classified (length cs)) as [Hz Hc]; [apply Hv |].
  rewrite Hz. cbn [bind].
  destruct (classify_symbols_ok cs _ Hv Hc) as (a & Hrun & Ha).
  rewrite Hrun. cbn [bind]. now exists a.
Qed.

Lemma counts_partition (a : list Z) :
  Forall category a ->
  np_count 3 a + np_count 1 a + np_count 2 a + np_count 0 a
  = Z.of_nat (List.length a).
Proof.
  unfold np_count. induction 1 as [| v rest Hv _ IH]; [reflexivity |].
  cbn [filter List.length].
  destruct Hv as [-> | [-> | [-> | ->]]]; cbn [Z.eqb Pos.eqb List.length]; lia.
Qed.

(** C9, without gross counting.  A valid sequence is classified without an
    exception, and the four counts of [calculate_residue_wise] add up to
    its length. *)
Theorem boolean_counts_sum_to_length (o : Options) (cs : CurrentSequence) :
  gross o = false ->
  valid_sequence cs ->
  exists calc,
    init o cs = Ok calc /\
    forall detailed_file_h,
      let r := results (fst (calculate_residue_wise calc detailed_file_h)) in
      pp r + pa r + ap r + aa r = length cs.
Proof.
  intros Hg Hv. destruct (init_ok o cs Hv) as (a & Hinit & Hlen & Hcat).
  eexists. split; [exact Hinit |].
  intros h. unfold calculate_residue_wise. cbn [opt]. rewrite Hg.
  cbn. rewrite <- Hlen, <- (counts_partition a Hcat). lia.
Qed.

Lemma example_sequence_valid : valid_sequence Examples.sequence.
Proof.
  unfold valid_sequence, valid_site. cbn.
  repeat split; try lia; repeat constructor; cbn; lia.
Qed.

Lemma boolean_counts_sum_to_length_witness :
  exists calc,
    init Examples.options Examples.sequence = Ok calc /\
    forall detailed_file_h,
      let r := results (fst (calculate_residue_wise calc detailed_file_h)) in
      pp r + pa r + ap r + aa r = 10.
Proof.
  exact (boolean_counts_sum_to_length Examples.options Examples.sequence
           eq_refl example_sequence_valid).
Defined.

(** C9 as stated fails with gross counting, which is part of Boolean mode:
    on Example 1 the gross leftovers are pa=2 and ap=3, [pp] is not
    computed at all, and the four counts add up to 7, not to 10. *)
Lemma gross_counts_miss_length :
  exists calc,
    init Examples.gross_options Examples.sequence = Ok calc /\
    (let r := results (fst (calculate_residue_wise calc None)) in
     pp r = 0 /\ pp_ r = (3, 3) /\ pa r = 2 /\ ap r = 3 /\ aa r = 2 /\
     pp r + pa r + ap r + aa r <> length Examples.sequence).
Proof.
  eexists. split; [vm_compute; reflexivity |].
  repeat split; vm_compute; discriminate.
Qed.

(** *** Site counting *)

Lemma for_each_measure {A S : Type} (f : S -> Z) (d : Z)
  (body : A -> S -> res S) (xs : list A) :
  (forall x st st', body x st = Ok st' -> f st' = f st + d) ->
  forall st st', for_each xs body st = Ok st' ->
                 f st' = f st + d * Z.of_nat (List.length xs).
Proof.
  intros Hbody. induction xs as [| x rest IH]; intros st st' Hrun.
  - cbn in Hrun. inversion Hrun; subst. cbn. lia.
  - cbn [for_each] in Hrun.
    destruct (body x st) as [st1 |] eqn:Hx; [| discriminate].
    cbn [bind] in Hrun. apply IH in Hrun. apply Hbody in Hx.
    cbn [List.length]. lia.
Qed.

Lemma counted_count_site (b : bool) (i k : anno) (r : BasicBooleanMeasures) :
  counted k (count_site b i r)
  = counted k r + (if anno_eqb k i then 1 else 0).
Proof.
  unfold counted, count_site.
  destruct b, i, k, r as [? ? ? ? ? [m1 m2] [n1 n2] ?]; cbn; lia.
Qed.

Ltac unbind H :=
  repeat match type of H with
    | bind ?m _ = Ok _ =>
        let E := fresh "E" in
        destruct m eqn:E; cbn [bind] in H; [| discriminate H]
    | (let '(_, _) := ?p in _) = Ok _ => destruct p
    | (if ?c then _ else _) = Ok _ => destruct c
    end.

Ltac unbind_all :=
  repeat match goal with
    | H : bind ?m _ = Ok _ |- _ =>
        let E := fresh "E" in
        destruct m eqn:E; cbn [bind] in H; [| discriminate H]
    | H : (let '(_, _) := ?p in _) = Ok _ |- _ => destruct p
    | H : Ok _ = Ok _ |- _ => inversion H; subst; clear H
    end.

Lemma pairwise_step_counts (self : Calculator) (i : anno) (s : Site)
  (st st' : Z * SiteState) :
  pairwise_step self i s st = Ok st' ->
  forall k, counted k (state_results (snd st'))
            = counted k (state_results (snd st))
              + (if anno_eqb k i then 1 else 0).
Proof.
  destruct st as [last_end [[r dh] sh]]. unfold pairwise_step.
  intros H k. unbind H; inversion H; subst; cbn [snd state_results fst];
    rewrite counted_count_site; reflexivity.
Qed.

Lemma patched_step_counts (self : Calculator) (i : anno) (s : Site)
  (st st' : SiteState) :
  patched_step self i s st = Ok st' ->
  forall k, counted k (state_results st')
            = counted k (state_results st) + (if anno_eqb k i then 1 else 0).
Proof.
  destruct st as [[r dh] sh]. unfold patched_step.
  intros H k. unbind H; inversion H; subst; cbn [state_results fst];
    rewrite counted_count_site; reflexivity.
Qed.

Lemma summary_step_keeps (self : Calculator) (j : option anno) (i : anno)
  (st st' : SiteState) :
  summary_step self j i st = Ok st' -> state_results st' = state_results st.
Proof.
  destruct st as [[r dh] sh]. unfold summary_step.
  intros H. unbind H; inversion H; subst; reflexivity.
Qed.

Lemma pairwise_loop_counts (self : Calculator) (i k : anno) (l : list Site)
  (st st' : Z * SiteState) :
  for_each l (pairwise_step self i) st = Ok st' ->
  counted k (state_results (snd st'))
  = counted k (state_results (snd st))
    + (if anno_eqb k i then 1 else 0) * Z.of_nat (List.length l).
Proof.
  apply (for_each_measure (fun st => counted k (state_results (snd st)))).
  intros x st0 st1 Hx. exact (pairwise_step_counts self i x st0 st1 Hx k).
Qed.

Lemma patched_loop_counts (self : Calculator) (i k : anno) (l : list Site)
  (st st' : SiteState) :
  for_each l (patched_step self i) st = Ok st' ->
  counted k (state_results st')
  = counted k (state_results st)
    + (if anno_eqb k i then 1 else 0) * Z.of_nat (List.length l).
Proof.
  apply (for_each_measure (fun st => counted k (state_results st))).
  intros x st0 st1 Hx. exact (patched_step_counts self i x st0 st1 Hx k).
Qed.

(** Whatever the policy and the output files: when [calculate_site_wise]
    returns, each annotation has one more counted site for each of its
    sites. *)
Lemma calculate_site_wise_counts (self self' : Calculator)
  (dh dh' : option (list DetailedLine)) (sh sh' : option (list StatRow)) :
  calculate_site_wise self dh sh = Ok (self', dh', sh') ->
  forall k, counted k (results self')
            = counted k (results self)
              + Z.of_nat (List.length (get2 k (sites (current_seq self)))).
Proof.
  unfold calculate_site_wise. intros H k.
  destruct (match overlap_apply (opt self) with
            | OtherApply _ => _ | _ => _ end) as [[st1 j] |] eqn:Hloops;
    [| discriminate H].
  cbn [bind] in H.
  destruct (for_each [A1; A2] (summary_step self j) st1)
    as [[[r dh2] sh2] |] eqn:Hsum; [| discriminate H].
  cbn [bind] in H. inversion H; subst; clear H. cbn [with_results results].
  assert (Hr : state_results (r, dh', sh') = state_results st1).
  { eapply (for_each_inv (fun st => state_results st = state_results st1));
      [| reflexivity | exact Hsum].
    intros i st st' Hst Hstep. apply summary_step_keeps in Hstep. congruence. }
  cbn [state_results fst] in Hr. rewrite Hr. clear Hr Hsum.
  assert (Hgoal :
    (exists s1 s2 l2,
        for_each (get2 A1 (sites (current_seq self))) (pairwise_step self A1)
          (0, (results self, dh, sh)) = Ok (l2, s1) /\
        for_each (get2 A2 (sites (current_seq self))) (pairwise_step self A2)
          (0, s1) = Ok s2 /\ st1 = snd s2) \/
    (exists s1,
        for_each (get2 A1 (sites (current_seq self))) (patched_step self A1)
          (results self, dh, sh) = Ok s1 /\
        for_each (get2 A2 (sites (current_seq self))) (patched_step self A2)
          s1 = Ok st1)).
  { destruct (overlap_apply (opt self)); [left | left | left | right |];
      try discriminate Hloops; cbn [for_each] in Hloops; unbind_all;
      eauto 10. }
  destruct Hgoal as [(s1 & s2 & l2 & H1 & H2 & ->) | (s1 & H1 & H2)].
  - apply (pairwise_loop_counts self A1 k) in H1.
    apply (pairwise_loop_counts self A2 k) in H2.
    unfold state_results in *. cbn [snd fst] in *. rewrite H2, H1.
    destruct k; cbn [anno_eqb get2]; lia.
  - apply (patched_loop_counts self A1 k) in H1.
    apply (patched_loop_counts self A2 k) in H2.
    unfold state_results in *. cbn [snd fst] in *. rewrite H2, H1.
    destruct k; cbn [anno_eqb get2]; lia.
Qed.

(** *** Site matching without output files returns *)

Lemma check_overlap_sufficiency_ok (o : Options) (overlapped len : Z) :
  len <> 0 ->
  exists b, check_overlap_sufficiency o overlapped (Some len) = Ok b.
Proof.
  intros Hlen. unfold check_overlap_sufficiency, py_truediv.
  destruct (overlapped >=? overlap_symbols o); [| now eexists].
  destruct (len =? 0) eqn:Hz; [lia |]. cbn [bind]. now eexists.
Qed.

Lemma get_site_length_positive (o : Options) (len : Z) (s s_ : Site) :
  known_apply o -> valid_site len s -> valid_site len s_ ->
  exists l, get_site_length o s s_ = Some l /\ l <> 0.
Proof.
  unfold known_apply, get_site_length, valid_site. intros Hk Hs Hs_.
  destruct (overlap_apply o); try contradiction;
    eexists; (split; [reflexivity | lia]).
Qed.

Lemma find_match_ok (o : Options) (len : Z) (s : Site) (i : anno)
  (candidates : list Site) :
  known_apply o -> valid_site len s -> Forall (valid_site len) candidates ->
  exists found, find_match o s i candidates = Ok found.
Proof.
  intros Hk Hs Hc. induction Hc as [| s_ rest Hs_ _ IH]; cbn [find_match].
  - now eexists.
  - destruct (site_begin s_ >? site_end s); [now eexists |].
    destruct (get_site_length_positive o len s s_ Hk Hs Hs_) as (l & -> & Hl).
    destruct (check_overlap_sufficiency_ok o
                (get_overlapped_symbols o s s_ i) l Hl) as (b & ->).
    cbn [bind]. destruct b; [now eexists | exact IH].
Qed.

Lemma pairwise_step_quiet (self : Calculator) (i : anno) (s : Site)
  (st : Z * SiteState) :
  known_apply (opt self) ->
  valid_site (length (current_seq self)) s ->
  Forall (valid_site (length (current_seq self)))
    (get2 (other i) (sites (current_seq self))) ->
  quiet (snd st) ->
  exists st', pairwise_step self i s st = Ok st' /\ quiet (snd st').
Proof.
  intros Hk Hs Hc Hq. destruct st as [last_end [[r dh] sh]].
  destruct Hq as [Hd Hh]. cbn in Hd, Hh. subst dh sh.
  unfold pairwise_step.
  destruct (find_match_ok (opt self) _ s i _ Hk Hs Hc) as (found & ->).
  cbn. eexists. split; [reflexivity | split; reflexivity].
Qed.

Lemma patched_step_quiet (self : Calculator) (i : anno) (s : Site)
  (st : SiteState) :
  valid_site (length (current_seq self)) s ->
  quiet st ->
  exists st', patched_step self i s st = Ok st' /\ quiet st'.
Proof.
  intros (H1 & H2 & H3) Hq. destruct st as [[r dh] sh].
  destruct Hq as [Hd Hh]. cbn in Hd, Hh. subst dh sh.
  unfold patched_step.
  destruct (check_overlap_sufficiency_ok (opt self) (matched_under self s)
              (site_end s - site_begin s + 1)) as (b & ->); [lia |].
  cbn. eexists. split; [reflexivity | split; reflexivity].
Qed.

Lemma summary_step_quiet (self : Calculator) (j : option anno) (i : anno)
  (st : SiteState) :
  quiet st -> exists st', summary_step self j i st = Ok st' /\ quiet st'.
Proof.
  intros Hq. destruct st as [[r dh] sh].
  destruct Hq as [Hd Hh]. cbn in Hd, Hh. subst dh sh.
  unfold summary_step. destruct (_ =? 0); cbn;
    eexists; (split; [reflexivity | split; reflexivity]).
Qed.

Lemma calculate_site_wise_quiet (self : Calculator) :
  known_apply (opt self) ->
  valid_sequence (current_seq self) ->
  exists self', calculate_site_wise self None None = Ok (self', None, None).
Proof.
  intros Hk (_ & Hv1 & Hv2). unfold calculate_site_wise.
  assert (Hv : forall i, Forall (valid_site (length (current_seq self)))
                           (get2 i (sites (current_seq self))))
    by (intros [|]; assumption).
  assert (Hloops : exists st1 j,
             match overlap_apply (opt self) with
             | Shortest | Longest | Current =>
                 st <- for_each [A1; A2]
                         (fun i st =>
                            ' (_, st') <-
                              for_each (get2 i (sites (current_seq self)))
                                (pairwise_step self i) (0, st) ;;
                            Ok st')
                         (results self, None, None) ;;
                 Ok (st, Some (other A2))
             | Patched =>
                 st <- for_each [A1; A2]
                         (fun i st =>
                            for_each (get2 i (sites (current_seq self)))
                              (patched_step self i) st)
                         (results self, None, None) ;;
                 Ok (st, None)
             | OtherApply _ => Raise (SystemExit "Unknown overlap apply method")
             end = Ok (st1, j) /\ quiet st1).
  { assert (Hpair : exists st1,
               for_each [A1; A2]
                 (fun i st =>
                    ' (_, st') <-
                      for_each (get2 i (sites (current_seq self)))
                        (pairwise_step self i) (0, st) ;;
                    Ok st')
                 (results self, None, None) = Ok st1 /\ quiet st1).
    { apply for_each_ok with (Q := fun _ => True);
        [| repeat constructor | split; reflexivity].
      intros i st _ Hq.
      destruct (for_each_ok (fun st => quiet (snd st))
                  (valid_site (length (current_seq self)))
                  (pairwise_step self i) (get2 i (sites (current_seq self))))
        with (st := (0, st)) as ([l st'] & Hrun & Hq');
        [| apply Hv | exact Hq |].
      - intros s st0 Hs Hq0. apply pairwise_step_quiet; auto.
      - rewrite Hrun. cbn [bind]. exists st'. split; [reflexivity | exact Hq']. }
    assert (Hpatch : exists st1,
               for_each [A1; A2]
                 (fun i st =>
                    for_each (get2 i (sites (current_seq self)))
                      (patched_step self i) st)
                 (results self, None, None) = Ok st1 /\ quiet st1).
    { apply for_each_ok with (Q := fun _ => True);
        [| repeat constructor | split; reflexivity].
      intros i st _ Hq.
      apply for_each_ok with (Q := valid_site (length (current_seq self)));
        [| apply Hv | exact Hq].
      intros s st0 Hs Hq0. apply patched_step_quiet; auto. }
    unfold known_apply in Hk.
    destruct (overlap_apply (opt self)); try contradiction.
    1-3: destruct Hpair as (st1 & -> & Hq); cbn [bind]; eauto.
    destruct Hpatch as (st1 & -> & Hq); cbn [bind]; eauto. }
  destruct Hloops as (st1 & j & -> & Hq1). cbn [bind].
  destruct (for_each_ok quiet (fun _ => True) (summary_step self j) [A1; A2])
    with (st := st1) as ([[r dh] sh] & -> & Hq2).
  - intros i st _ Hq. now apply summary_step_quiet.
  - repeat constructor.
  - exact Hq1.
  - destruct Hq2 as [Hd Hh]. cbn in Hd, Hh. subst dh sh.
    cbn [bind]. now eexists.
Qed.

(** *** The residue-wise pass leaves the site counters alone *)

Lemma gross_fold_keeps (self : Calculator) (i : anno) (l : list Site) :
  forall r,
    let r' := fold_left (fun r s => gross_step self i s r) l r in
    site_m r' = site_m r /\ site_nm r' = site_nm r.
Proof.
  induction l as [| s rest IH]; intros r; cbn [fold_left].
  - split; reflexivity.
  - destruct (IH (gross_step self i s r)) as [Hm Hn].
    cbn zeta. rewrite Hm, Hn. destruct i; split; reflexivity.
Qed.

Lemma residue_wise_keeps (self : Calculator)
  (h : option (list DetailedLine)) :
  let self' := fst (calculate_residue_wise self h) in
  opt self' = opt self /\ current_seq self' = current_seq self /\
  site_m (results self') = site_m (results self) /\
  site_nm (results self') = site_nm (results self).
Proof.
  unfold calculate_residue_wise. destruct (gross (opt self)).
  - cbn [fold_left fst snd].
    destruct (gross_fold_keeps self A2 (get2 A2 (sites (current_seq self)))
                (fold_left (fun r s => gross_step self A1 s r)
                   (get2 A1 (sites (current_seq self)))
                   (set_ap (set_pa (results self) 0) 0))) as [Hm2 Hn2].
    destruct (gross_fold_keeps self A1 (get2 A1 (sites (current_seq self)))
                (set_ap (set_pa (results self) 0) 0)) as [Hm1 Hn1].
    cbn zeta in Hm1, Hn1, Hm2, Hn2.
    cbn [with_results results opt current_seq set_aa site_m site_nm fst snd].
    rewrite Hm2, Hn2, Hm1, Hn1. repeat split; reflexivity.
  - cbn. repeat split; reflexivity.
Qed.

Lemma residue_wise_quiet (self : Calculator) :
  snd (calculate_residue_wise self None) = None.
Proof.
  unfold calculate_residue_wise. destruct (gross (opt self)); reflexivity.
Qed.

(** C10.  A valid sequence is processed in Boolean mode under one of the
    four [overlap_apply] policies.  Whenever [calculate_site_wise] returns,
    [site_m[i] + site_nm[i]] is the number of sites of annotation [i], for
    both annotations, with or without gross counting and whichever output
    files are open; and without the detailed and the site file it does
    return. *)
Theorem site_counts_cover_all_sites (o : Options) (cs : CurrentSequence)
  (detailed_file_h : option (list DetailedLine))
  (site_file_h : option (list StatRow)) :
  known_apply o ->
  valid_sequence cs ->
  exists calc,
    init o cs = Ok calc /\
    let after := calculate_residue_wise calc detailed_file_h in
    (forall calc' dh' sh',
        calculate_site_wise (fst after) (snd after) site_file_h
        = Ok (calc', dh', sh') ->
        forall i,
          get2 i (site_m (results calc')) + get2 i (site_nm (results calc'))
          = Z.of_nat (List.length (get2 i (sites cs)))) /\
    (detailed_file_h = None -> site_file_h = None ->
     exists calc',
       calculate_site_wise (fst after) (snd after) site_file_h
       = Ok (calc', None, None)).
Proof.
  intros Hk Hv. destruct (init_ok o cs Hv) as (a & Hinit & _).
  eexists. split; [exact Hinit |]. cbn zeta.
  destruct (residue_wise_keeps (mkCalculator o cs a new_measures)
              detailed_file_h) as (Hopt & Hcs & Hm & Hn).
  cbn zeta in Hopt, Hcs, Hm, Hn. cbn [opt current_seq results] in Hopt, Hcs, Hm, Hn.
  split.
  - intros calc' dh' sh' Hrun i.
    pose proof (calculate_site_wise_counts _ _ _ _ _ _ Hrun i) as Hc.
    unfold counted in Hc. rewrite Hc, Hm, Hn, Hcs.
    destruct i; cbn; lia.
  - intros -> ->. rewrite residue_wise_quiet.
    apply calculate_site_wise_quiet.
    + now rewrite Hopt.
    + now rewrite Hcs.
Qed.

Lemma site_counts_cover_all_sites_witness :
  exists calc calc',
    init Examples.patched_options Examples.sequence = Ok calc /\
    calculate_site_wise (fst (calculate_residue_wise calc None)) None None
    = Ok (calc', None, None) /\
    forall i,
      get2 i (site_m (results calc')) + get2 i (site_nm (results calc')) = 1.
Proof.
  destruct (site_counts_cover_all_sites Examples.patched_options
              Examples.sequence None None I example_sequence_valid)
    as (calc & Hinit & Hcounts & Hreturns).
  destruct (Hreturns eq_refl eq_refl) as (calc' & Hrun).
  exists calc, calc'. split; [exact Hinit |].
  rewrite residue_wise_quiet in Hrun, Hcounts. split; [exact Hrun |].
  intros i. rewrite (Hcounts _ _ _ Hrun i). destruct i; reflexivity.
Defined.

(** Under 'patched' the branch assigns neither [j] nor [overlapped_symbols]:
    with the site file open the first site already stops the method. *)
Lemma patched_site_file_raises :
  exists calc,
    init Examples.patched_options Examples.sequence = Ok calc /\
    calculate_site_wise calc None (Some [])
    = Raise (NameError "overlapped_symbols").
Proof.
  eexists. split; vm_compute; reflexivity.
Qed.

End BooleanFacts.

(** ** Enrichment mode *)

Module EnrichmentFacts.

Import Enrichment.

(** The attributes that the two constructors leave on the instance. *)
Lemma init_attributes (o : Options) (cs : CurrentSequence) (self : instance) :
  init o cs = Ok self ->
  exists bytes a1 a2,
    self = [("global_state"%string, VGlobalState);
            ("opt"%string, VOptions o);
            ("current_seq"%string, VSequence cs);
            ("results"%string, VMeasures new_measures);
            ("n"%string, VInt (enrichment_count o));
            ("seq"%string, VArrays bytes a1 a2)].
Proof.
  unfold init, estimate_required_precison, count_occurrences. cbn.
  intros H.
  repeat match type of H with
    | bind (if ?c then _ else _) _ = Ok _ => destruct c
    | bind ?m _ = Ok _ =>
        let E := fresh "E" in
        destruct m eqn:E; cbn [bind] in H; [| discriminate H]
    | (let '(_, _) := ?p in _) = Ok _ => destruct p
    end; try discriminate.
  all: cbn in H; inversion H; subst; eauto.
Qed.

(** C4.  On every instance that the constructor builds,
    [calculate_residue_wise] raises: without a detailed file the first
    [write] fails on [None]; with one, the last statement reads
    [self.seq_length], an attribute that no constructor has set. *)
Theorem enrichment_residue_wise_raises (o : Options) (cs : CurrentSequence)
  (self : instance) (file_handler : option (list DetailedLine)) :
  init o cs = Ok self ->
  getattr self "seq_length" = Raise (AttributeError "seq_length") /\
  calculate_residue_wise self file_handler =
    Raise (AttributeError
             (match file_handler with
              | None => "write"
              | Some _ => "seq_length"
              end)).
Proof.
  intros Hinit.
  destruct (init_attributes o cs self Hinit) as (bytes & a1 & a2 & ->).
  split; [reflexivity |].
  destruct file_handler as [lines |]; reflexivity.
Qed.

Lemma enrichment_residue_wise_raises_witness :
  exists self,
    init Examples.enrichment_options Examples.sequence = Ok self /\
    calculate_residue_wise self None = Raise (AttributeError "write") /\
    calculate_residue_wise self (Some []) = Raise (AttributeError "seq_length").
Proof.
  destruct (init Examples.enrichment_options Examples.sequence)
    as [self |] eqn:Hinit; [| vm_compute in Hinit; discriminate Hinit].
  exists self. split; [reflexivity |]. split.
  - exact (proj2 (enrichment_residue_wise_raises _ _ self None Hinit)).
  - exact (proj2 (enrichment_residue_wise_raises _ _ self (Some []) Hinit)).
Defined.

End EnrichmentFacts.

(** ** The database-wide average *)

Module DatabaseFacts.

Import Database.

Local Open Scope R_scope.

Lemma sum_nil : sum [] = 0.
Proof. reflexivity. Qed.

Lemma sum_cons (x : R) (xs : list R) : sum (x :: xs) = x + sum xs.
Proof. reflexivity. Qed.

Lemma defined_values_nil : defined_values [] = [].
Proof. reflexivity. Qed.

Lemma defined_values_cons (x : R) (vs : list pyfloat) :
  defined_values (Fl x :: vs) = x :: defined_values vs.
Proof. reflexivity. Qed.

Lemma defined_values_skip (vs : list pyfloat) :
  defined_values (NaN :: vs) = defined_values vs.
Proof. reflexivity. Qed.

Lemma measure_eq (name : string) (t t' : R) (c c' : Z) :
  t = t' -> c = c' -> mkMeasure name (Fl t) c = mkMeasure name (Fl t') c'.
Proof. intros -> ->. reflexivity. Qed.

Lemma average_eq (x y : R) : x = y -> Ok (Fl x) = Ok (Fl y).
Proof. intros ->. reflexivity. Qed.

Lemma py_fdiv_ok (a b : R) : b <> 0 -> py_fdiv a b = Ok (a / b).
Proof.
  intros Hb. unfold py_fdiv. destruct (Req_dec_T b 0); [contradiction | reflexivity].
Qed.

Lemma lookup_name (db : PerformanceMeasures) (name : string) (m : Measure) :
  lookup db name = Ok m -> var_name m = name.
Proof.
  induction db as [| m0 rest IH]; cbn [lookup]; [discriminate |].
  destruct (String.eqb (var_name m0) name) eqn:Heq.
  - intros H. inversion H; subst. now apply String.eqb_eq.
  - exact IH.
Qed.

Lemma lookup_new_results (names : list string) (name : string) :
  In name names -> lookup (new_results names) name = Ok (new_measure name).
Proof.
  induction names as [| k rest IH]; intros Hin; [contradiction |].
  cbn [new_results map lookup new_measure var_name].
  destruct (String.eqb k name) eqn:Heq.
  - apply String.eqb_eq in Heq. now subst.
  - apply String.eqb_neq in Heq. destruct Hin as [-> | Hin]; [contradiction |].
    now apply IH.
Qed.

(** One [+=] on the measure [name]: the value of the group is accumulated,
    the other measures do not interfere. *)
Lemma lookup_iadd (db g : PerformanceMeasures) (name : string) (m : Measure) :
  lookup db name = Ok m ->
  lookup (iadd db g) name
  = Ok (accumulate m
          (match get_value g name with Ok v => v | Raise _ => NaN end)).
Proof.
  induction db as [| m0 rest IH]; cbn [lookup iadd map]; [discriminate |].
  assert (Hname : forall v, var_name (accumulate m0 v) = var_name m0).
  { intros v. unfold accumulate. destruct v, (value m0); reflexivity. }
  destruct (String.eqb (var_name m0) name) eqn:Heq.
  - intros H. inversion H; subst. apply String.eqb_eq in Heq. rewrite Heq.
    destruct (get_value g name) as [v |].
    + rewrite Hname, Heq, String.eqb_refl. reflexivity.
    + rewrite Heq, String.eqb_refl.
      unfold accumulate. destruct (value m); reflexivity.
  - intros H. destruct (get_value g (var_name m0)) as [v |].
    + rewrite Hname, Heq. now apply IH.
    + rewrite Heq. now apply IH.
Qed.

Lemma lookup_totals (name : string) (groups : list PerformanceMeasures) :
  forall (db : PerformanceMeasures) (m : Measure),
    lookup db name = Ok m ->
    lookup (fold_left iadd groups db) name
    = Ok (fold_left accumulate (group_values name groups) m).
Proof.
  induction groups as [| g rest IH]; intros db m Hm; cbn [fold_left]; [exact Hm |].
  cbn [group_values map fold_left]. apply IH. now apply lookup_iadd.
Qed.

(** The running total is the sum of the defined group values, the running
    count is their number. *)
Lemma accumulated (name : string) (values : list pyfloat) :
  forall (t : R) (c : Z),
    fold_left accumulate values (mkMeasure name (Fl t) c)
    = mkMeasure name (Fl (t + sum (defined_values values)))
        (c + Z.of_nat (List.length (defined_values values))).
Proof.
  induction values as [| v rest IH]; intros t c; cbn [fold_left].
  - rewrite defined_values_nil.
    apply measure_eq; [rewrite sum_nil; ring | cbn; lia].
  - destruct v as [| x]; cbn [accumulate value var_name count].
    + rewrite IH. reflexivity.
    + rewrite IH, defined_values_cons.
      apply measure_eq; [rewrite sum_cons; ring | cbn [List.length]; lia].
Qed.

Lemma database_totals (names : list string) (groups : list PerformanceMeasures)
  (name : string) :
  In name names ->
  lookup (database_results names groups) name
  = Ok (mkMeasure name
          (Fl (sum (defined_values (group_values name groups))))
          (Z.of_nat (List.length (defined_values (group_values name groups))))).
Proof.
  intros Hin. unfold database_results.
  rewrite (lookup_totals name groups _ _ (lookup_new_results names name Hin)).
  unfold new_measure. rewrite accumulated. f_equal.
  apply measure_eq; [ring | lia].
Qed.

(** C5.  Over the groups of a database, for every measure of the table: in
    skip-undefined mode the average is the sum of the defined group values
    divided by the number of groups that define the measure; in na-as-zero
    mode the same sum (an undefined value adds nothing) is divided by the
    number of all groups.  With the measure undefined in group A and 0.8 in
    group B the averages are 0.8 and 0.4. *)
Theorem database_average_modes (names : list string)
  (groups : list PerformanceMeasures) (name : string) :
  groups <> [] ->
  In name names ->
  let totals := database_results names groups in
  let defined := defined_values (group_values name groups) in
  let groups_n := Z.of_nat (List.length groups) in
  (defined <> [] ->
   final_value totals name false groups_n
   = Ok (Fl (sum defined / INR (List.length defined)))) /\
  final_value totals name true groups_n
  = Ok (Fl (sum defined / INR (List.length groups))) /\
  process_grouped ["X"%string] false [Examples.group_A; Examples.group_B]
  = Ok [Fl (8 / 10)] /\
  process_grouped ["X"%string] true [Examples.group_A; Examples.group_B]
  = Ok [Fl (4 / 10)].
Proof.
  assert (Hskip : forall names groups name,
            groups <> [] -> In name names ->
            defined_values (group_values name groups) <> [] ->
            final_value (database_results names groups) name false
              (Z.of_nat (List.length groups))
            = Ok (Fl (sum (defined_values (group_values name groups))
                      / INR (List.length
                               (defined_values (group_values name groups)))))).
  { intros ns gs n Hgs Hin Hdef. unfold final_value, get_value, get_count.
    rewrite (database_totals ns gs n Hin). cbn [bind value count negb].
    destruct (Z.of_nat (List.length gs) =? 0)%Z eqn:Hz;
      [destruct gs; [contradiction | cbn in Hz; lia] |].
    cbn [negb]. rewrite py_fdiv_ok.
    - cbn [bind]. now rewrite INR_IZR_INZ.
    - apply not_0_IZR. destruct (defined_values (group_values n gs));
        [contradiction | cbn; lia]. }
  assert (Hzero : forall names groups name,
            groups <> [] -> In name names ->
            final_value (database_results names groups) name true
              (Z.of_nat (List.length groups))
            = Ok (Fl (sum (defined_values (group_values name groups))
                      / INR (List.length groups)))).
  { intros ns gs n Hgs Hin. unfold final_value, get_value.
    rewrite (database_totals ns gs n Hin). cbn [bind value count negb].
    destruct (Z.of_nat (List.length gs) =? 0)%Z eqn:Hz;
      [destruct gs; [contradiction | cbn in Hz; lia] |].
    cbn [negb]. rewrite py_fdiv_ok.
    - cbn [bind]. now rewrite INR_IZR_INZ.
    - apply not_0_IZR. destruct gs; [contradiction | cbn; lia]. }
  intros Hgs Hin. cbn zeta.
  split; [now apply Hskip | split; [now apply Hzero | split]].
  - unfold process_grouped. cbn [produce_final_string].
    rewrite Hskip; [| discriminate | now left | discriminate].
    cbn [bind]. do 2 f_equal. apply f_equal.
    change (group_values "X" [Examples.group_A; Examples.group_B])
      with [NaN; Fl (8 / 10)].
    rewrite defined_values_skip, defined_values_cons, defined_values_nil.
    rewrite sum_cons, sum_nil. cbn [List.length INR]. field.
  - unfold process_grouped. cbn [produce_final_string].
    rewrite Hzero; [| discriminate | now left].
    cbn [bind]. do 2 f_equal. apply f_equal.
    change (group_values "X" [Examples.group_A; Examples.group_B])
      with [NaN; Fl (8 / 10)].
    rewrite defined_values_skip, defined_values_cons, defined_values_nil.
    rewrite sum_cons, sum_nil. cbn [List.length INR]. field.
Qed.

Lemma database_average_modes_witness :
  let groups := [Examples.group_A; Examples.group_B] in
  let totals := database_results ["X"%string] groups in
  final_value totals "X" false 2 = Ok (Fl (sum [8 / 10] / INR 1)) /\
  final_value totals "X" true 2 = Ok (Fl (sum [8 / 10] / INR 2)) /\
  process_grouped ["X"%string] false groups = Ok [Fl (8 / 10)] /\
  process_grouped ["X"%string] true groups = Ok [Fl (4 / 10)].
Proof.
  assert (Hne : [Examples.group_A; Examples.group_B] <> []) by discriminate.
  assert (Hin : In "X"%string ["X"%string]) by (left; reflexivity).
  assert (Hdef : defined_values
                   (group_values "X" [Examples.group_A; Examples.group_B])
                 <> []) by discriminate.
  destruct (database_average_modes ["X"%string]
              [Examples.group_A; Examples.group_B] "X" Hne Hin)
    as (Hgen & Hall & Hskip & Hzero).
  split; [exact (Hgen Hdef) | split; [exact Hall | split]];
    [exact Hskip | exact Hzero].
Defined.

End DatabaseFacts.

(** ** More on overlap resolution *)

Module ResolutionFacts.

Import Overlap Runs.

Lemma subsequence_refl {A : Type} (l : list A) : subsequence l l.
Proof. induction l; constructor; assumption. Qed.

Lemma subsequence_length {A : Type} (l1 l2 : list A) :
  subsequence l1 l2 -> (List.length l1 <= List.length l2)%nat.
Proof. induction 1; cbn; lia. Qed.

Lemma subsequence_In {A : Type} (l1 l2 : list A) (x : A) :
  subsequence l1 l2 -> In x l1 -> In x l2.
Proof.
  induction 1 as [| y l1 l2 _ IH | y l1 l2 _ IH]; cbn; intros Hin; auto.
  destruct Hin; auto.
Qed.

Lemma first_loop_after (sites : list Site) :
  forall last_end sites_new,
    first_loop sites last_end sites_new
    = sites_new ++ after_predecessor last_end sites.
Proof.
  induction sites as [| s rest IH]; intros last_end acc; cbn.
  - now rewrite app_nil_r.
  - rewrite IH. destruct (site_begin s >? last_end); [| reflexivity].
    now rewrite <- app_assoc.
Qed.

Lemma resolve_first_after (sites : list Site) :
  resolve_first sites = after_predecessor 0 sites.
Proof. unfold resolve_first. now rewrite first_loop_after. Qed.

Lemma last_loop_app (a b : list Site) :
  forall next_begin sites_new,
    last_loop (a ++ b) next_begin sites_new
    = last_loop b
        (fold_left (fun _ x => Some (site_begin x)) a next_begin)
        (last_loop a next_begin sites_new).
Proof.
  induction a as [| x a IH]; intros nb acc; cbn; [reflexivity |].
  now rewrite IH.
Qed.

Lemma resolve_last_before (sites : list Site) :
  resolve_last sites = before_successor sites.
Proof.
  unfold resolve_last. induction sites as [| s rest IH]; [reflexivity |].
  cbn [rev]. rewrite last_loop_app, IH. cbn [last_loop].
  rewrite <- fold_left_rev_right, rev_involutive.
  destruct rest as [| s' rest']; reflexivity.
Qed.

Lemma after_predecessor_subsequence (sites : list Site) :
  forall prev_end, subsequence (after_predecessor prev_end sites) sites.
Proof.
  induction sites as [| s rest IH]; intros prev; cbn; [constructor |].
  destruct (site_begin s >? prev); constructor; apply IH.
Qed.

Lemma before_successor_subsequence (sites : list Site) :
  subsequence (before_successor sites) sites.
Proof.
  induction sites as [| s rest IH]; [constructor |].
  cbn [before_successor]. destruct rest as [| s' rest'].
  - apply sub_keep, sub_nil.
  - destruct (site_end s <? site_begin s'); constructor; exact IH.
Qed.

(** 'first' and 'last' only leave sites out: what they return is the input
    with some sites removed, the others unchanged and in their order, so
    the number of sites does not grow. *)
Theorem first_and_last_only_drop (sites : list Site) :
  subsequence (resolve_first sites) sites /\
  subsequence (resolve_last sites) sites /\
  (List.length (resolve_first sites) <= List.length sites)%nat /\
  (List.length (resolve_last sites) <= List.length sites)%nat.
Proof.
  assert (H1 : subsequence (resolve_first sites) sites)
    by (rewrite resolve_first_after; apply after_predecessor_subsequence).
  assert (H2 : subsequence (resolve_last sites) sites)
    by (rewrite resolve_last_before; apply before_successor_subsequence).
  repeat split; auto using subsequence_length.
Qed.

(** *** Disjoint outputs *)

Lemma non_overlapping_cons (s : Site) (l : list Site) :
  match l with
  | [] => True
  | x :: _ => site_end s < site_begin x
  end ->
  non_overlapping l = true -> non_overlapping (s :: l) = true.
Proof.
  destruct l as [| x l']; intros Hhead Hl; [reflexivity |].
  cbn [non_overlapping]. apply andb_true_iff. split; [lia | exact Hl].
Qed.

Lemma non_overlapping_tail (s : Site) (l : list Site) :
  non_overlapping (s :: l) = true ->
  match l with
  | [] => True
  | x :: _ => site_end s < site_begin x
  end /\ non_overlapping l = true.
Proof.
  destruct l as [| x l']; [intros _; split; [exact I | reflexivity] |].
  cbn [non_overlapping]. rewrite andb_true_iff, Z.ltb_lt. tauto.
Qed.

Lemma non_overlapping_snoc (l : list Site) (a b : Site) :
  non_overlapping (l ++ [a]) = true -> site_end a < site_begin b ->
  non_overlapping ((l ++ [a]) ++ [b]) = true.
Proof.
  intros Hl Hab. induction l as [| x l IH].
  - cbn. apply andb_true_iff. split; [lia | reflexivity].
  - cbn [app] in *. apply non_overlapping_tail in Hl as [Hhead Htail].
    apply non_overlapping_cons; [| now apply IH].
    destruct l as [| y l']; cbn [app] in *; exact Hhead.
Qed.

Lemma sorted_In (s x : Site) (rest : list Site) :
  sorted_by_begin (s :: rest) = true -> In x rest ->
  site_begin s <= site_begin x.
Proof.
  revert s. induction rest as [| s' rest IH]; intros s Hs Hin; [contradiction |].
  apply OverlapFacts.sorted_head in Hs as [Hle Hs].
  destruct Hin as [<- | Hin]; [exact Hle |].
  specialize (IH s' Hs Hin). lia.
Qed.

Lemma sorted_tail (s : Site) (rest : list Site) :
  sorted_by_begin (s :: rest) = true -> sorted_by_begin rest = true.
Proof.
  destruct rest as [| s' rest']; [reflexivity |].
  intros H. now apply OverlapFacts.sorted_head in H.
Qed.

Lemma before_successor_disjoint (sites : list Site) :
  sorted_by_begin sites = true ->
  non_overlapping (before_successor sites) = true.
Proof.
  induction sites as [| s rest IH]; intros Hs; [reflexivity |].
  specialize (IH (sorted_tail _ _ Hs)).
  cbn [before_successor]. destruct rest as [| s' rest']; [reflexivity |].
  destruct (site_end s <? site_begin s') eqn:Hkeep; [| exact IH].
  apply non_overlapping_cons; [| exact IH].
  destruct (before_successor (s' :: rest')) as [| x kept] eqn:Hkept; [exact I |].
  assert (Hin : In x (s' :: rest')).
  { apply (subsequence_In (x :: kept)); [| now left].
    rewrite <- Hkept. apply before_successor_subsequence. }
  apply Z.ltb_lt in Hkeep.
  destruct Hin as [<- | Hin]; [exact Hkeep |].
  pose proof (sorted_In s' x rest' (sorted_tail _ _ Hs) Hin). lia.
Qed.

(** On a site list sorted by begin, as the parser leaves it, the sites that
    'last' keeps are pairwise disjoint: each ends before the next begins. *)
Theorem last_resolves_sorted_lists (sites : list Site) :
  sorted_by_begin sites = true ->
  non_overlapping (resolve_last sites) = true.
Proof.
  intros Hs. rewrite resolve_last_before. now apply before_successor_disjoint.
Qed.

Lemma last_resolves_sorted_lists_witness :
  sorted_by_begin Examples.nested = true /\
  non_overlapping (resolve_last Examples.nested) = true.
Proof.
  split; [reflexivity |].
  exact (last_resolves_sorted_lists Examples.nested eq_refl).
Defined.

Lemma ends_tail (s : Site) (rest : list Site) :
  ends_nondecreasing (s :: rest) = true -> ends_nondecreasing rest = true.
Proof.
  destruct rest as [| s' rest']; [reflexivity |].
  intros H. now apply OverlapFacts.ends_head in H.
Qed.

Lemma after_predecessor_begins (rest : list Site) :
  forall prev_end bound,
    bound <= prev_end ->
    match rest with
    | [] => True
    | s :: _ => prev_end <= site_end s
    end ->
    ends_nondecreasing rest = true ->
    Forall (fun x => bound < site_begin x) (after_predecessor prev_end rest).
Proof.
  induction rest as [| s rest IH]; intros prev bound Hb Hhead Hends;
    cbn [after_predecessor]; [constructor |].
  assert (Hrec : Forall (fun x => bound < site_begin x)
                   (after_predecessor (site_end s) rest)).
  { apply IH; [lia | | now apply ends_tail in Hends].
    destruct rest as [| s' rest']; [exact I |].
    now apply OverlapFacts.ends_head in Hends. }
  destruct (site_begin s >? prev) eqn:Hkeep; [| exact Hrec].
  constructor; [lia | exact Hrec].
Qed.

Lemma after_predecessor_disjoint (sites : list Site) :
  forall prev_end,
    ends_nondecreasing sites = true ->
    non_overlapping (after_predecessor prev_end sites) = true.
Proof.
  induction sites as [| s rest IH]; intros prev Hends; [reflexivity |].
  cbn [after_predecessor].
  specialize (IH (site_end s) (ends_tail _ _ Hends)).
  destruct (site_begin s >? prev); [| exact IH].
  apply non_overlapping_cons; [| exact IH].
  assert (Hb : Forall (fun x => site_end s < site_begin x)
                 (after_predecessor (site_end s) rest)).
  { apply after_predecessor_begins; [lia | | now apply ends_tail in Hends].
    destruct rest as [| s' rest']; [exact I |].
    now apply OverlapFacts.ends_head in Hends. }
  destruct (after_predecessor (site_end s) rest); [exact I |].
  now inversion Hb.
Qed.

(** When no site ends before the site listed before it ends (no site is
    nested in an earlier one), the sites that 'first' keeps are pairwise
    disjoint. *)
Theorem first_resolves_unnested_lists (sites : list Site) :
  ends_nondecreasing sites = true ->
  non_overlapping (resolve_first sites) = true.
Proof.
  intros He. rewrite resolve_first_after. now apply after_predecessor_disjoint.
Qed.

Lemma first_resolves_unnested_lists_witness :
  ends_nondecreasing Examples.chain = true /\
  non_overlapping (resolve_first Examples.chain) = true.
Proof.
  split; [reflexivity |].
  exact (first_resolves_unnested_lists Examples.chain eq_refl).
Defined.

(** *** What 'merge' writes *)

(** The invariant of the loop of 'merge' while a run is open at
    [new_begin]: the sites written so far, closed by any site that begins at
    [new_begin], are disjoint, unnamed and begin at positive positions. *)
Lemma merge_loop_disjoint (rest : list Site) :
  forall last_end new_begin sites_new,
    0 < new_begin ->
    positive_begins rest ->
    (forall e, non_overlapping (sites_new ++ [site new_begin e]) = true) ->
    Forall (fun s => site_name s = None /\ 1 <= site_begin s) sites_new ->
    let merged := close_run (merge_loop rest last_end new_begin sites_new) in
    non_overlapping merged = true /\
    Forall (fun s => site_name s = None /\ 1 <= site_begin s) merged.
Proof.
  induction rest as [| s rest IH]; intros le nb acc Hnb Hpos Hacc Hnames.
  - cbn [merge_loop close_run]. destruct (nb >? 0) eqn:Hgt; [| lia].
    split; [apply Hacc |].
    apply Forall_app. split; [exact Hnames |].
    constructor; [split; [reflexivity | cbn; lia] | constructor].
  - inversion Hpos as [| ? ? Hs Hrest]; subst.
    cbn [merge_loop]. destruct (site_begin s >? le) eqn:Hnew.
    + destruct (nb >? 0) eqn:Hgt; [| lia].
      apply IH; [lia | exact Hrest | |].
      * intros e. apply non_overlapping_snoc; [apply Hacc | cbn; lia].
      * apply Forall_app. split; [exact Hnames |].
        constructor; [split; [reflexivity | cbn; lia] | constructor].
    + apply IH; assumption.
Qed.

Lemma resolve_merge_disjoint (sites : list Site) :
  positive_begins sites ->
  non_overlapping (resolve_merge sites) = true /\
  Forall (fun s => site_name s = None /\ 1 <= site_begin s)
    (resolve_merge sites).
Proof.
  intros Hpos. unfold resolve_merge.
  destruct sites as [| s rest]; [split; [reflexivity | constructor] |].
  inversion Hpos as [| ? ? Hs Hrest]; subst.
  cbn [merge_loop]. destruct (site_begin s >? 0) eqn:Hgt; [| lia].
  cbn [Z.gtb Z.compare].
  apply merge_loop_disjoint; [lia | exact Hrest | | constructor].
  intros e. reflexivity.
Qed.

(** The merged sites lie inside the sequence: a run is written as
    [[new_begin, last_end]] with [new_begin] the begin of its first site and
    [last_end] the end of its last one. *)
Lemma merge_loop_valid (len : Z) (rest : list Site) :
  forall prev new_begin sites_new,
    0 < new_begin -> new_begin <= site_begin prev ->
    sorted_by_begin (prev :: rest) = true ->
    Forall (valid_site len) (prev :: rest) ->
    Forall (valid_site len) sites_new ->
    Forall (valid_site len)
      (close_run (merge_loop rest (site_end prev) new_begin sites_new)).
Proof.
  induction rest as [| s rest IH]; intros prev nb acc Hnb Hprev Hsort Hv Hacc.
  - cbn [merge_loop close_run]. destruct (nb >? 0) eqn:Hgt; [| lia].
    apply Forall_app. split; [exact Hacc |].
    inversion Hv as [| ? ? (H1 & H2 & H3) _]; subst.
    constructor; [unfold valid_site; cbn; lia | constructor].
  - apply OverlapFacts.sorted_head in Hsort as [Hb Hsort].
    inversion Hv as [| ? ? (H1 & H2 & H3) Hv']; subst.
    cbn [merge_loop]. destruct (site_begin s >? site_end prev) eqn:Hnew.
    + destruct (nb >? 0) eqn:Hgt; [| lia].
      apply IH; [lia | lia | exact Hsort | exact Hv' |].
      apply Forall_app. split; [exact Hacc |].
      constructor; [unfold valid_site; cbn; lia | constructor].
    + apply IH; [lia | lia | exact Hsort | exact Hv' | exact Hacc].
Qed.

Lemma valid_positive (len : Z) (sites : list Site) :
  Forall (valid_site len) sites -> positive_begins sites.
Proof.
  unfold positive_begins. apply Forall_impl. intros s (H & _). exact H.
Qed.

Lemma disjoint_valid_sorted (len : Z) (sites : list Site) :
  non_overlapping sites = true -> Forall (valid_site len) sites ->
  sorted_by_begin sites = true.
Proof.
  induction sites as [| s rest IH]; intros Hd Hv; [reflexivity |].
  destruct rest as [| s' rest']; [reflexivity |].
  apply non_overlapping_tail in Hd as [Hhead Hd].
  inversion Hv as [| ? ? (H1 & H2 & H3) Hv']; subst.
  cbn [sorted_by_begin]. apply andb_true_iff. split; [lia |].
  now apply IH.
Qed.

Lemma merge_returns_disjoint_sites_aux (len : Z) (sites : list Site) :
  Forall (valid_site len) sites ->
  sorted_by_begin sites = true ->
  non_overlapping (resolve_merge sites) = true /\
  Forall (valid_site len) (resolve_merge sites).
Proof.
  intros Hv Hs. split.
  - apply resolve_merge_disjoint. now apply valid_positive in Hv.
  - unfold resolve_merge. destruct sites as [| s rest]; [constructor |].
    inversion Hv as [| ? ? (H1 & H2 & H3) _]; subst.
    cbn [merge_loop]. destruct (site_begin s >? 0) eqn:Hgt; [| lia].
    cbn [Z.gtb Z.compare].
    apply merge_loop_valid; [lia | lia | exact Hs | exact Hv | constructor].
Qed.

(** On every site list sorted by begin whose sites are valid for the
    sequence, nested or not, 'merge' returns valid sites that are pairwise
    disjoint and sorted by begin. *)
Theorem merge_returns_disjoint_sites (len : Z) (sites : list Site) :
  Forall (valid_site len) sites ->
  sorted_by_begin sites = true ->
  non_overlapping (resolve_merge sites) = true /\
  Forall (valid_site len) (resolve_merge sites) /\
  sorted_by_begin (resolve_merge sites) = true.
Proof.
  intros Hv Hs.
  destruct (merge_returns_disjoint_sites_aux len sites Hv Hs) as [Hd Hvalid].
  repeat split; [exact Hd | exact Hvalid |].
  now apply (disjoint_valid_sorted len).
Qed.

Lemma nested_valid : Forall (valid_site 10) Examples.nested.
Proof. repeat constructor; cbn; lia. Qed.

Lemma merge_returns_disjoint_sites_witness :
  non_overlapping (resolve_merge Examples.nested) = true /\
  Forall (valid_site 10) (resolve_merge Examples.nested) /\
  sorted_by_begin (resolve_merge Examples.nested) = true.
Proof.
  exact (merge_returns_disjoint_sites 10 Examples.nested nested_valid eq_refl).
Defined.

(** Without nested sites 'merge' keeps the coverage. *)
Lemma merge_keeps_coverage_witness :
  Forall (fun s => 1 <= site_begin s) Examples.chain /\
  covered (resolve_merge Examples.chain) 6 = covered Examples.chain 6.
Proof.
  assert (Hpos : Forall (fun s => 1 <= site_begin s) Examples.chain)
    by (repeat constructor; cbn; lia).
  split; [exact Hpos |].
  exact (OverlapFacts.merge_covers_without_nesting Examples.chain 6
           Hpos eq_refl eq_refl).
Defined.

(** *** Lists that are disjoint already *)

Lemma after_predecessor_fixed (sites : list Site) :
  forall prev_end,
    match sites with
    | [] => True
    | s :: _ => prev_end < site_begin s
    end ->
    non_overlapping sites = true ->
    after_predecessor prev_end sites = sites.
Proof.
  induction sites as [| s rest IH]; intros prev Hhead Hd; [reflexivity |].
  cbn [after_predecessor]. destruct (site_begin s >? prev) eqn:Hkeep; [| lia].
  apply non_overlapping_tail in Hd as [Hnext Hd].
  f_equal. now apply IH.
Qed.

Lemma before_successor_fixed (sites : list Site) :
  non_overlapping sites = true -> before_successor sites = sites.
Proof.
  induction sites as [| s rest IH]; intros Hd; [reflexivity |].
  apply non_overlapping_tail in Hd as [Hnext Hd].
  cbn [before_successor]. destruct rest as [| s' rest']; [reflexivity |].
  destruct (site_end s <? site_begin s') eqn:Hkeep; [| lia].
  f_equal. now apply IH.
Qed.

Lemma merge_loop_fixed (rest : list Site) :
  forall prev sites_new,
    positive_begins (prev :: rest) ->
    non_overlapping (prev :: rest) = true ->
    close_run (merge_loop rest (site_end prev) (site_begin prev) sites_new)
    = sites_new ++ map unnamed (prev :: rest).
Proof.
  induction rest as [| s rest IH]; intros prev acc Hpos Hd;
    inversion Hpos as [| ? ? Hprev Hrest]; subst.
  - cbn [merge_loop close_run]. destruct (site_begin prev >? 0) eqn:Hgt; [| lia].
    reflexivity.
  - apply non_overlapping_tail in Hd as [Hnext Hd].
    cbn [merge_loop]. destruct (site_begin s >? site_end prev) eqn:Hnew; [| lia].
    destruct (site_begin prev >? 0) eqn:Hgt; [| lia].
    rewrite IH by assumption.
    rewrite <- app_assoc. reflexivity.
Qed.

Lemma resolve_merge_fixed (sites : list Site) :
  positive_begins sites ->
  non_overlapping sites = true ->
  resolve_merge sites = map unnamed sites.
Proof.
  intros Hpos Hd. unfold resolve_merge.
  destruct sites as [| s rest]; [reflexivity |].
  inversion Hpos as [| ? ? Hs _]; subst.
  cbn [merge_loop]. destruct (site_begin s >? 0) eqn:Hgt; [| lia].
  cbn [Z.gtb Z.compare]. now rewrite merge_loop_fixed.
Qed.

(** A list of sites that are pairwise disjoint already, with positive
    begins, is left as it is by 'first' and by 'last'; 'merge' returns the
    same intervals, without the names. *)
Theorem disjoint_lists_are_kept (sites : list Site) :
  positive_begins sites ->
  non_overlapping sites = true ->
  resolve_first sites = sites /\
  resolve_last sites = sites /\
  resolve_merge sites = map unnamed sites.
Proof.
  intros Hpos Hd. repeat split.
  - rewrite resolve_first_after. apply after_predecessor_fixed; [| exact Hd].
    destruct sites as [| s rest]; [exact I |].
    inversion Hpos; subst. lia.
  - rewrite resolve_last_before. now apply before_successor_fixed.
  - now apply resolve_merge_fixed.
Qed.

Lemma disjoint_lists_are_kept_witness :
  let sites := [site 1 3; site 5 6] in
  resolve_first sites = sites /\
  resolve_last sites = sites /\
  resolve_merge sites = map unnamed sites.
Proof.
  apply disjoint_lists_are_kept; [repeat constructor; cbn; lia | reflexivity].
Defined.

Lemma unnamed_fixed (sites : list Site) :
  Forall (fun s => site_name s = None /\ 1 <= site_begin s) sites ->
  map unnamed sites = sites.
Proof.
  induction 1 as [| s rest [Hname _] _ IH]; [reflexivity |].
  cbn [map]. rewrite IH. f_equal.
  destruct s as [b e n]. cbn in Hname. subst n. reflexivity.
Qed.

(** 'merge' is idempotent: merging a merged list changes nothing. *)
Theorem merge_idempotent (sites : list Site) :
  positive_begins sites ->
  resolve_merge (resolve_merge sites) = resolve_merge sites.
Proof.
  intros Hpos. destruct (resolve_merge_disjoint sites Hpos) as [Hd Hnames].
  rewrite (resolve_merge_fixed (resolve_merge sites)); [| | exact Hd].
  - now apply unnamed_fixed.
  - unfold positive_begins. eapply Forall_impl; [| exact Hnames].
    intros s [_ H]. exact H.
Qed.

Lemma merge_idempotent_witness :
  resolve_merge (resolve_merge Examples.nested) = resolve_merge Examples.nested.
Proof.
  apply merge_idempotent. repeat constructor; cbn; lia.
Defined.

(** *** Sorting, then resolving *)

Lemma insert_sorted (s : Site) (l : list Site) :
  sorted_by_begin l = true -> sorted_by_begin (Parser.insert_by_begin s l) = true.
Proof.
  induction l as [| x rest IH]; intros Hl; [reflexivity |].
  cbn [Parser.insert_by_begin].
  destruct (site_begin s <=? site_begin x) eqn:Hle.
  - cbn [sorted_by_begin]. rewrite Hle. exact Hl.
  - specialize (IH (sorted_tail _ _ Hl)).
    destruct rest as [| y rest'].
    + cbn. apply andb_true_iff. split; [lia | reflexivity].
    + apply OverlapFacts.sorted_head in Hl as [Hxy _].
      cbn [Parser.insert_by_begin] in *.
      destruct (site_begin s <=? site_begin y);
        cbn [sorted_by_begin] in *; apply andb_true_iff; split;
        try exact IH; lia.
Qed.

Lemma sort_sorted (sites : list Site) :
  sorted_by_begin (Parser.sort_by_begin sites) = true.
Proof.
  induction sites as [| s rest IH]; [reflexivity |].
  cbn [Parser.sort_by_begin fold_right]. now apply insert_sorted.
Qed.

Lemma insert_Forall (P : Site -> Prop) (s : Site) (l : list Site) :
  P s -> Forall P l -> Forall P (Parser.insert_by_begin s l).
Proof.
  intros Hs. induction 1 as [| x rest Hx Hrest IH]; cbn [Parser.insert_by_begin].
  - repeat constructor. exact Hs.
  - destruct (site_begin s <=? site_begin x); repeat constructor; assumption.
Qed.

Lemma sort_Forall (P : Site -> Prop) (sites : list Site) :
  Forall P sites -> Forall P (Parser.sort_by_begin sites).
Proof.
  induction 1 as [| s rest Hs _ IH]; [constructor |].
  cbn [Parser.sort_by_begin fold_right]. now apply insert_Forall.
Qed.

(** The end of [parse_annotations].  Whatever the order of the records in
    the file, sorting and then resolving with 'last' or with 'merge' leaves
    valid sites that are pairwise disjoint. *)
Theorem sort_and_resolve_disjoint (len : Z) (sites : list Site) :
  Forall (valid_site len) sites ->
  non_overlapping (Parser.sort_and_resolve Last sites) = true /\
  non_overlapping (Parser.sort_and_resolve Merge sites) = true /\
  Forall (valid_site len) (Parser.sort_and_resolve Last sites) /\
  Forall (valid_site len) (Parser.sort_and_resolve Merge sites).
Proof.
  intros Hv. unfold Parser.sort_and_resolve. cbn [resolve_overlaps].
  pose proof (sort_sorted sites) as Hs.
  pose proof (sort_Forall _ _ Hv) as Hv'.
  destruct (merge_returns_disjoint_sites_aux len _ Hv' Hs) as (Hd & Hvm).
  repeat split.
  - rewrite resolve_last_before. now apply before_successor_disjoint.
  - exact Hd.
  - apply Forall_forall. intros x Hx.
    rewrite Forall_forall in Hv'. apply Hv'.
    eapply subsequence_In; [| exact Hx].
    rewrite resolve_last_before. apply before_successor_subsequence.
  - exact Hvm.
Qed.

Lemma sort_and_resolve_disjoint_witness :
  let sites := [site 5 6; site 2 3; site 1 10] in
  non_overlapping (Parser.sort_and_resolve Last sites) = true /\
  non_overlapping (Parser.sort_and_resolve Merge sites) = true /\
  Forall (valid_site 10) (Parser.sort_and_resolve Last sites) /\
  Forall (valid_site 10) (Parser.sort_and_resolve Merge sites).
Proof.
  apply sort_and_resolve_disjoint. repeat constructor; cbn; lia.
Defined.

End ResolutionFacts.

(** ** Storing the sites of an annotation *)

Module ParserFacts.

Import Parser.

Ltac compare_all :=
  repeat match goal with
    | |- context [?a <? ?b] => destruct (Z.ltb_spec a b)
    | |- context [?a >? ?b] =>
        let H := fresh "H" in
        destruct (a >? b) eqn:H;
        [apply Z.gtb_lt in H | rewrite Z.gtb_ltb in H; apply Z.ltb_ge in H]
    | H : context [?a <? ?b] |- _ => destruct (Z.ltb_spec a b)
    | H : context [?a >? ?b] |- _ =>
        let H' := fresh "H" in
        destruct (a >? b) eqn:H';
        [apply Z.gtb_lt in H' | rewrite Z.gtb_ltb in H'; apply Z.ltb_ge in H']
    end.

(** Under the policies 'error', 'trim' and 'ignore' every site that the
    parser stores lies inside its sequence: [1 <= begin <= end <= length];
    it carries the name of the record. *)
Theorem stored_sites_are_valid (policy : EndOverflowPolicy)
  (begin_shift end_shift seq_len : Z) (name : option string)
  (begin end_ : Z) (s : Site) :
  match policy with OverflowOther _ => False | _ => True end ->
  check_bounds policy begin_shift end_shift seq_len name begin end_ = Stored s ->
  valid_site seq_len s /\ site_name s = name.
Proof.
  intros Hp H. unfold check_bounds in H. unfold valid_site.
  destruct policy; try contradiction; clear Hp;
    compare_all; try discriminate H; inversion H; subst; cbn;
    repeat split; try reflexivity; lia.
Qed.

Lemma stored_sites_are_valid_witness :
  check_bounds OverflowTrim 0 0 10 None (-2) 14 = Stored (site 1 10) /\
  valid_site 10 (site 1 10).
Proof.
  split; [reflexivity |].
  exact (proj1 (stored_sites_are_valid OverflowTrim 0 0 10 None (-2) 14
                  (site 1 10) I eq_refl)).
Defined.

(** Under 'trim' a record whose shifted begin does not exceed its shifted
    end is stored as the part of the site that lies in [1..length]; when
    no part does, nothing is stored and nothing is raised. *)
Theorem trim_stores_the_part_inside
  (begin_shift end_shift seq_len : Z) (name : option string) (begin end_ : Z) :
  begin + begin_shift <= end_ + end_shift ->
  check_bounds OverflowTrim begin_shift end_shift seq_len name begin end_
  = let b := Z.max 1 (begin + begin_shift) in
    let e := Z.min seq_len (end_ + end_shift) in
    if b <=? e then Stored (mkSite b e name) else Returned.
Proof.
  intros Hle. unfold check_bounds. cbn zeta.
  destruct (Z.leb_spec (Z.max 1 (begin + begin_shift))
              (Z.min seq_len (end_ + end_shift)));
    compare_all; try lia; try reflexivity; f_equal; f_equal; lia.
Qed.

Lemma trim_stores_the_part_inside_witness :
  check_bounds OverflowTrim 0 0 10 None 8 14 = Stored (site 8 10) /\
  check_bounds OverflowTrim 0 0 10 None 12 14 = Returned.
Proof.
  split.
  - rewrite (trim_stores_the_part_inside 0 0 10 None 8 14); [reflexivity | lia].
  - rewrite (trim_stores_the_part_inside 0 0 10 None 12 14); [reflexivity | lia].
Defined.

(** 'error' and 'ignore' never change a site: a record is stored exactly
    when its shifted positions are valid for the sequence, and then as
    they are. *)
Theorem error_and_ignore_store_valid_records (policy : EndOverflowPolicy)
  (begin_shift end_shift seq_len : Z) (name : option string)
  (begin end_ : Z) (s : Site) :
  policy = OverflowError \/ policy = OverflowIgnore ->
  (check_bounds policy begin_shift end_shift seq_len name begin end_ = Stored s
   <-> s = mkSite (begin + begin_shift) (end_ + end_shift) name /\
       valid_site seq_len s).
Proof.
  intros Hp. unfold check_bounds, valid_site. split.
  - intros H. destruct Hp; subst policy;
      compare_all; try discriminate H; inversion H; subst; cbn; split;
      try reflexivity; lia.
  - intros [-> (H1 & H2 & H3)]. cbn in H1, H2, H3.
    destruct Hp; subst policy; compare_all; try lia; reflexivity.
Qed.

Lemma error_and_ignore_store_valid_records_witness :
  check_bounds OverflowIgnore 0 0 10 None 3 8 = Stored (site 3 8).
Proof.
  apply (error_and_ignore_store_valid_records OverflowIgnore 0 0 10 None 3 8).
  - right; reflexivity.
  - split; [reflexivity | unfold valid_site; cbn; lia].
Defined.

End ParserFacts.

(** ** What the classification array holds *)

Module ClassificationFacts.

Import Boolean Positions.

Lemma nth_list_update (a : list Z) :
  forall i k v,
    (i < List.length a)%nat ->
    nth k (list_update a i v) 0 = if Nat.eqb k i then v else nth k a 0.
Proof.
  induction a as [| x rest IH]; intros i k v Hi; cbn in Hi; [lia |].
  destruct i as [| i], k as [| k]; cbn; try reflexivity.
  apply IH. lia.
Qed.

Lemma list_update_same (a : list Z) :
  forall i, list_update a i (nth i a 0) = a.
Proof.
  induction a as [| x rest IH]; intros [| i]; cbn; try reflexivity.
  now rewrite IH.
Qed.

Lemma existsb_py_range (a b k : Z) :
  existsb (Z.eqb k) (py_range a b) = (a <=? k) && (k <? b).
Proof.
  apply eq_true_iff_eq. rewrite existsb_exists, andb_true_iff, Z.leb_le, Z.ltb_lt.
  split.
  - intros (x & Hin & Hx). apply Z.eqb_eq in Hx. subst x.
    now apply BooleanFacts.in_py_range.
  - intros H. exists k. split; [| apply Z.eqb_refl].
    unfold py_range. apply in_map_iff. exists (Z.to_nat (k - a)).
    split; [lia |]. apply in_seq. lia.
Qed.

(** A loop that rewrites the cells of some indices with an idempotent
    function of their value rewrites exactly the cells listed. *)
Lemma update_cells (g : Z -> Z) (body : Z -> list Z -> res (list Z)) (n : Z) :
  (forall v, g (g v) = g v) ->
  (forall idx a, 0 <= idx < n -> Z.of_nat (List.length a) = n ->
     body idx a
     = Ok (list_update a (Z.to_nat idx) (g (nth (Z.to_nat idx) a 0)))) ->
  forall idxs, Forall (fun i => 0 <= i < n) idxs ->
  forall a, Z.of_nat (List.length a) = n ->
  exists a',
    for_each idxs body a = Ok a' /\
    Z.of_nat (List.length a') = n /\
    forall k, 0 <= k < n ->
      nth (Z.to_nat k) a' 0
      = if existsb (Z.eqb k) idxs then g (nth (Z.to_nat k) a 0)
        else nth (Z.to_nat k) a 0.
Proof.
  intros Hg Hbody idxs Hidx.
  induction Hidx as [| i rest Hi _ IH]; intros a Ha.
  - exists a. repeat split; auto.
  - cbn [for_each]. rewrite (Hbody i a Hi Ha). cbn [bind].
    set (a1 := list_update a (Z.to_nat i) (g (nth (Z.to_nat i) a 0))).
    assert (Ha1 : Z.of_nat (List.length a1) = n)
      by (unfold a1; now rewrite BooleanFacts.list_update_length).
    destruct (IH a1 Ha1) as (a' & Hrun & Hlen & Hnth).
    exists a'. repeat split; [exact Hrun | exact Hlen |].
    intros k Hk. rewrite (Hnth k Hk). cbn [existsb].
    assert (Hcell : nth (Z.to_nat k) a1 0
                    = if k =? i then g (nth (Z.to_nat k) a 0)
                      else nth (Z.to_nat k) a 0).
    { unfold a1. rewrite nth_list_update by lia.
      destruct (Z.eqb_spec k i) as [-> | Hne].
      - now rewrite Nat.eqb_refl.
      - destruct (Nat.eqb_spec (Z.to_nat k) (Z.to_nat i)); [lia | reflexivity]. }
    rewrite Hcell.
    destruct (k =? i), (existsb (Z.eqb k) rest); cbn; try reflexivity.
    apply Hg.
Qed.

Lemma site_range_covers (s : Site) (k : Z) :
  existsb (Z.eqb k) (site_range s) = covers s (k + 1).
Proof.
  unfold site_range, covers. rewrite existsb_py_range.
  apply eq_true_iff_eq. rewrite !andb_true_iff, !Z.leb_le, Z.ltb_lt. lia.
Qed.

(** The loop over the sites of one annotation rewrites the cells of the
    covered positions. *)
Lemma update_sites (g : Z -> Z) (body : Z -> list Z -> res (list Z)) (n : Z) :
  (forall v, g (g v) = g v) ->
  (forall idx a, 0 <= idx < n -> Z.of_nat (List.length a) = n ->
     body idx a
     = Ok (list_update a (Z.to_nat idx) (g (nth (Z.to_nat idx) a 0)))) ->
  forall sites, Forall (valid_site n) sites ->
  forall a, Z.of_nat (List.length a) = n ->
  exists a',
    for_each sites (fun s a0 => for_each (site_range s) body a0) a = Ok a' /\
    Z.of_nat (List.length a') = n /\
    forall k, 0 <= k < n ->
      nth (Z.to_nat k) a' 0
      = if covered sites (k + 1) then g (nth (Z.to_nat k) a 0)
        else nth (Z.to_nat k) a 0.
Proof.
  intros Hg Hbody sites Hv.
  induction Hv as [| s rest Hs _ IH]; intros a Ha.
  - exists a. repeat split; auto.
  - cbn [for_each].
    destruct (update_cells g body n Hg Hbody (site_range s)
                (BooleanFacts.site_range_valid n s Hs) a Ha)
      as (a1 & Hrun1 & Hlen1 & Hnth1).
    rewrite Hrun1. cbn [bind].
    destruct (IH a1 Hlen1) as (a' & Hrun & Hlen & Hnth).
    exists a'. repeat split; [exact Hrun | exact Hlen |].
    intros k Hk. rewrite (Hnth k Hk), (Hnth1 k Hk), site_range_covers.
    unfold covered. cbn [existsb].
    destruct (covers s (k + 1)), (existsb (fun s0 => covers s0 (k + 1)) rest);
      cbn; try reflexivity.
    apply Hg.
Qed.

Lemma nth_positions (f : Z -> Z) (len : Z) (k : Z) :
  0 <= k < len ->
  nth (Z.to_nat k) (map f (positions len)) 0 = f (k + 1).
Proof.
  intros Hk. unfold positions, py_range. rewrite map_map.
  rewrite nth_indep with (d' := f (1 + Z.of_nat 0)).
  - rewrite (map_nth (fun x => f (1 + Z.of_nat x))), seq_nth by lia.
    f_equal. lia.
  - rewrite length_map, length_seq. lia.
Qed.

Lemma positions_length (len : Z) :
  0 <= len -> Z.of_nat (List.length (positions len)) = len.
Proof.
  intros H. unfold positions, py_range. rewrite length_map, length_seq. lia.
Qed.

Lemma classified_as_covered (o : Options) (cs : CurrentSequence) :
  valid_sequence cs ->
  init o cs
  = Ok (mkCalculator o cs
          (map (fun p => code (covered (fst (sites cs)) p)
                              (covered (snd (sites cs)) p))
             (positions (length cs)))
          new_measures).
Proof.
  intros (Hlen & Hv1 & Hv2). unfold init.
  destruct (BooleanFacts.zeros_classified (length cs) Hlen) as [Hz [Hz_len _]].
  rewrite Hz. cbn [bind]. unfold classify_symbols.
  set (g2 := fun v : Z => if v =? 0 then 2 else if v =? 1 then 3 else v).
  destruct (update_sites (fun _ => 1) (fun idx a' => np_set a' idx 1)
              (length cs)) with (sites := fst (sites cs))
                                (a := repeat 0 (Z.to_nat (length cs)))
    as (a1 & Hrun1 & Hlen1 & Hnth1); try assumption; [reflexivity | |].
  { intros idx a Hidx Ha. unfold np_set.
    now rewrite BooleanFacts.np_index_in_range by lia. }
  rewrite Hrun1. cbn [bind].
  destruct (update_sites g2
              (fun idx a' =>
                 v <- np_get a' idx ;;
                 if v =? 0 then np_set a' idx 2
                 else if v =? 1 then np_set a' idx 3
                 else Ok a')
              (length cs)) with (sites := snd (sites cs)) (a := a1)
    as (a2 & Hrun2 & Hlen2 & Hnth2); try assumption.
  { intros v. unfold g2. destruct (Z.eqb_spec v 0) as [-> | H0]; [reflexivity |].
    destruct (Z.eqb_spec v 1) as [-> | H1]; [reflexivity |].
    destruct (Z.eqb_spec v 0); [contradiction |].
    destruct (Z.eqb_spec v 1); [contradiction | reflexivity]. }
  { intros idx a Hidx Ha. rewrite BooleanFacts.np_get_in_range by lia.
    cbn [bind]. unfold np_set, g2.
    rewrite BooleanFacts.np_index_in_range by lia. cbn [bind].
    destruct (_ =? 0); [reflexivity |].
    destruct (_ =? 1); [reflexivity |].
    now rewrite list_update_same. }
  rewrite Hrun2. cbn [bind]. do 2 f_equal.
  apply nth_ext with (d := 0) (d' := 0).
  - rewrite length_map.
    pose proof (positions_length (length cs) Hlen). lia.
  - intros n Hn.
    assert (Hk : 0 <= Z.of_nat n < length cs) by lia.
    pose proof (Hnth2 _ Hk) as H2. pose proof (Hnth1 _ Hk) as H1.
    rewrite Nat2Z.id in H1, H2.
    pose proof (nth_positions
                  (fun p => code (covered (fst (sites cs)) p)
                                 (covered (snd (sites cs)) p))
                  (length cs) (Z.of_nat n) Hk) as Hp.
    rewrite Nat2Z.id in Hp. rewrite Hp, H2, H1.
    rewrite nth_repeat. unfold code, g2.
    destruct (covered (fst (sites cs)) (Z.of_nat n + 1)),
             (covered (snd (sites cs)) (Z.of_nat n + 1)); reflexivity.
Qed.

(** For a valid sequence the constructor succeeds, and the cell of every
    position holds its category: 0 in neither annotation, 1 only in a site
    of the first, 2 only in a site of the second, 3 in both. *)
Theorem classification_follows_coverage (o : Options) (cs : CurrentSequence) :
  valid_sequence cs ->
  exists calc,
    init o cs = Ok calc /\
    Z.of_nat (List.length (seq calc)) = length cs /\
    forall p, 1 <= p <= length cs ->
      np_get (seq calc) (p - 1)
      = Ok (code (covered (fst (sites cs)) p) (covered (snd (sites cs)) p)).
Proof.
  intros Hv. eexists. split; [apply classified_as_covered; exact Hv |].
  cbn [seq]. destruct Hv as (Hlen & _).
  assert (Hl : Z.of_nat
                 (List.length
                    (map (fun p => code (covered (fst (sites cs)) p)
                                        (covered (snd (sites cs)) p))
                       (positions (length cs)))) = length cs)
    by (rewrite length_map; now apply positions_length).
  split; [exact Hl |].
  intros p Hp. rewrite BooleanFacts.np_get_in_range by lia.
  rewrite nth_positions by lia. do 3 f_equal; lia.
Qed.

Lemma classification_follows_coverage_witness :
  exists calc,
    init Examples.options Examples.sequence = Ok calc /\
    np_get (seq calc) (4 - 1) = Ok 3.
Proof.
  destruct (classification_follows_coverage Examples.options Examples.sequence
              BooleanFacts.example_sequence_valid) as (calc & Hinit & _ & Hcell).
  exists calc. split; [exact Hinit |].
  rewrite (Hcell 4); [reflexivity | cbn; lia].
Defined.

(** *** The counts are the sizes of the categories *)

Lemma np_count_map (f : Z -> Z) (v : Z) (l : list Z) :
  np_count v (map f l)
  = Z.of_nat (List.length (filter (fun p => f p =? v) l)).
Proof.
  unfold np_count. induction l as [| p rest IH]; [reflexivity |].
  cbn [map filter]. destruct (f p =? v); cbn [List.length]; lia.
Qed.

Lemma count_code (len v : Z) (c1 c2 test : Z -> bool) :
  (forall p, (code (c1 p) (c2 p) =? v) = test p) ->
  np_count v (map (fun p => code (c1 p) (c2 p)) (positions len))
  = count_positions len test.
Proof.
  intros H. rewrite np_count_map. unfold count_positions.
  do 2 f_equal. apply filter_ext. exact H.
Qed.

(** Without gross counting, for a valid sequence: [pp] is the number of
    positions covered by sites of both annotations, [pa] of those covered
    only by the first, [ap] only by the second, [aa] by neither;
    [pp_[1]] and [pp_[2]] are both [pp]. *)
Theorem counts_are_category_sizes (o : Options) (cs : CurrentSequence) :
  gross o = false ->
  valid_sequence cs ->
  exists calc,
    init o cs = Ok calc /\
    forall detailed_file_h,
      let r := results (fst (calculate_residue_wise calc detailed_file_h)) in
      let in1 := covered (fst (sites cs)) in
      let in2 := covered (snd (sites cs)) in
      pp r = count_positions (length cs) (fun p => in1 p && in2 p) /\
      pa r = count_positions (length cs) (fun p => in1 p && negb (in2 p)) /\
      ap r = count_positions (length cs) (fun p => negb (in1 p) && in2 p) /\
      aa r = count_positions (length cs) (fun p => negb (in1 p) && negb (in2 p)) /\
      pp_ r = (pp r, pp r).
Proof.
  intros Hg Hv. eexists. split; [apply classified_as_covered; exact Hv |].
  intros h. unfold calculate_residue_wise. cbn [opt]. rewrite Hg.
  cbn [fst results with_results set_aa set_ap set_pa set_pp set_pp_
         pp pa ap aa pp_ seq].
  repeat split; apply count_code; intros p;
    destruct (covered (fst (sites cs)) p), (covered (snd (sites cs)) p);
    reflexivity.
Qed.

Lemma counts_are_category_sizes_witness :
  exists calc,
    init Examples.options Examples.sequence = Ok calc /\
    pp (results (fst (calculate_residue_wise calc None)))
    = count_positions 10
        (fun p => covered [site 1 5] p && covered [site 3 8] p).
Proof.
  destruct (counts_are_category_sizes Examples.options Examples.sequence
              eq_refl BooleanFacts.example_sequence_valid)
    as (calc & Hinit & Hcounts).
  exists calc. split; [exact Hinit |].
  exact (proj1 (Hcounts None)).
Defined.

Lemma predicates_cells (o : Options) (cs : CurrentSequence) :
  valid_sequence cs ->
  exists calc,
    init o cs = Ok calc /\
    forall p, 1 <= p <= length cs ->
      let in1 := covered (fst (sites cs)) p in
      let in2 := covered (snd (sites cs)) p in
      in_union calc (p - 1) = Ok (in1 || in2) /\
      in_intersection calc (p - 1) = Ok (in1 && in2) /\
      in_complement1 calc (p - 1) = Ok (negb in1 && in2) /\
      in_complement2 calc (p - 1) = Ok (in1 && negb in2).
Proof.
  intros Hv. eexists. split; [apply classified_as_covered; exact Hv |].
  intros p Hp. destruct Hv as (Hlen & _).
  assert (Hcell :
    np_get (map (fun q => code (covered (fst (sites cs)) q)
                               (covered (snd (sites cs)) q))
              (positions (length cs))) (p - 1)
    = Ok (code (covered (fst (sites cs)) p) (covered (snd (sites cs)) p))).
  { rewrite BooleanFacts.np_get_in_range
      by (rewrite length_map, positions_length; lia).
    rewrite nth_positions by lia. do 3 f_equal; lia. }
  unfold in_union, in_intersection, in_complement1, in_complement2.
  cbn [seq]. rewrite Hcell. cbn [bind].
  destruct (covered (fst (sites cs)) p), (covered (snd (sites cs)) p);
    repeat split; reflexivity.
Qed.

(** For a valid sequence the four predicates of the Boolean calculator
    say, at every position: union, in a site of either annotation;
    intersection, of both; complement of the first, only of the second;
    complement of the second, only of the first. *)
Theorem predicates_follow_coverage (o : Options) (cs : CurrentSequence) :
  valid_sequence cs ->
  exists calc,
    init o cs = Ok calc /\
    forall p, 1 <= p <= length cs ->
      let in1 := covered (fst (sites cs)) p in
      let in2 := covered (snd (sites cs)) p in
      in_union calc (p - 1) = Ok (in1 || in2) /\
      in_intersection calc (p - 1) = Ok (in1 && in2) /\
      in_complement1 calc (p - 1) = Ok (negb in1 && in2) /\
      in_complement2 calc (p - 1) = Ok (in1 && negb in2).
Proof. exact (predicates_cells o cs). Qed.

Lemma predicates_follow_coverage_witness :
  exists calc,
    init Examples.options Examples.sequence = Ok calc /\
    in_union calc (7 - 1) = Ok true /\
    in_intersection calc (7 - 1) = Ok false.
Proof.
  destruct (predicates_follow_coverage Examples.options Examples.sequence
              BooleanFacts.example_sequence_valid) as (calc & Hinit & Hpred).
  exists calc. split; [exact Hinit |].
  destruct (Hpred 7) as (Hu & Hi & _); [cbn; lia |].
  split; [exact Hu | exact Hi].
Defined.

(** *** Matched symbols under a site *)

Lemma nth_py_range (a b : Z) (i : nat) :
  (i < Z.to_nat (b - a))%nat -> nth i (py_range a b) 0 = a + Z.of_nat i.
Proof.
  intros Hi. unfold py_range.
  rewrite nth_indep with (d' := a + Z.of_nat 0)
    by (rewrite length_map, length_seq; exact Hi).
  rewrite (map_nth (fun k => a + Z.of_nat k)), seq_nth by exact Hi.
  reflexivity.
Qed.

Lemma py_range_length (a b : Z) :
  List.length (py_range a b) = Z.to_nat (b - a).
Proof. unfold py_range. now rewrite length_map, length_seq. Qed.

Lemma slice_positions (f : Z -> Z) (len b e : Z) :
  1 <= b -> b <= e -> e <= len ->
  np_slice (map f (positions len)) (b - 1) e = map f (py_range b (e + 1)).
Proof.
  intros Hb Hbe He. unfold np_slice. cbn zeta.
  assert (Hlen : Z.of_nat (List.length (map f (positions len))) = len)
    by (rewrite length_map; unfold positions; rewrite py_range_length; lia).
  rewrite Hlen. unfold slice_bound.
  destruct (b - 1 <? 0) eqn:H1; [lia |]. destruct (e <? 0) eqn:H2; [lia |].
  replace (Z.max 0 (Z.min len (b - 1))) with (b - 1) by lia.
  replace (Z.max 0 (Z.min len e)) with e by lia.
  rewrite skipn_map, firstn_map. f_equal.
  assert (Hpos : List.length (positions len) = Z.to_nat len)
    by (unfold positions; rewrite py_range_length; f_equal; lia).
  apply nth_ext with (d := 0) (d' := 0).
  - rewrite length_firstn, length_skipn, Hpos, py_range_length. lia.
  - intros i Hi. rewrite length_firstn, length_skipn, Hpos in Hi.
    rewrite nth_firstn, nth_skipn.
    destruct (Nat.ltb_spec i (Z.to_nat (e - (b - 1)))); [| lia].
    unfold positions. rewrite !nth_py_range by lia. lia.
Qed.

Lemma matched_under_shared (o : Options) (cs : CurrentSequence) (s : Site)
  (r : BasicBooleanMeasures) :
  valid_sequence cs -> valid_site (length cs) s ->
  matched_under
    (mkCalculator o cs
       (map (fun p => code (covered (fst (sites cs)) p)
                           (covered (snd (sites cs)) p))
          (positions (length cs))) r) s
  = shared cs s.
Proof.
  intros Hv (H1 & H2 & H3). unfold matched_under, shared. cbn [seq].
  rewrite slice_positions by lia. rewrite np_count_map.
  do 2 f_equal. apply filter_ext. intros p.
  destruct (covered (fst (sites cs)) p), (covered (snd (sites cs)) p);
    reflexivity.
Qed.

(** The number of matched symbols under a site, which gross counting and
    the 'patched' policy use, is the number of positions of the site that
    sites of both annotations cover. *)
Theorem matched_symbols_are_shared_positions (o : Options)
  (cs : CurrentSequence) (s : Site) :
  valid_sequence cs ->
  valid_site (length cs) s ->
  exists calc,
    init o cs = Ok calc /\
    matched_under calc s = shared cs s /\
    0 <= matched_under calc s <= site_end s - site_begin s + 1.
Proof.
  intros Hv Hs. eexists. split; [apply classified_as_covered; exact Hv |].
  rewrite matched_under_shared by assumption.
  split; [reflexivity |]. unfold shared.
  pose proof (filter_length_le
                (fun p => covered (fst (sites cs)) p && covered (snd (sites cs)) p)
                (py_range (site_begin s) (site_end s + 1))) as Hle.
  rewrite py_range_length in Hle. destruct Hs as (H1 & H2 & H3). lia.
Qed.

Lemma matched_symbols_are_shared_positions_witness :
  exists calc,
    init Examples.options Examples.sequence = Ok calc /\
    matched_under calc (site 1 5) = 3.
Proof.
  destruct (matched_symbols_are_shared_positions Examples.options
              Examples.sequence (site 1 5) BooleanFacts.example_sequence_valid)
    as (calc & Hinit & Hshared & _).
  - unfold valid_site; cbn; lia.
  - exists calc. split; [exact Hinit |]. rewrite Hshared. reflexivity.
Defined.

(** *** Gross counting *)

Lemma gross_fold_first (self : Calculator) (weight : Site -> Z)
  (l : list Site) :
  Forall (fun s => matched_under self s = weight s) l ->
  forall r,
    let r' := fold_left (fun r s => gross_step self A1 s r) l r in
    fst (pp_ r') = fst (pp_ r) + sum_over weight l /\
    pa r' = pa r + (total_length l - sum_over weight l) /\
    snd (pp_ r') = snd (pp_ r) /\ ap r' = ap r.
Proof.
  induction 1 as [| s rest Hs _ IH]; intros r; cbn [fold_left].
  - cbn. repeat split; lia.
  - destruct (IH (gross_step self A1 s r)) as (H1 & H2 & H3 & H4).
    cbn zeta. rewrite H1, H2, H3, H4.
    unfold gross_step. rewrite Hs.
    cbn [set_pa set_ap set_pp_ pp_ pa ap fst snd get2 set2].
    change (sum_over weight (s :: rest)) with (weight s + sum_over weight rest).
    change (total_length (s :: rest))
      with (site_end s - site_begin s + 1 + total_length rest).
    repeat split; lia.
Qed.

Lemma gross_fold_second (self : Calculator) (weight : Site -> Z)
  (l : list Site) :
  Forall (fun s => matched_under self s = weight s) l ->
  forall r,
    let r' := fold_left (fun r s => gross_step self A2 s r) l r in
    snd (pp_ r') = snd (pp_ r) + sum_over weight l /\
    ap r' = ap r + (total_length l - sum_over weight l) /\
    fst (pp_ r') = fst (pp_ r) /\ pa r' = pa r.
Proof.
  induction 1 as [| s rest Hs _ IH]; intros r; cbn [fold_left].
  - cbn. repeat split; lia.
  - destruct (IH (gross_step self A2 s r)) as (H1 & H2 & H3 & H4).
    cbn zeta. rewrite H1, H2, H3, H4.
    unfold gross_step. rewrite Hs.
    cbn [set_pa set_ap set_pp_ pp_ pa ap fst snd get2 set2].
    change (sum_over weight (s :: rest)) with (weight s + sum_over weight rest).
    change (total_length (s :: rest))
      with (site_end s - site_begin s + 1 + total_length rest).
    repeat split; lia.
Qed.

(** With gross counting, for a valid sequence: [pp_[i]] adds up, over the
    sites of annotation [i], the positions of the site that both
    annotations cover, and [pa], [ap] add up the other positions of the
    sites; a position under several sites of one annotation is counted
    once for each.  So [pp_[1] + pa] and [pp_[2] + ap] are the total
    lengths of the sites of the two annotations. *)
Theorem gross_counts_follow_sites (o : Options) (cs : CurrentSequence) :
  gross o = true ->
  valid_sequence cs ->
  exists calc,
    init o cs = Ok calc /\
    forall detailed_file_h,
      let r := results (fst (calculate_residue_wise calc detailed_file_h)) in
      let sites1 := fst (sites cs) in
      let sites2 := snd (sites cs) in
      fst (pp_ r) = sum_over (shared cs) sites1 /\
      snd (pp_ r) = sum_over (shared cs) sites2 /\
      pa r = total_length sites1 - sum_over (shared cs) sites1 /\
      ap r = total_length sites2 - sum_over (shared cs) sites2 /\
      aa r = count_positions (length cs)
               (fun p => negb (covered sites1 p) && negb (covered sites2 p)).
Proof.
  intros Hg Hv. eexists. split; [apply classified_as_covered; exact Hv |].
  intros h. unfold calculate_residue_wise. cbn [opt]. rewrite Hg.
  cbn [fold_left fst snd current_seq results get2].
  set (self := mkCalculator o cs _ new_measures).
  assert (Hw : forall l, Forall (valid_site (length cs)) l ->
                         Forall (fun s => matched_under self s = shared cs s) l).
  { intros l Hl. eapply Forall_impl; [| exact Hl].
    intros s Hs. now apply matched_under_shared. }
  destruct Hv as (Hlen & Hv1 & Hv2).
  destruct (gross_fold_first self (shared cs) (fst (sites cs)) (Hw _ Hv1)
              (set_ap (set_pa new_measures 0) 0)) as (F1 & F2 & F3 & F4).
  destruct (gross_fold_second self (shared cs) (snd (sites cs)) (Hw _ Hv2)
              (fold_left (fun r s => gross_step self A1 s r)
                 (fst (sites cs)) (set_ap (set_pa new_measures 0) 0)))
    as (B1 & B2 & B3 & B4).
  cbn zeta in *.
  cbn [with_results results set_aa pp_ pa ap aa fst snd].
  rewrite B3, B1, B4, B2, F1, F2, F3, F4. cbn.
  repeat split; try lia.
  apply count_code. intros p.
  destruct (covered (fst (sites cs)) p), (covered (snd (sites cs)) p);
    reflexivity.
Qed.

Lemma gross_counts_follow_sites_witness :
  exists calc,
    init Examples.gross_options Examples.sequence = Ok calc /\
    let r := results (fst (calculate_residue_wise calc None)) in
    fst (pp_ r) = 3 /\ pa r = 5 - 3.
Proof.
  destruct (gross_counts_follow_sites Examples.gross_options Examples.sequence
              eq_refl BooleanFacts.example_sequence_valid)
    as (calc & Hinit & Hcounts).
  exists calc. split; [exact Hinit |].
  destruct (Hcounts None) as (H1 & _ & H3 & _).
  split; [rewrite H1 | rewrite H3]; reflexivity.
Defined.

End ClassificationFacts.

(** ** The rows of the derived annotation files *)

Module IntervalFacts.

Import Positions.

(** A loop over [range(n)] with an invariant that depends on the index. *)
Lemma for_range {St : Type} (P : Z -> St -> Prop) (body : Z -> St -> res St)
  (n : Z) :
  0 <= n ->
  (forall k st, 0 <= k < n -> P k st ->
     exists st', body k st = Ok st' /\ P (k + 1) st') ->
  forall st, P 0 st ->
  exists st', for_each (py_range 0 n) body st = Ok st' /\ P n st'.
Proof.
  intros Hn Hbody st H0. unfold py_range.
  replace (Z.to_nat (n - 0)) with (Z.to_nat n) by lia.
  assert (Haux : forall m s st,
             Z.of_nat (s + m) = n -> P (Z.of_nat s) st ->
             exists st',
               for_each (map (fun k => 0 + Z.of_nat k) (List.seq s m)) body st
               = Ok st' /\ P n st').
  { induction m as [| m IH]; intros s st0 Hs Hst.
    - exists st0. split; [reflexivity |].
      replace n with (Z.of_nat s) by lia. exact Hst.
    - cbn [List.seq map for_each].
      destruct (Hbody (Z.of_nat s) st0) as (st1 & Hrun & Hst1); [lia | exact Hst |].
      replace (0 + Z.of_nat s) with (Z.of_nat s) by lia.
      rewrite Hrun. cbn [bind]. apply IH; [lia |].
      replace (Z.of_nat (S s)) with (Z.of_nat s + 1) by lia. exact Hst1. }
  apply (Haux (Z.to_nat n) 0%nat); [lia | exact H0].
Qed.

Lemma rows_cover_app (a b : list SiteRow) (p : Z) :
  rows_cover (a ++ b) p = rows_cover a p || rows_cover b p.
Proof. unfold rows_cover. apply existsb_app. Qed.

Lemma separated_snoc (rows : list SiteRow) (r : SiteRow) :
  separated rows = true ->
  Forall (fun x => row_end x + 1 < row_begin r) rows ->
  separated (rows ++ [r]) = true.
Proof.
  induction rows as [| x rest IH]; intros Hs Hb; [reflexivity |].
  inversion Hb as [| ? ? Hx Hrest]; subst.
  destruct rest as [| y rest'].
  - cbn. apply andb_true_iff. split; [lia | reflexivity].
  - cbn [separated app] in *. apply andb_true_iff in Hs as [Hxy Hs].
    apply andb_true_iff. split; [exact Hxy | now apply IH].
Qed.

Lemma cover_one (cs : CurrentSequence) (group : option string) (b e p : Z) :
  rows_cover [mkSiteRow group (SID cs) b e] p = (b <=? p) && (p <=? e).
Proof. unfold rows_cover, row_covers. cbn. apply orb_false_r. Qed.

Ltac leb_cases :=
  repeat match goal with
    | |- context [?a <=? ?b] => destruct (Z.leb_spec a b)
    end; cbn [andb orb].

Lemma scan_step_scanned (cs : CurrentSequence)
  (in_type : FileType -> Z -> res bool) (t : FileType) (f : Z -> bool)
  (rows0 : list SiteRow) :
  (forall idx, 0 <= idx < length cs -> in_type t idx = Ok (f idx)) ->
  forall k st, 0 <= k < length cs -> scanned cs f rows0 k st ->
  exists st', scan_step cs in_type t k st = Ok st' /\
              scanned cs f rows0 (k + 1) st'.
Proof.
  intros Hin k [[in_site begin_idx] rows] Hk
    (runs & bound & Hrows & Hsep & Hwf & Hcov & Hb & Hstate).
  unfold scan_step. rewrite (Hin k Hk). cbn [bind].
  destruct (f k) eqn:Hfk, in_site; cbn [negb].
  - (* inside a run, the predicate holds *)
    destruct Hstate as (Hbi & Hlt & Hrun).
    eexists. split; [reflexivity |].
    exists runs, bound. repeat split; try assumption; try lia.
    intros i Hi. destruct (Z.eq_dec i k) as [-> | Hne]; [exact Hfk |].
    apply Hrun. lia.
  - (* a run opens *)
    subst bound. eexists. split; [reflexivity |].
    exists runs, k. repeat split; try assumption; try lia.
    intros i Hi. replace i with k by lia. exact Hfk.
  - (* the run is closed and written *)
    destruct Hstate as (-> & Hlt & Hrun). cbn [write_site bind].
    eexists. split; [reflexivity |].
    exists (runs ++ [mkSiteRow
                       (if String.eqb (GID cs) EmptyString then None
                        else Some (GID cs))
                       (SID cs) (bound + 1) k]), (k + 1).
    repeat split; try lia.
    + subst rows. now rewrite app_assoc.
    + apply separated_snoc; [exact Hsep |].
      eapply Forall_impl; [| exact Hwf]. cbn. intros r (_ & H & _). lia.
    + apply Forall_app. split.
      * eapply Forall_impl; [| exact Hwf]. cbn. intros r (H1 & H2 & H3).
        repeat split; try lia. exact H3.
      * repeat constructor; cbn; lia.
    + intros p. rewrite rows_cover_app, Hcov, cover_one.
      destruct (Z_le_gt_dec p bound) as [Hp | Hp].
      * leb_cases; try lia; try reflexivity. now rewrite orb_false_r.
      * destruct (Z_le_gt_dec p k) as [Hpk | Hpk].
        -- rewrite (Hrun (p - 1)) by lia. leb_cases; try lia; reflexivity.
        -- destruct (Z.eq_dec p (k + 1)) as [-> | Hne].
           ++ replace (k + 1 - 1) with k by lia. rewrite Hfk.
              leb_cases; try lia; reflexivity.
           ++ leb_cases; try lia; reflexivity.
  - (* outside a run, the predicate fails *)
    subst bound. eexists. split; [reflexivity |].
    exists runs, (k + 1). repeat split; try assumption; try lia.
    + eapply Forall_impl; [| exact Hwf]. cbn. intros r (H1 & H2 & H3).
      repeat split; try lia. exact H3.
    + intros p. rewrite Hcov.
      destruct (Z.eq_dec p (k + 1)) as [-> | Hne].
      * replace (k + 1 - 1) with k by lia. rewrite Hfk.
        leb_cases; try lia; reflexivity.
      * leb_cases; try lia; reflexivity.
Qed.

Lemma scan_runs (cs : CurrentSequence)
  (in_type : FileType -> Z -> res bool) (t : FileType) (f : Z -> bool)
  (rows0 : list SiteRow) :
  0 <= length cs ->
  (forall idx, 0 <= idx < length cs -> in_type t idx = Ok (f idx)) ->
  exists runs,
    scan cs in_type t rows0 = Ok (rows0 ++ runs) /\
    separated runs = true /\
    Forall (fun r => 1 <= row_begin r <= row_end r /\
                     row_end r <= length cs /\ row_SID r = SID cs) runs /\
    forall p, rows_cover runs p
              = (1 <=? p) && (p <=? length cs) && f (p - 1).
Proof.
  intros Hlen Hin. unfold scan.
  destruct (for_range (scanned cs f rows0) (scan_step cs in_type t)
              (length cs) Hlen) with (st := (false, @None Z, rows0))
    as ([[in_site begin_idx] rows] & Hrun & Hfinal).
  - intros k st Hk Hst. now apply scan_step_scanned.
  - exists [], 0. repeat split; try lia.
    + now rewrite app_nil_r.
    + constructor.
    + intros p. cbn. leb_cases; try lia; reflexivity.
  - rewrite Hrun. cbn [bind].
    destruct Hfinal as (runs & bound & Hrows & Hsep & Hwf & Hcov & Hb & Hstate).
    destruct in_site.
    + destruct Hstate as (-> & Hlt & Hopen). cbn [write_site].
      exists (runs ++ [mkSiteRow
                         (if String.eqb (GID cs) EmptyString then None
                          else Some (GID cs))
                         (SID cs) (bound + 1) (length cs)]).
      repeat split.
      * subst rows. now rewrite app_assoc.
      * apply separated_snoc; [exact Hsep |].
        eapply Forall_impl; [| exact Hwf]. cbn. intros r (_ & H & _). lia.
      * apply Forall_app. split.
        -- eapply Forall_impl; [| exact Hwf]. cbn. intros r (H1 & H2 & H3).
           repeat split; try lia. exact H3.
        -- repeat constructor; cbn; lia.
      * intros p. rewrite rows_cover_app, Hcov, cover_one.
        destruct (Z_le_gt_dec p bound) as [Hp | Hp].
        -- leb_cases; try lia; try reflexivity. now rewrite orb_false_r.
        -- destruct (Z_le_gt_dec p (length cs)) as [Hpk | Hpk].
           ++ rewrite (Hopen (p - 1)) by lia. leb_cases; try lia; reflexivity.
           ++ leb_cases; try lia; reflexivity.
    + subst bound. exists runs. repeat split; try assumption.
      * now subst rows.
      * eapply Forall_impl; [| exact Hwf]. cbn. intros r (H1 & H2 & H3).
        repeat split; try lia. exact H3.
Qed.

(** The scan of [write_to_files] for one file.  When the predicate of the
    file answers at every index of the sequence, the scan appends rows
    that cover exactly the positions where the predicate holds; every row
    lies in [1..length] and names the sequence, and two rows in a row
    leave a position between them: the rows are the maximal runs of the
    predicate. *)
Theorem scan_writes_maximal_runs (cs : CurrentSequence)
  (in_type : FileType -> Z -> res bool) (t : FileType) (f : Z -> bool)
  (rows0 : list SiteRow) :
  0 <= length cs ->
  (forall idx, 0 <= idx < length cs -> in_type t idx = Ok (f idx)) ->
  exists runs,
    scan cs in_type t rows0 = Ok (rows0 ++ runs) /\
    separated runs = true /\
    Forall (fun r => 1 <= row_begin r <= row_end r /\
                     row_end r <= length cs /\ row_SID r = SID cs) runs /\
    forall p, rows_cover runs p
              = (1 <=? p) && (p <=? length cs) && f (p - 1).
Proof. exact (scan_runs cs in_type t f rows0). Qed.

Lemma scan_writes_maximal_runs_witness :
  exists runs,
    scan Examples.sequence (fun _ idx => Ok (Z.even idx)) Union [] = Ok runs /\
    separated runs = true /\
    rows_cover runs 3 = true /\ rows_cover runs 4 = false.
Proof.
  destruct (scan_writes_maximal_runs Examples.sequence
              (fun _ idx => Ok (Z.even idx)) Union Z.even [])
    as (runs & Hscan & Hsep & _ & Hcov).
  - cbn; lia.
  - reflexivity.
  - exists runs. repeat split; [exact Hscan | exact Hsep | |];
      rewrite Hcov; reflexivity.
Defined.

Lemma covered_in_range (len : Z) (sites : list Site) (p : Z) :
  Forall (valid_site len) sites -> covered sites p = true -> 1 <= p <= len.
Proof.
  intros Hv Hc. unfold covered in Hc. apply existsb_exists in Hc as (s & Hin & Hs).
  rewrite Forall_forall in Hv. destruct (Hv s Hin) as (H1 & H2 & H3).
  unfold covers in Hs. apply andb_true_iff in Hs as [Hb He].
  apply Z.leb_le in Hb, He. lia.
Qed.

Lemma boolean_scan (o : Options) (cs : CurrentSequence) (calc : Boolean.Calculator)
  (t : FileType) (rows0 : list SiteRow) :
  valid_sequence cs ->
  Boolean.init o cs = Ok calc ->
  boolean_file t ->
  exists runs,
    scan cs (Boolean.in_type calc) t rows0 = Ok (rows0 ++ runs) /\
    separated runs = true /\
    Forall (fun r => 1 <= row_begin r <= row_end r /\
                     row_end r <= length cs /\ row_SID r = SID cs) runs /\
    forall p, rows_cover runs p
              = boolean_test t (covered (fst (sites cs)) p)
                               (covered (snd (sites cs)) p).
Proof.
  intros Hv Hinit Ht.
  destruct (ClassificationFacts.predicates_cells o cs Hv)
    as (calc' & Hinit' & Hpred).
  rewrite Hinit in Hinit'. inversion Hinit'; subst calc'. clear Hinit'.
  destruct (scan_runs cs (Boolean.in_type calc) t
              (fun idx => boolean_test t (covered (fst (sites cs)) (idx + 1))
                                         (covered (snd (sites cs)) (idx + 1)))
              rows0) as (runs & Hscan & Hsep & Hwf & Hcov).
  - apply Hv.
  - intros idx Hidx. destruct (Hpred (idx + 1)) as (Hu & Hi & Hc1 & Hc2); [lia |].
    replace (idx + 1 - 1) with idx in * by lia.
    destruct Ht as [-> | [-> | [-> | ->]]]; cbn [Boolean.in_type boolean_test];
      assumption.
  - exists runs. repeat split; try assumption.
    intros p. rewrite Hcov. replace (p - 1 + 1) with p by lia.
    destruct (boolean_test t (covered (fst (sites cs)) p)
                (covered (snd (sites cs)) p)) eqn:Htest;
      [| now rewrite andb_false_r].
    assert (Hc : covered (fst (sites cs)) p = true \/
                 covered (snd (sites cs)) p = true).
    { destruct Ht as [-> | [-> | [-> | ->]]]; cbn [boolean_test] in Htest;
        destruct (covered (fst (sites cs)) p), (covered (snd (sites cs)) p);
        try discriminate Htest; auto. }
    destruct Hv as (_ & Hv1 & Hv2).
    assert (Hp : 1 <= p <= length cs)
      by (destruct Hc as [Hc | Hc];
          [apply (covered_in_range _ _ _ Hv1 Hc)
          | apply (covered_in_range _ _ _ Hv2 Hc)]).
    leb_cases; try lia; reflexivity.
Qed.

(** In Boolean mode, for a valid sequence, each derived file gets rows that
    cover exactly the positions of its category: the union file the
    positions in a site of either annotation, the intersection file those
    in sites of both, the complement files those in a site of the other
    annotation only.  The rows are separated maximal runs inside the
    sequence. *)
Theorem boolean_files_follow_coverage (o : Options) (cs : CurrentSequence)
  (t : FileType) (rows0 : list SiteRow) :
  valid_sequence cs ->
  boolean_file t ->
  exists calc runs,
    Boolean.init o cs = Ok calc /\
    scan cs (Boolean.in_type calc) t rows0 = Ok (rows0 ++ runs) /\
    separated runs = true /\
    Forall (fun r => 1 <= row_begin r <= row_end r /\
                     row_end r <= length cs /\ row_SID r = SID cs) runs /\
    forall p, rows_cover runs p
              = boolean_test t (covered (fst (sites cs)) p)
                               (covered (snd (sites cs)) p).
Proof.
  intros Hv Ht.
  destruct (BooleanFacts.init_ok o cs Hv) as (a & Hinit & _).
  destruct (boolean_scan o cs _ t rows0 Hv Hinit Ht) as (runs & H).
  eexists. exists runs. split; [exact Hinit | exact H].
Qed.

Lemma boolean_files_follow_coverage_witness :
  exists calc runs,
    Boolean.init Examples.options Examples.sequence = Ok calc /\
    scan Examples.sequence (Boolean.in_type calc) Intersection []
    = Ok runs /\
    rows_cover runs 4 = true /\ rows_cover runs 7 = false.
Proof.
  destruct (boolean_files_follow_coverage Examples.options Examples.sequence
              Intersection [] BooleanFacts.example_sequence_valid)
    as (calc & runs & Hinit & Hscan & _ & _ & Hcov).
  - right; left; reflexivity.
  - exists calc, runs. repeat split; [exact Hinit | exact Hscan | |];
      rewrite Hcov; reflexivity.
Defined.

End IntervalFacts.

(** ** Matching sites *)

Module MatchingFacts.

Import Boolean.

Lemma overlapped_cases (o : Options) (s s_ : Site) (i : anno) :
  get_overlapped_symbols o s s_ i = 0 \/
  get_overlapped_symbols o s s_ i
  = Z.max 0 (Z.min (site_end s) (site_end s_)
             - Z.max (site_begin s) (site_begin s_) + 1).
Proof.
  unfold get_overlapped_symbols. rewrite BooleanFacts.overlap_extent.
  destruct (predictor_nature o); auto;
    repeat match goal with
      | |- context [if ?c then _ else _] => destruct c
      end; auto.
Qed.

(** The overlap of two sites whose begin does not exceed their end is never
    negative and never longer than either site, whatever the predictor
    nature; so it does not exceed the effective site length of any policy,
    which is at least 1, and the share [overlap / length] lies in [0, 1].
    Sites with an overlap of at least one symbol share a position. *)
Theorem overlap_within_lengths (o : Options) (s s_ : Site) (i : anno) :
  site_begin s <= site_end s ->
  site_begin s_ <= site_end s_ ->
  let overlapped := get_overlapped_symbols o s s_ i in
  0 <= overlapped <= site_end s - site_begin s + 1 /\
  overlapped <= site_end s_ - site_begin s_ + 1 /\
  (forall len, get_site_length o s s_ = Some len ->
               1 <= len /\ overlapped <= len) /\
  (1 <= overlapped -> exists p, covers s p = true /\ covers s_ p = true).
Proof.
  intros Hs Hs_. cbn zeta.
  pose proof (overlapped_cases o s s_ i) as Hcases.
  repeat split.
  - destruct Hcases as [-> | ->]; lia.
  - destruct Hcases as [-> | ->]; lia.
  - destruct Hcases as [-> | ->]; lia.
  - unfold get_site_length in H. destruct (overlap_apply o);
      inversion H; subst; lia.
  - unfold get_site_length in H.
    destruct (overlap_apply o); inversion H; subst;
      destruct Hcases as [-> | ->]; lia.
  - intros Hov. exists (Z.max (site_begin s) (site_begin s_)).
    unfold covers. rewrite !andb_true_iff, !Z.leb_le.
    destruct Hcases as [H0 | Hext]; lia.
Qed.

Lemma overlap_within_lengths_witness :
  0 <= get_overlapped_symbols Examples.options (site 3 5) (site 4 10) A1 <= 3.
Proof.
  exact (proj1 (overlap_within_lengths Examples.options (site 3 5) (site 4 10)
                  A1 ltac:(cbn; lia) ltac:(cbn; lia))).
Defined.

(** With the neutral predictor nature, under 'shortest' and under
    'longest', the sufficiency test of a pair of sites does not depend on
    which of the two is the site and which the candidate. *)
Theorem sufficiency_is_symmetric (o : Options) (s s_ : Site) (i k : anno) :
  predictor_nature o = Neutral ->
  overlap_apply o = Shortest \/ overlap_apply o = Longest ->
  check_overlap_sufficiency o (get_overlapped_symbols o s s_ i)
    (get_site_length o s s_)
  = check_overlap_sufficiency o (get_overlapped_symbols o s_ s k)
      (get_site_length o s_ s).
Proof.
  intros Hn Ha.
  assert (Hov : get_overlapped_symbols o s s_ i
                = get_overlapped_symbols o s_ s k).
  { unfold get_overlapped_symbols. rewrite Hn. lia. }
  assert (Hlen : get_site_length o s s_ = get_site_length o s_ s).
  { unfold get_site_length. destruct Ha as [-> | ->]; f_equal; lia. }
  now rewrite Hov, Hlen.
Qed.

Lemma sufficiency_is_symmetric_witness :
  check_overlap_sufficiency Examples.options
    (get_overlapped_symbols Examples.options (site 3 5) (site 4 10) A1)
    (get_site_length Examples.options (site 3 5) (site 4 10))
  = check_overlap_sufficiency Examples.options
      (get_overlapped_symbols Examples.options (site 4 10) (site 3 5) A2)
      (get_site_length Examples.options (site 4 10) (site 3 5)).
Proof.
  apply sufficiency_is_symmetric; [reflexivity | left; reflexivity].
Defined.

(** The partner that [calculate_site_wise] finds for a site is a site of
    the other annotation that begins no later than the site ends and whose
    overlap passes the sufficiency test, so it has at least
    [overlap_symbols] symbols in common; no site listed before it passes
    the test: the first sufficient candidate wins. *)
Theorem found_match_is_first_sufficient (o : Options) (s : Site) (i : anno)
  (candidates : list Site) (s_ : Site) (overlapped : Z) :
  find_match o s i candidates = Ok (Some (s_, overlapped)) ->
  overlapped = get_overlapped_symbols o s s_ i /\
  site_begin s_ <= site_end s /\
  overlap_symbols o <= overlapped /\
  check_overlap_sufficiency o overlapped (get_site_length o s s_) = Ok true /\
  exists before after,
    candidates = before ++ s_ :: after /\
    Forall (fun x =>
              check_overlap_sufficiency o (get_overlapped_symbols o s x i)
                (get_site_length o s x) = Ok false) before.
Proof.
  induction candidates as [| c rest IH]; cbn [find_match]; [discriminate |].
  destruct (site_begin c >? site_end s) eqn:Hbreak; [discriminate |].
  destruct (check_overlap_sufficiency o (get_overlapped_symbols o s c i)
              (get_site_length o s c)) as [[|] |] eqn:Hcheck;
    cbn [bind]; [| | discriminate].
  - intros H. inversion H; subst. repeat split; try assumption; try lia.
    + unfold check_overlap_sufficiency in Hcheck.
      destruct (_ >=? _) eqn:Hge; [lia | discriminate].
    + exists [], rest. split; [reflexivity | constructor].
  - intros H. destruct (IH H) as (H1 & H2 & H3 & H4 & before & after & -> & Hb).
    repeat split; try assumption.
    exists (c :: before), after. split; [reflexivity |].
    constructor; assumption.
Qed.

Lemma found_match_is_first_sufficient_witness :
  find_match Examples.options (site 3 5) A1 [site 1 2; site 4 10]
  = Ok (Some (site 4 10, 2)) /\
  overlap_symbols Examples.options <= 2.
Proof.
  split; [reflexivity |].
  exact (proj1 (proj2 (proj2 (found_match_is_first_sufficient Examples.options
                                 (site 3 5) A1 [site 1 2; site 4 10]
                                 (site 4 10) 2 eq_refl)))).
Defined.

(** The early exit loses no match.  When the candidates are sorted by begin
    and at least one common symbol is required, a search that ends without
    a partner has left no sufficient candidate behind, neither before nor
    after the point where it stopped. *)
Theorem no_match_means_none_sufficient (o : Options) (s : Site) (i : anno)
  (candidates : list Site) :
  1 <= overlap_symbols o ->
  sorted_by_begin candidates = true ->
  find_match o s i candidates = Ok None ->
  Forall (fun x =>
            check_overlap_sufficiency o (get_overlapped_symbols o s x i)
              (get_site_length o s x) = Ok false) candidates.
Proof.
  intros Hsym Hsorted.
  induction candidates as [| c rest IH]; intros Hfind; [constructor |].
  cbn [find_match] in Hfind.
  destruct (site_begin c >? site_end s) eqn:Hbreak.
  - (* the loop breaks: the overlap with this and every later site is 0 *)
    apply Forall_forall. intros x Hx.
    assert (Hbegin : site_end s < site_begin x).
    { destruct Hx as [<- | Hx]; [lia |].
      pose proof (ResolutionFacts.sorted_In c x rest Hsorted Hx). lia. }
    assert (H0 : get_overlapped_symbols o s x i = 0)
      by (destruct (overlapped_cases o s x i) as [H | H]; lia).
    unfold check_overlap_sufficiency. rewrite H0.
    destruct (0 >=? overlap_symbols o) eqn:Hge; [lia | reflexivity].
  - destruct (check_overlap_sufficiency o (get_overlapped_symbols o s c i)
                (get_site_length o s c)) as [[|] |] eqn:Hcheck;
      cbn [bind] in Hfind; try discriminate Hfind.
    constructor; [exact Hcheck |].
    apply IH; [now apply ResolutionFacts.sorted_tail in Hsorted | exact Hfind].
Qed.

Lemma no_match_means_none_sufficient_witness :
  find_match Examples.options (site 3 5) A1 [site 1 2; site 6 10] = Ok None /\
  Forall (fun x =>
            check_overlap_sufficiency Examples.options
              (get_overlapped_symbols Examples.options (site 3 5) x A1)
              (get_site_length Examples.options (site 3 5) x) = Ok false)
    [site 1 2; site 6 10].
Proof.
  split; [reflexivity |].
  apply no_match_means_none_sufficient; [cbn; lia | reflexivity | reflexivity].
Defined.

(** *** The total length of the sites *)

Lemma count_site_keeps_len (b : bool) (i : anno) (r : BasicBooleanMeasures) :
  site_len (count_site b i r) = site_len r.
Proof. unfold count_site. destruct b; reflexivity. Qed.

Lemma pairwise_step_len (self : Calculator) (i : anno) (s : Site)
  (last_end : Z) (st : SiteState) (st' : Z * SiteState) :
  pairwise_step self i s (last_end, st) = Ok st' ->
  fst st' = site_end s /\
  site_len (state_results (snd st'))
  = set2 i
      (get2 i (site_len (state_results st))
       + (site_end s
          - (if gross (opt self) then site_begin s
             else Z.max (site_begin s) (last_end + 1))
          + 1))
      (site_len (state_results st)).
Proof.
  destruct st as [[r dh] sh]. unfold pairwise_step.
  intros H. BooleanFacts.unbind H; inversion H; subst;
    cbn [fst snd state_results]; rewrite count_site_keeps_len;
    split; reflexivity.
Qed.

Lemma patched_step_len (self : Calculator) (i : anno) (s : Site)
  (st st' : SiteState) :
  patched_step self i s st = Ok st' ->
  site_len (state_results st') = site_len (state_results st).
Proof.
  destruct st as [[r dh] sh]. unfold patched_step.
  intros H. BooleanFacts.unbind H; inversion H; subst;
    cbn [fst state_results]; apply count_site_keeps_len.
Qed.

(** The loop over the sites of annotation [i] under a pairwise policy adds
    the length of every site, with gross counting, or when each site
    begins after the one before it has ended. *)
Lemma pairwise_loop_len (self : Calculator) (i : anno) (l : list Site) :
  forall last_end st st',
    for_each l (pairwise_step self i) (last_end, st) = Ok st' ->
    gross (opt self) = true \/
    (Overlap.non_overlapping l = true /\
     match l with [] => True | s :: _ => last_end < site_begin s end) ->
    get2 i (site_len (state_results (snd st')))
    = get2 i (site_len (state_results st)) + Positions.total_length l /\
    get2 (other i) (site_len (state_results (snd st')))
    = get2 (other i) (site_len (state_results st)).
Proof.
  induction l as [| s rest IH]; intros le st st' Hrun Hcase.
  - cbn in Hrun. inversion Hrun; subst. cbn. split; lia.
  - cbn [for_each] in Hrun.
    destruct (pairwise_step self i s (le, st)) as [[le1 st1] |] eqn:Hstep;
      [| discriminate Hrun].
    cbn [bind] in Hrun.
    apply pairwise_step_len in Hstep as [Hle Hlen]. cbn [fst snd] in Hle, Hlen.
    subst le1.
    destruct (IH _ _ _ Hrun) as [H1 H2].
    { destruct Hcase as [Hg | [Hd Hhead]]; [now left | right].
      apply ResolutionFacts.non_overlapping_tail in Hd as [Hnext Hd].
      split; [exact Hd |]. destruct rest; [exact I | exact Hnext]. }
    rewrite H1, H2, Hlen.
    change (Positions.total_length (s :: rest))
      with (site_end s - site_begin s + 1 + Positions.total_length rest).
    assert (Heff : (if gross (opt self) then site_begin s
                    else Z.max (site_begin s) (le + 1)) = site_begin s).
    { destruct Hcase as [-> | [_ Hhead]]; [reflexivity |].
      destruct (gross (opt self)); [reflexivity | lia]. }
    rewrite Heff.
    destruct i, (site_len (state_results st)) as [x y]; cbn; split; lia.
Qed.

Lemma patched_loop_len (self : Calculator) (i : anno) (l : list Site) :
  forall st st',
    for_each l (patched_step self i) st = Ok st' ->
    site_len (state_results st') = site_len (state_results st).
Proof.
  intros st st' Hrun.
  apply (BooleanFacts.for_each_inv
           (fun x => site_len (state_results x) = site_len (state_results st))
           (patched_step self i) l) with (st := st);
    [| reflexivity | exact Hrun].
  intros s x x' Hx Hstep. apply patched_step_len in Hstep. congruence.
Qed.

(** [site_len[i]] after [calculate_site_wise], on a record that starts at
    zero.  Under 'shortest', 'longest' and 'current' it is the total
    length of the sites of annotation [i], with gross counting or when the
    sites of each annotation are pairwise disjoint and begin at positive
    positions; under 'patched' it is never updated and stays zero. *)
Theorem site_len_after_site_wise (self self' : Calculator)
  (dh dh' : option (list DetailedLine)) (sh sh' : option (list StatRow)) :
  calculate_site_wise self dh sh = Ok (self', dh', sh') ->
  site_len (results self) = (0, 0) ->
  match overlap_apply (opt self) with
  | Patched => site_len (results self') = (0, 0)
  | _ =>
      gross (opt self) = true \/
      (forall i, Overlap.non_overlapping (get2 i (sites (current_seq self)))
                 = true /\
                 Runs.positive_begins (get2 i (sites (current_seq self)))) ->
      site_len (results self')
      = (Positions.total_length (fst (sites (current_seq self))),
         Positions.total_length (snd (sites (current_seq self))))
  end.
Proof.
  unfold calculate_site_wise. intros H Hzero.
  destruct (match overlap_apply (opt self) with
            | OtherApply _ => _ | _ => _ end) as [[st1 j] |] eqn:Hloops;
    [| discriminate H].
  cbn [bind] in H.
  destruct (for_each [A1; A2] (summary_step self j) st1)
    as [[[r dh2] sh2] |] eqn:Hsum; [| discriminate H].
  cbn [bind] in H. inversion H; subst; clear H. cbn [with_results results].
  assert (Hr : state_results (r, dh', sh') = state_results st1).
  { eapply (BooleanFacts.for_each_inv
              (fun st => state_results st = state_results st1));
      [| reflexivity | exact Hsum].
    intros i st st' Hst Hstep.
    apply BooleanFacts.summary_step_keeps in Hstep. congruence. }
  cbn [state_results fst] in Hr. rewrite Hr. clear Hr Hsum.
  assert (Hpair :
    forall s1 s2 l2,
      for_each (get2 A1 (sites (current_seq self))) (pairwise_step self A1)
        (0, (results self, dh, sh)) = Ok (l2, s1) ->
      for_each (get2 A2 (sites (current_seq self))) (pairwise_step self A2)
        (0, s1) = Ok s2 ->
      gross (opt self) = true \/
      (forall i, Overlap.non_overlapping (get2 i (sites (current_seq self)))
                 = true /\
                 Runs.positive_begins (get2 i (sites (current_seq self)))) ->
      site_len (state_results (snd s2))
      = (Positions.total_length (fst (sites (current_seq self))),
         Positions.total_length (snd (sites (current_seq self))))).
  { intros s1 s2 l2 H1 H2 Hcase.
    assert (Hc : forall i,
               gross (opt self) = true \/
               (Overlap.non_overlapping (get2 i (sites (current_seq self)))
                = true /\
                match get2 i (sites (current_seq self)) with
                | [] => True
                | s :: _ => 0 < site_begin s
                end)).
    { intros i. destruct Hcase as [Hg | Hd]; [now left | right].
      destruct (Hd i) as [Hdis Hpos]. split; [exact Hdis |].
      destruct (get2 i (sites (current_seq self))); [exact I |].
      inversion Hpos; subst. lia. }
    destruct (pairwise_loop_len self A1 _ _ _ _ H1 (Hc A1)) as [Ha Hb].
    destruct (pairwise_loop_len self A2 _ _ _ _ H2 (Hc A2)) as [Hc2 Hd2].
    cbn [snd get2 other] in *.
    unfold state_results at 2 in Ha. unfold state_results at 2 in Hb.
    cbn [fst] in Ha, Hb. rewrite Hzero in Ha, Hb. cbn [fst snd] in Ha, Hb.
    destruct (site_len (state_results (snd s2))) as [x y].
    cbn [fst snd] in *. f_equal; lia. }
  destruct (overlap_apply (opt self)); try discriminate Hloops;
    cbn [for_each] in Hloops; BooleanFacts.unbind_all.
  1-3: intros Hcase; eapply (Hpair _ (_, _)); eassumption.
  unfold state_results in *.
  match goal with
  | H1 : for_each _ (patched_step self A1) _ = Ok ?s1,
    H2 : for_each _ (patched_step self A2) ?s1 = Ok _ |- _ =>
      apply patched_loop_len in H1; apply patched_loop_len in H2;
      unfold state_results in H1, H2; cbn [fst] in H1, H2;
      rewrite H2, H1; exact Hzero
  end.
Qed.

Lemma site_len_after_site_wise_witness :
  exists calc calc',
    init Examples.options Examples.sequence = Ok calc /\
    calculate_site_wise calc None None = Ok (calc', None, None) /\
    site_len (results calc') = (5, 6).
Proof.
  destruct (BooleanFacts.init_ok Examples.options Examples.sequence
              BooleanFacts.example_sequence_valid) as (a & Hinit & _).
  destruct (BooleanFacts.calculate_site_wise_quiet
              (mkCalculator Examples.options Examples.sequence a new_measures)
              I BooleanFacts.example_sequence_valid) as (calc' & Hrun).
  eexists. exists calc'. split; [exact Hinit | split; [exact Hrun |]].
  pose proof (site_len_after_site_wise _ _ _ _ _ _ Hrun eq_refl) as Hlen.
  cbn in Hlen. apply Hlen. right.
  intros [|]; split; try reflexivity; repeat constructor; cbn; lia.
Defined.

(** *** 'patched' and the site file *)

Lemma patched_step_raises (self : Calculator) (i : anno) (s : Site)
  (r : BasicBooleanMeasures) (dh : option (list DetailedLine))
  (rows : list StatRow) :
  valid_site (length (current_seq self)) s ->
  site_names (opt self) = false ->
  site_difference (opt self) <> DiffUnmatched ->
  exists var,
    patched_step self i s (r, dh, Some rows) = Raise (NameError var).
Proof.
  intros (H1 & H2 & H3) Hnames Hdiff. unfold patched_step.
  destruct (BooleanFacts.check_overlap_sufficiency_ok (opt self)
              (matched_under self s) (site_end s - site_begin s + 1))
    as (found & ->); [lia |].
  cbn [bind]. rewrite orb_true_r. unfold name_if_names. rewrite Hnames.
  assert (Hperc : exists perc,
             percent (matched_under self s) (site_end s - site_begin s + 1)
             = Ok perc).
  { unfold percent, py_truediv.
    destruct (site_end s - site_begin s + 1 =? 0) eqn:Hz; [lia |].
    cbn [bind]. now eexists. }
  destruct Hperc as (perc & Hperc).
  destruct found, dh as [lines |]; cbn [is_some bind andb];
    try rewrite Hperc; cbn [bind local];
    try (eexists; reflexivity);
    destruct (site_difference (opt self)); try contradiction;
    cbn [bind local]; eexists; reflexivity.
Qed.

(** Under 'patched' the per-site statistics cannot be written.  With the
    site file open, unnamed sites and a [site_difference] other than
    'unmatched', [calculate_site_wise] stops at the first site of the first
    annotation with a NameError: the branch uses [overlapped_symbols] (and,
    for the detailed file, [j]) without having assigned it. *)
Theorem patched_site_statistics_raise (self : Calculator)
  (dh : option (list DetailedLine)) (rows : list StatRow) :
  overlap_apply (opt self) = Patched ->
  site_names (opt self) = false ->
  site_difference (opt self) <> DiffUnmatched ->
  valid_sequence (current_seq self) ->
  fst (sites (current_seq self)) <> [] ->
  exists var,
    calculate_site_wise self dh (Some rows) = Raise (NameError var).
Proof.
  intros Hp Hnames Hdiff (_ & Hv1 & _) Hne.
  unfold calculate_site_wise. rewrite Hp. cbn [for_each get2].
  destruct (fst (sites (current_seq self))) as [| s rest]; [contradiction |].
  inversion Hv1 as [| ? ? Hs _]; subst.
  destruct (patched_step_raises self A1 s (results self) dh rows Hs Hnames Hdiff)
    as (var & Hstep).
  exists var. cbn [for_each]. rewrite Hstep. reflexivity.
Qed.

Lemma patched_site_statistics_raise_witness :
  exists calc var,
    init Examples.patched_options Examples.sequence = Ok calc /\
    calculate_site_wise calc None (Some []) = Raise (NameError var).
Proof.
  destruct (BooleanFacts.init_ok Examples.patched_options Examples.sequence
              BooleanFacts.example_sequence_valid) as (a & Hinit & _).
  destruct (patched_site_statistics_raise
              (mkCalculator Examples.patched_options Examples.sequence a
                 new_measures) None [])
    as (var & Hraise);
    [reflexivity | reflexivity | discriminate
    | exact BooleanFacts.example_sequence_valid | discriminate |].
  eexists. exists var. split; [exact Hinit | exact Hraise].
Defined.

End MatchingFacts.

(** ** The ratios of the performance table *)

Module RatioFacts.

Import Performance Ratios.

Local Open Scope R_scope.

Lemma ratio_defined (n d : R) : 0 < d -> ratio n d = Ok (Fl (n / d)).
Proof.
  intros Hd. unfold ratio, py_fdiv.
  destruct (Rlt_dec 0 d) as [_ | Hn]; [| contradiction].
  destruct (Req_dec_T d 0) as [Hz | _]; [lra | reflexivity].
Qed.

Lemma ratio_undefined (n d : R) : ~ 0 < d -> ratio n d = Ok NaN.
Proof.
  intros Hd. unfold ratio. destruct (Rlt_dec 0 d); [contradiction | reflexivity].
Qed.

(** A part over a whole: with [0 <= n <= d] the ratio returns, it is the
    not-a-number value exactly when [d = 0], and otherwise lies in [0, 1]. *)
Lemma ratio_of_part (n d : R) :
  0 <= n -> n <= d ->
  exists v, ratio n d = Ok v /\ (v = NaN <-> d = 0) /\ unit_or_nan v.
Proof.
  intros Hn Hd. destruct (Rlt_dec 0 d) as [Hpos | Hnpos].
  - exists (Fl (n / d)). split; [now apply ratio_defined |].
    split; [split; [discriminate | lra] |].
    cbn. split.
    + unfold Rdiv. apply Rmult_le_pos; [exact Hn |].
      left. now apply Rinv_0_lt_compat.
    + apply Rmult_le_reg_r with (r := d); [exact Hpos |].
      unfold Rdiv. rewrite Rmult_assoc, Rinv_l by lra. lra.
  - exists NaN. split; [now apply ratio_undefined |].
    split; [split; [lra | reflexivity] | exact I].
Qed.

(** The zero-denominator policy of the symbol-wise ratios.  On counts that
    are not negative, recall, precision, specificity, negative predictive
    value and performance coefficient never raise; each is the
    not-a-number value exactly when its denominator is zero and otherwise
    lies between 0 and 1. *)
Theorem ratios_are_shares_or_undefined (b : BasicMeasures) :
  nonnegative_counts b ->
  (exists v, calc_rc2 b = Ok v /\
             (v = NaN <-> fst (pp_ b) + pa b = 0) /\ unit_or_nan v) /\
  (exists v, calc_pr2 b = Ok v /\
             (v = NaN <-> snd (pp_ b) + ap b = 0) /\ unit_or_nan v) /\
  (exists v, calc_sp2 b = Ok v /\
             (v = NaN <-> aa b + ap b = 0) /\ unit_or_nan v) /\
  (exists v, calc_npv2 b = Ok v /\
             (v = NaN <-> aa b + pa b = 0) /\ unit_or_nan v) /\
  (exists v, calc_pc b = Ok v /\
             (v = NaN <-> snd (pp_ b) + ap b + pa b = 0) /\ unit_or_nan v).
Proof.
  intros (H1 & H2 & H3 & H4 & H5).
  unfold calc_rc2, calc_pr2, calc_sp2, calc_npv2, calc_pc. cbn zeta.
  repeat split; apply ratio_of_part; lra.
Qed.

Lemma quarters_nonnegative : nonnegative_counts Examples.quarters.
Proof. unfold nonnegative_counts. cbn. lra. Qed.

Lemma ratios_are_shares_or_undefined_witness :
  exists v, calc_rc2 Examples.quarters = Ok v /\ unit_or_nan v.
Proof.
  destruct (ratios_are_shares_or_undefined Examples.quarters
              quarters_nonnegative) as ((v & Hv & _ & Hunit) & _).
  exists v. split; [exact Hv | exact Hunit].
Defined.





End RatioFacts.

(** ** The counters of enrichment mode *)

Module CounterFacts.

Import Enrichment.

Lemma log2_up_bound (count_limit k : Z) :
  1 <= count_limit -> 0 <= k -> Z.log2_up count_limit <= k ->
  count_limit <= 2 ^ k.
Proof.
  intros H1 Hk Hlog.
  destruct (Z.eq_dec count_limit 1) as [-> | Hne].
  - pose proof (Z.pow_pos_nonneg 2 k). lia.
  - destruct (Z.log2_up_spec count_limit) as [_ Hup]; [lia |].
    pose proof (Z.pow_le_mono_r 2 (Z.log2_up count_limit) k). lia.
Qed.

(** The table of [_estimate_required_precison]: for a logarithm [x] of at
    most 63 the selected width holds [x] bits and a sign. *)
Lemma width_table (x : Z) :
  0 <= x <= 63 ->
  ((x + 1 + 7) / 8 >? 8) = false /\
  exists bytes,
    nth (Z.to_nat ((x + 1 + 7) / 8)) [1; 1; 2; 4; 4; 8; 8; 8; 8] 0 = bytes /\
    In bytes [1; 2; 4; 8] /\
    x <= 8 * bytes - 1.
Proof.
  intros Hx. set (q := (x + 1 + 7) / 8).
  assert (Hq : 8 * q <= x + 8 < 8 * q + 8).
  { unfold q. pose proof (Z.div_mod (x + 1 + 7) 8).
    pose proof (Z.mod_pos_bound (x + 1 + 7) 8). lia. }
  assert (Hcases : q = 1 \/ q = 2 \/ q = 3 \/ q = 4 \/
                   q = 5 \/ q = 6 \/ q = 7 \/ q = 8) by lia.
  split; [lia |]. clearbody q.
  destruct Hcases as [-> | [-> | [-> | [-> | [-> | [-> | [-> | ->]]]]]]];
    eexists; (split; [reflexivity |]);
    match goal with
    | |- context [nth ?a ?l ?d] =>
        let v := eval vm_compute in (nth a l d) in
        change (nth a l d) with v
    end;
    (split; [cbn; tauto | lia]).
Qed.

(** The width of the counters.  On a sequence with fewer than [2^63] sites
    in each annotation, [_estimate_required_precison] returns 1, 2, 4 or 8
    bytes, and a signed integer of that width holds the number of sites of
    either annotation: counting the sites under a position cannot
    overflow. *)
Theorem counter_width_fits (self : instance) (cs : CurrentSequence) :
  get_sequence self = Ok cs ->
  let sites_n :=
    Z.max (Z.of_nat (List.length (fst (sites cs))))
          (Z.of_nat (List.length (snd (sites cs)))) in
  sites_n < 2 ^ 63 ->
  exists bytes,
    estimate_required_precison self = Ok bytes /\
    In bytes [1; 2; 4; 8] /\
    sites_n <= 2 ^ (8 * bytes - 1) - 1.
Proof.
  intros Hcs n Hn. unfold estimate_required_precison. rewrite Hcs. cbn [bind].
  fold n. set (x := Z.log2_up (n + 1)).
  assert (Hn0 : 0 <= n) by (unfold n; lia).
  assert (Hx0 : 0 <= x) by apply Z.log2_up_nonneg.
  assert (Hx63 : x <= 63).
  { unfold x. apply Z.log2_up_le_pow2; lia. }
  destruct (width_table x (conj Hx0 Hx63)) as (Hq & bytes & Hnth & Hin & Hx).
  rewrite Hq, Hnth. exists bytes. repeat split; [exact Hin |].
  assert (Hb : 0 <= 8 * bytes - 1) by (cbn in Hin; lia).
  pose proof (log2_up_bound (n + 1) (8 * bytes - 1) ltac:(lia) Hb Hx). lia.
Qed.

Lemma counter_width_fits_witness :
  exists self bytes,
    init Examples.enrichment_options Examples.sequence = Ok self /\
    estimate_required_precison self = Ok bytes /\
    1 <= 2 ^ (8 * bytes - 1) - 1.
Proof.
  destruct (init Examples.enrichment_options Examples.sequence)
    as [self |] eqn:Hinit; [| vm_compute in Hinit; discriminate Hinit].
  assert (Hcs : get_sequence self = Ok Examples.sequence)
    by (vm_compute in Hinit; inversion Hinit; reflexivity).
  destruct (counter_width_fits self Examples.sequence Hcs)
    as (bytes & Hest & _ & Hfit); [cbn; lia |].
  exists self, bytes. split; [reflexivity | split; [exact Hest |]].
  cbn in Hfit. exact Hfit.
Defined.

(** *** The counters of enrichment mode *)

Lemma wrap_small (bytes z : Z) :
  1 <= bytes ->
  - 2 ^ (8 * bytes - 1) <= z < 2 ^ (8 * bytes - 1) ->
  wrap bytes z = z.
Proof.
  intros Hb Hz. unfold wrap.
  replace (8 * bytes) with (Z.succ (8 * bytes - 1)) by lia.
  rewrite Z.pow_succ_r by lia.
  set (half := 2 ^ (8 * bytes - 1)) in *.
  replace (2 * half / 2) with half
    by (rewrite Z.mul_comm, Z.div_mul; [reflexivity | discriminate]).
  rewrite Z.mod_small by lia. lia.
Qed.

Lemma iter_no_wrap (bytes : Z) (m : nat) :
  1 <= bytes ->
  Z.of_nat m <= 2 ^ (8 * bytes - 1) - 1 ->
  Nat.iter m (fun v => wrap bytes (v + 1)) 0 = Z.of_nat m.
Proof.
  intros Hb. induction m as [| m IH]; intros Hm; [reflexivity |].
  rewrite Nat.iter_succ, IH by lia.
  rewrite wrap_small; [lia | exact Hb |].
  pose proof (Z.pow_pos_nonneg 2 (8 * bytes - 1)). lia.
Qed.

Lemma py_range_NoDup (a b : Z) : NoDup (py_range a b).
Proof.
  unfold py_range. apply NoDup_map_NoDup_ForallPairs; [| apply seq_NoDup].
  intros x y _ _ Hxy. lia.
Qed.

Lemma increment_in_range (bytes : Z) (a : list Z) (idx : Z) :
  0 <= idx < Z.of_nat (List.length a) ->
  increment bytes a idx
  = Ok (list_update a (Z.to_nat idx)
          (wrap bytes (nth (Z.to_nat idx) a 0 + 1))).
Proof.
  intros Hidx. unfold increment, np_get, np_set, np_index.
  destruct (idx <? 0) eqn:Hneg; [lia |].
  destruct ((0 <=? idx) && (idx <? Z.of_nat (List.length a))) eqn:Hin.
  - reflexivity.
  - apply andb_false_iff in Hin as [H | H]; lia.
Qed.

(** A loop that applies [h] to the cells of a duplicate-free list of
    indices applies it once to each of them. *)
Lemma bump_cells (h : Z -> Z) (body : Z -> list Z -> res (list Z)) (n : Z) :
  (forall idx a, 0 <= idx < n -> Z.of_nat (List.length a) = n ->
     body idx a
     = Ok (list_update a (Z.to_nat idx) (h (nth (Z.to_nat idx) a 0)))) ->
  forall idxs, Forall (fun i => 0 <= i < n) idxs -> NoDup idxs ->
  forall a, Z.of_nat (List.length a) = n ->
  exists a',
    for_each idxs body a = Ok a' /\
    Z.of_nat (List.length a') = n /\
    forall k, 0 <= k < n ->
      nth (Z.to_nat k) a' 0
      = if existsb (Z.eqb k) idxs then h (nth (Z.to_nat k) a 0)
        else nth (Z.to_nat k) a 0.
Proof.
  intros Hbody idxs Hidx.
  induction Hidx as [| i rest Hi _ IH]; intros Hnd a Ha.
  - exists a. repeat split; auto.
  - apply NoDup_cons_iff in Hnd as [Hnotin Hnd'].
    cbn [for_each]. rewrite (Hbody i a Hi Ha). cbn [bind].
    set (a1 := list_update a (Z.to_nat i) (h (nth (Z.to_nat i) a 0))).
    assert (Ha1 : Z.of_nat (List.length a1) = n)
      by (unfold a1; now rewrite BooleanFacts.list_update_length).
    destruct (IH Hnd' a1 Ha1) as (a' & Hrun & Hlen & Hnth).
    exists a'. repeat split; [exact Hrun | exact Hlen |].
    intros k Hk. rewrite (Hnth k Hk). cbn [existsb].
    unfold a1. rewrite ClassificationFacts.nth_list_update by lia.
    destruct (Z.eqb_spec k i) as [-> | Hne].
    + rewrite Nat.eqb_refl.
      destruct (existsb (Z.eqb i) rest) eqn:Hex; [| reflexivity].
      apply existsb_exists in Hex as (x & Hin & Hx).
      apply Z.eqb_eq in Hx. subst x. contradiction.
    + destruct (Nat.eqb_spec (Z.to_nat k) (Z.to_nat i)); [lia |].
      reflexivity.
Qed.

(** The loop over the sites of one annotation applies [h] to a cell once
    for every site that covers its position. *)
Lemma bump_sites (h : Z -> Z) (body : Z -> list Z -> res (list Z)) (n : Z) :
  (forall idx a, 0 <= idx < n -> Z.of_nat (List.length a) = n ->
     body idx a
     = Ok (list_update a (Z.to_nat idx) (h (nth (Z.to_nat idx) a 0)))) ->
  forall sites, Forall (valid_site n) sites ->
  forall a, Z.of_nat (List.length a) = n ->
  exists a',
    for_each sites
      (fun s a0 => for_each (py_range (site_begin s - 1) (site_end s)) body a0)
      a = Ok a' /\
    Z.of_nat (List.length a') = n /\
    forall k, 0 <= k < n ->
      nth (Z.to_nat k) a' 0
      = Nat.iter (List.length (filter (fun s => covers s (k + 1)) sites)) h
          (nth (Z.to_nat k) a 0).
Proof.
  intros Hbody sites Hv.
  induction Hv as [| s rest Hs _ IH]; intros a Ha.
  - exists a. repeat split; auto.
  - cbn [for_each].
    destruct (bump_cells h body n Hbody (py_range (site_begin s - 1) (site_end s))
                (BooleanFacts.site_range_valid n s Hs)
                (py_range_NoDup _ _) a Ha)
      as (a1 & Hrun1 & Hlen1 & Hnth1).
    rewrite Hrun1. cbn [bind].
    destruct (IH a1 Hlen1) as (a' & Hrun & Hlen & Hnth).
    exists a'. repeat split; [exact Hrun | exact Hlen |].
    intros k Hk. rewrite (Hnth k Hk), (Hnth1 k Hk).
    change (py_range (site_begin s - 1) (site_end s))
      with (Boolean.site_range s).
    rewrite ClassificationFacts.site_range_covers.
    cbn [filter]. destruct (covers s (k + 1)); [| reflexivity].
    cbn [List.length]. now rewrite Nat.iter_succ_r.
Qed.

Lemma filter_length_le {A : Type} (f : A -> bool) (l : list A) :
  (List.length (filter f l) <= List.length l)%nat.
Proof.
  induction l as [| x rest IH]; cbn; [lia |].
  destruct (f x); cbn; lia.
Qed.

(** What the constructor counts.  On a sequence whose sites lie inside it,
    with fewer than [2^63] sites in each annotation, [__init__] returns,
    and the two arrays of the instance hold, for every position of the
    sequence, the number of sites of the first and of the second annotation
    that cover it; the counter width chosen by
    [_estimate_required_precison] never makes a count wrap around. *)
Theorem counters_count_covering_sites (o : Options) (cs : CurrentSequence) :
  valid_sequence cs ->
  Z.max (Z.of_nat (List.length (fst (sites cs))))
        (Z.of_nat (List.length (snd (sites cs)))) < 2 ^ 63 ->
  exists self bytes a1 a2,
    init o cs = Ok self /\
    get_arrays self = Ok (bytes, (a1, a2)) /\
    forall p, 1 <= p <= length cs ->
      np_get a1 (p - 1) = Ok (Positions.covering (fst (sites cs)) p) /\
      np_get a2 (p - 1) = Ok (Positions.covering (snd (sites cs)) p).
Proof.
  intros (Hlen & Hv1 & Hv2) Hn.
  set (n := Z.max (Z.of_nat (List.length (fst (sites cs))))
                  (Z.of_nat (List.length (snd (sites cs))))) in *.
  set (x := Z.log2_up (n + 1)).
  assert (Hn0 : 0 <= n) by (unfold n; lia).
  assert (Hx0 : 0 <= x) by apply Z.log2_up_nonneg.
  assert (Hx63 : x <= 63) by (unfold x; apply Z.log2_up_le_pow2; lia).
  destruct (width_table x (conj Hx0 Hx63)) as (Hq & bytes & Hnth & Hin & Hx).
  assert (Hb : 1 <= bytes) by (cbn in Hin; lia).
  assert (Hfit : n <= 2 ^ (8 * bytes - 1) - 1).
  { pose proof (log2_up_bound (n + 1) (8 * bytes - 1)
                  ltac:(lia) ltac:(lia) Hx). lia. }
  set (zeros := repeat 0 (Z.to_nat (length cs))).
  assert (Hzeros : Z.of_nat (List.length zeros) = length cs)
    by (unfold zeros; rewrite repeat_length; lia).
  set (h := fun v => wrap bytes (v + 1)).
  assert (Hbody : forall idx a, 0 <= idx < length cs ->
            Z.of_nat (List.length a) = length cs ->
            increment bytes a idx
            = Ok (list_update a (Z.to_nat idx) (h (nth (Z.to_nat idx) a 0)))).
  { intros idx a Hidx Ha. apply increment_in_range. lia. }
  destruct (bump_sites h (fun idx a' => increment bytes a' idx) (length cs)
              Hbody (fst (sites cs)) Hv1 zeros Hzeros)
    as (a1 & Hrun1 & Hlen1 & Hcell1).
  destruct (bump_sites h (fun idx a' => increment bytes a' idx) (length cs)
              Hbody (snd (sites cs)) Hv2 zeros Hzeros)
    as (a2 & Hrun2 & Hlen2 & Hcell2).
  exists (setattr
            (setattr
               (setattr (setattr (base_init o cs) "n" (VInt (enrichment_count o)))
                  "seq" (VArrays bytes zeros zeros))
               "results" (VMeasures new_measures))
            "seq" (VArrays bytes a1 a2)), bytes, a1, a2.
  split; [| split; [reflexivity |]].
  - unfold init. cbv zeta.
    change (get_options (base_init o cs)) with (Ok o). cbn [bind].
    unfold estimate_required_precison.
    change (get_sequence
              (setattr (base_init o cs) "n" (VInt (enrichment_count o))))
      with (Ok cs).
    cbn [bind]. cbv zeta. fold n. fold x. rewrite Hq, Hnth. cbn [bind].
    unfold np_zeros. destruct (length cs <? 0) eqn:Hneg; [lia |].
    cbn [bind]. fold zeros. unfold count_occurrences.
    match goal with
    | |- context [get_sequence ?self] =>
        change (get_sequence self) with (Ok cs)
    end.
    match goal with
    | |- context [get_arrays ?self] =>
        change (get_arrays self) with (Ok (bytes, (zeros, zeros)))
    end.
    cbn [bind for_each get2 set2 fst snd].
    rewrite Hrun1. cbn [bind fst snd]. rewrite Hrun2. cbn [bind fst snd].
    reflexivity.
  - intros p Hp.
    assert (Hcount : forall sites a,
              Z.of_nat (List.length sites) <= n ->
              Z.of_nat (List.length a) = length cs ->
              nth (Z.to_nat (p - 1)) a 0
              = Nat.iter
                  (List.length (filter (fun s => covers s (p - 1 + 1)) sites)) h
                  (nth (Z.to_nat (p - 1)) zeros 0) ->
              np_get a (p - 1) = Ok (Positions.covering sites p)).
    { intros sites a Hsites Ha Hcell.
      unfold np_get, np_index. rewrite Ha.
      destruct (p - 1 <? 0) eqn:Hneg; [lia |].
      destruct ((0 <=? p - 1) && (p - 1 <? length cs)) eqn:Hrange;
        [| apply andb_false_iff in Hrange as [H | H]; lia].
      cbn [bind]. rewrite Hcell. unfold zeros. rewrite nth_repeat.
      replace (p - 1 + 1) with p by lia.
      unfold h. rewrite iter_no_wrap; [reflexivity | exact Hb |].
      pose proof (filter_length_le (fun s => covers s p) sites). lia. }
    split; apply Hcount;
      try (unfold n; lia); try assumption;
      [apply Hcell1 | apply Hcell2]; lia.
Qed.

Lemma counters_count_covering_sites_witness :
  exists self bytes a1 a2,
    init Examples.enrichment_options Examples.sequence = Ok self /\
    get_arrays self = Ok (bytes, (a1, a2)) /\
    np_get a1 (4 - 1) = Ok 1 /\ np_get a2 (4 - 1) = Ok 1.
Proof.
  destruct (counters_count_covering_sites Examples.enrichment_options
              Examples.sequence BooleanFacts.example_sequence_valid)
    as (self & bytes & a1 & a2 & Hinit & Harr & Hcells); [cbn; lia |].
  exists self, bytes, a1, a2.
  split; [exact Hinit | split; [exact Harr |]].
  apply (Hcells 4). cbn. lia.
Defined.

End CounterFacts.

Module RowFacts.

Import Database.

(** The final row without grouping.  With [groups_n = 0], as [process]
    passes it for ungrouped input, [_produce_final_string] divides nothing:
    when every name of the table is in the results, the row holds their
    values as they are, except that under [na_zeros] an undefined value
    becomes 0.0. *)
Theorem ungrouped_row_keeps_values (results : PerformanceMeasures)
  (attr_names : list string) (na_zeros : bool) (values : list pyfloat) :
  Forall2 (fun name v => get_value results name = Ok v) attr_names values ->
  produce_final_string results attr_names na_zeros 0
  = Ok (map (fun v => if na_zeros && isnan v then Fl 0 else v) values).
Proof.
  intros Hall. induction Hall as [| name v names vs Hv _ IH]; [reflexivity |].
  cbn [produce_final_string map]. rewrite IH.
  unfold final_value. rewrite Hv. cbn [bind].
  destruct na_zeros, v; reflexivity.
Qed.

Lemma ungrouped_row_keeps_values_witness :
  produce_final_string Examples.group_A ["X"%string] true 0 = Ok [Fl 0] /\
  produce_final_string Examples.group_A ["X"%string] false 0 = Ok [NaN].
Proof.
  split.
  - apply (ungrouped_row_keeps_values Examples.group_A ["X"%string] true [NaN]).
    repeat constructor.
  - apply (ungrouped_row_keeps_values Examples.group_A ["X"%string] false [NaN]).
    repeat constructor.
Defined.

End RowFacts.
